(** * itk::LabelMap< TLabelObject >: a shallow embedding of itkLabelMap.hxx

    The label map is a [std::map] from label values to reference-counted
    label objects.  Label objects are shared: the same object can be reached
    from the caller, from several keys and from several label maps.  The
    embedding therefore keeps the objects in a store indexed by addresses, and
    the container maps labels to addresses.

    Every method is a computation in a small state-and-exception monad: a
    method receives the store together with the fields of [this], and returns
    the new store and fields together with an outcome: normal return, a thrown
    itk::ExceptionObject, or undefined behaviour such as the use of an
    invalidated iterator.  The one loop that is not a plain traversal, the one
    of [SetPixel], which erases entries while it iterates, takes a bound on
    its iterations; [SetPixel_fuel] shows that the bound it is given is
    enough. *)

From stdpp Require Import gmap list sorting.
From Stdlib Require Import ZArith Lia.

Local Open Scope Z_scope.

(** ** NumericTraits< LabelType > *)

(** Modelled from the spec: [NumericTraits< LabelType >] is declared outside
    of itkLabelMap.hxx.  The label type is "an ordered integral type with a
    minimum, a maximum"; it is taken here as an unsigned integer type of
    [bits] bits, whose arithmetic wraps around modulo [2 ^ bits]. *)
Class NumericTraits := { bits : positive }.

Definition UnsignedChar : NumericTraits := {| bits := 8 |}.
Definition UnsignedShort : NumericTraits := {| bits := 16 |}.
Definition UnsignedLong : NumericTraits := {| bits := 64 |}.

Section Traits.
Context {LT : NumericTraits}.

Definition modulus : Z := 2 ^ Z.pos bits.
Definition NumericTraits_max : Z := modulus - 1.
Definition NumericTraits_NonpositiveMin : Z := 0.
Definition NumericTraits_Zero : Z := 0.

(** Conversion of an integer result back to [LabelType]. *)
Definition wrap (x : Z) : Z := x mod modulus.

(** The values of [LabelType]. *)
Definition is_label (x : Z) : Prop := 0 <= x <= NumericTraits_max.
End Traits.

(** ** LabelObject *)

(** Positions are [itk::Index< VImageDimension >]: one coordinate per
    dimension. *)
Definition IndexType : Type := list Z.

(** Modelled from the spec: [LabelObject] is an external collaborator, known
    by its capability set only: membership test, add index, add contiguous
    run, remove index (true iff the position was present), check-empty,
    get/set label, optimize.  It owns a label and a set of positions. *)
Record LabelObject := mkLabelObject {
  m_Label : Z;
  m_Region : gset IndexType
}.

Module LabelObj.
Definition GetLabel (o : LabelObject) : Z := m_Label o.

Definition SetLabel (l : Z) (o : LabelObject) : LabelObject :=
  {| m_Label := l; m_Region := m_Region o |}.

Definition HasIndex (idx : IndexType) (o : LabelObject) : bool :=
  bool_decide (idx ∈ m_Region o).

Definition AddIndex (idx : IndexType) (o : LabelObject) : LabelObject :=
  {| m_Label := m_Label o; m_Region := m_Region o ∪ {[ idx ]} |}.

(** The positions of a run of [length] positions starting at [idx]: the
    first coordinate advances. *)
Definition shift (idx : IndexType) (k : Z) : IndexType :=
  match idx with
  | [] => []
  | x :: r => (x + k) :: r
  end.

Definition line (idx : IndexType) (length : Z) : gset IndexType :=
  list_to_set (shift idx <$> seqZ 0 length).

Definition AddLine (idx : IndexType) (length : Z) (o : LabelObject)
  : LabelObject :=
  {| m_Label := m_Label o; m_Region := m_Region o ∪ line idx length |}.

(** Returns whether the position was present, and the object without it. *)
Definition RemoveIndex (idx : IndexType) (o : LabelObject)
  : bool * LabelObject :=
  (bool_decide (idx ∈ m_Region o),
   {| m_Label := m_Label o; m_Region := m_Region o ∖ {[ idx ]} |}).

Definition Empty (o : LabelObject) : bool :=
  bool_decide (m_Region o = ∅).

(** Compaction changes the representation of the runs, not the positions. *)
Definition Optimize (o : LabelObject) : LabelObject := o.

(** [LabelObjectType::New()]: label zero, no position. *)
Definition New : LabelObject := {| m_Label := 0; m_Region := ∅ |}.
End LabelObj.

(** ** The container: std::map< LabelType, LabelObjectPointerType > *)

(** Addresses of label objects; a [LabelObjectPointerType] is an address, a
    plain [LabelObjectType *] may also be NULL. *)
Definition addr : Type := positive.
Definition pointer : Type := option addr.

(** The entries of the map, in ascending order of the keys. *)
Definition LabelObjectContainerType : Type := list (Z * addr).

(** An iterator designates the entry of a key; [None] is [end()]. *)
Definition iterator : Type := option Z.

Module Container.
Definition keys (c : LabelObjectContainerType) : list Z := fst <$> c.

Fixpoint find (k : Z) (c : LabelObjectContainerType) : option addr :=
  match c with
  | [] => None
  | (k', a) :: c' => if decide (k' = k) then Some a else find k c'
  end.

(** [c[k] = a]: inserts at the place of [k], or overwrites its entry. *)
Fixpoint assign (k : Z) (a : addr) (c : LabelObjectContainerType)
  : LabelObjectContainerType :=
  match c with
  | [] => [(k, a)]
  | (k', a') :: c' =>
      if decide (k < k') then (k, a) :: (k', a') :: c'
      else if decide (k = k') then (k, a) :: c'
      else (k', a') :: assign k a c'
  end.

Fixpoint erase (k : Z) (c : LabelObjectContainerType)
  : LabelObjectContainerType :=
  match c with
  | [] => []
  | (k', a') :: c' =>
      if decide (k' = k) then erase k c' else (k', a') :: erase k c'
  end.

(** [c.find(k)] as an iterator. *)
Definition find_it (k : Z) (c : LabelObjectContainerType) : iterator :=
  match find k c with
  | Some _ => Some k
  | None => None
  end.

(** [c.begin()] *)
Definition begin (c : LabelObjectContainerType) : iterator :=
  fst <$> head c.

(** [++it] for an iterator at key [k]: the key of the following entry. *)
Fixpoint next (k : Z) (c : LabelObjectContainerType) : iterator :=
  match c with
  | [] => None
  | (k', _) :: c' => if decide (k' = k) then begin c' else next k c'
  end.

(** Strictly ascending keys: the representation invariant of [std::map]. *)
Definition sorted (c : LabelObjectContainerType) : Prop :=
  StronglySorted Z.lt (keys c).
End Container.

(** ** The state *)

Record LabelMap := mkLabelMap {
  m_BackgroundValue : Z;
  m_LabelObjectContainer : LabelObjectContainerType;
  (** number of calls of [Modified()] so far *)
  m_MTime : nat
}.

Record State := mkState {
  heap : gmap addr LabelObject;
  this : LabelMap
}.

(** The error kinds of the exceptions thrown by the methods. *)
Inductive ExceptionObject :=
  | NullArgument            (* "Input LabelObject can't be Null" *)
  | BackgroundLabelAccess   (* "Label ... is the background label." *)
  | LabelNotFound           (* "No label object with label ..." *)
  | PositionNotFound        (* "No label object at index ..." *)
  | IndexOutOfRange         (* "Can't access to label object at position ..." *)
  | ContainerFull           (* "Can't push the label object: the label map is full." *)
  | IncompatibleSourceType. (* "itk::Image::Graft() cannot cast ..." *)

Inductive outcome (A : Type) :=
  | Ret (a : A)
  | Throw (e : ExceptionObject)
  | Undefined   (* dangling pointer or invalidated iterator *)
  | OutOfFuel.  (* the bound on the iterations of a loop was too small;
                   see [SetPixel_fuel] *)
Arguments Ret {A} a.
Arguments Throw {A} e.
Arguments Undefined {A}.
Arguments OutOfFuel {A}.

Definition M (A : Type) : Type := State → outcome A * State.

Definition ret {A} (a : A) : M A := λ s, (Ret a, s).

Definition bind {A B} (m : M A) (f : A → M B) : M B :=
  λ s, match m s with
       | (Ret a, s') => f a s'
       | (Throw e, s') => (Throw e, s')
       | (Undefined, s') => (Undefined, s')
       | (OutOfFuel, s') => (OutOfFuel, s')
       end.

Definition throw {A} (e : ExceptionObject) : M A := λ s, (Throw e, s).
Definition undefined {A} : M A := λ s, (Undefined, s).
Definition out_of_fuel {A} : M A := λ s, (OutOfFuel, s).

#[global] Instance M_ret : MRet M := @ret.
#[global] Instance M_bind : MBind M := λ A B f m, bind m f.

Definition when (b : bool) (m : M unit) : M unit := if b then m else ret tt.

(** *** Accessors *)

Definition with_heap (h : gmap addr LabelObject) (s : State) : State :=
  {| heap := h; this := this s |}.

Definition with_container (c : LabelObjectContainerType) (s : State) : State :=
  {| heap := heap s;
     this := {| m_BackgroundValue := m_BackgroundValue (this s);
                m_LabelObjectContainer := c;
                m_MTime := m_MTime (this s) |} |}.

Definition with_background (b : Z) (s : State) : State :=
  {| heap := heap s;
     this := {| m_BackgroundValue := b;
                m_LabelObjectContainer := m_LabelObjectContainer (this s);
                m_MTime := m_MTime (this s) |} |}.

Definition modified (s : State) : State :=
  {| heap := heap s;
     this := {| m_BackgroundValue := m_BackgroundValue (this s);
                m_LabelObjectContainer := m_LabelObjectContainer (this s);
                m_MTime := S (m_MTime (this s)) |} |}.

Definition get_container : M LabelObjectContainerType :=
  λ s, (Ret (m_LabelObjectContainer (this s)), s).

Definition get_background : M Z :=
  λ s, (Ret (m_BackgroundValue (this s)), s).

Definition set_container (c : LabelObjectContainerType) : M unit :=
  λ s, (Ret tt, with_container c s).

Definition set_background (b : Z) : M unit :=
  λ s, (Ret tt, with_background b s).

(** [this->Modified()] *)
Definition Modified : M unit := λ s, (Ret tt, modified s).

(** [*p] for a label object pointer. *)
Definition load (a : addr) : M LabelObject :=
  λ s, match heap s !! a with
       | Some o => (Ret o, s)
       | None => (Undefined, s)
       end.

Definition store (a : addr) (o : LabelObject) : M unit :=
  λ s, (Ret tt, with_heap (<[a := o]> (heap s)) s).

(** [p->f(...)] for a method [f] that updates the object. *)
Definition update (a : addr) (f : LabelObject → LabelObject) : M unit :=
  o ← load a; store a (f o).

(** [LabelObjectType::New()] *)
Definition New : M addr :=
  λ s, let a := fresh (dom (heap s)) in
       (Ret a, with_heap (<[a := LabelObj.New]> (heap s)) s).

(** [it->second] for an iterator that is not [end()]: the entry must still be
    in the container. *)
Definition second (k : Z) : M addr :=
  c ← get_container;
  match Container.find k c with
  | Some a => ret a
  | None => undefined
  end.

(** ** The methods of LabelMap *)

(** Modelled from the spec: the graft source is a [DataObject]; the
    [dynamic_cast] to [const Self *] succeeds exactly on label maps of the
    same kind. *)
Inductive DataObject :=
  | SelfData (imgData : LabelMap)
  | OtherData.

Definition dynamic_cast (data : DataObject) : option LabelMap :=
  match data with
  | SelfData imgData => Some imgData
  | OtherData => None
  end.

Definition ClearLabels : M unit :=
  c ← get_container;
  match c with
  | [] => ret tt
  | _ :: _ => set_container [];; Modified
  end.

Definition Initialize : M unit := ClearLabels.

Definition Allocate : M unit := Initialize.

(** The constructor; the store is the one of the program at that point. *)
Definition LabelMap_ctor (h : gmap addr LabelObject) : State :=
  snd (Initialize
         {| heap := h;
            this := {| m_BackgroundValue := 0;
                       m_LabelObjectContainer := [];
                       m_MTime := 0%nat |} |}).

(** [Superclass::Graft] copies the meta-information of the image (regions,
    spacing), which is no part of this state. *)
Definition Graft (data : option DataObject) : M unit :=
  match data with
  | Some d =>
      match dynamic_cast d with
      | Some imgData =>
          set_container (m_LabelObjectContainer imgData);;
          set_background (m_BackgroundValue imgData)
      | None => throw IncompatibleSourceType
      end
  | None => ret tt
  end.

(** [GetLabelObject(const LabelType &)], const or not. *)
Definition GetLabelObject (label : Z) : M addr :=
  bg ← get_background;
  if decide (bg = label) then throw BackgroundLabelAccess
  else
    c ← get_container;
    match Container.find label c with
    | None => throw LabelNotFound
    | Some a => ret a
    end.

Definition HasLabel (label : Z) (s : State) : bool :=
  if decide (label = m_BackgroundValue (this s)) then true
  else bool_decide (Container.find label (m_LabelObjectContainer (this s)) ≠ None).

Fixpoint GetPixel_loop (idx : IndexType) (c : LabelObjectContainerType) : M Z :=
  match c with
  | [] => get_background
  | (_, a) :: c' =>
      o ← load a;
      if LabelObj.HasIndex idx o then ret (LabelObj.GetLabel o)
      else GetPixel_loop idx c'
  end.

Definition GetPixel (idx : IndexType) : M Z :=
  c ← get_container; GetPixel_loop idx c.

Fixpoint GetNthLabelObject_loop (i pos : nat) (c : LabelObjectContainerType)
  : M addr :=
  match c with
  | [] => throw IndexOutOfRange
  | (_, a) :: c' =>
      if decide (i = pos) then ret a else GetNthLabelObject_loop (S i) pos c'
  end.

Definition GetNthLabelObject (pos : nat) : M addr :=
  c ← get_container; GetNthLabelObject_loop 0 pos c.

(** [GetLabelObject(const IndexType &)] *)
Fixpoint GetLabelObject_idx_loop (idx : IndexType) (c : LabelObjectContainerType)
  : M addr :=
  match c with
  | [] => throw PositionNotFound
  | (_, a) :: c' =>
      o ← load a;
      if LabelObj.HasIndex idx o then ret a else GetLabelObject_idx_loop idx c'
  end.

Definition GetLabelObject_idx (idx : IndexType) : M addr :=
  c ← get_container; GetLabelObject_idx_loop idx c.

Definition AddLabelObject (labelObject : pointer) : M unit :=
  match labelObject with
  | None => throw NullArgument
  | Some a =>
      o ← load a;
      c ← get_container;
      set_container (Container.assign (LabelObj.GetLabel o) a c);;
      Modified
  end.

Definition RemoveLabel (label : Z) : M unit :=
  bg ← get_background;
  if decide (bg = label) then throw BackgroundLabelAccess
  else
    c ← get_container;
    set_container (Container.erase label c);;
    Modified.

Definition RemoveLabelObject (labelObject : pointer) : M unit :=
  match labelObject with
  | None => throw NullArgument
  | Some a => o ← load a; RemoveLabel (LabelObj.GetLabel o)
  end.

(** [AddPixel(const LabelObjectContainerIterator &, idx, label)] *)
Definition AddPixel_it (it : iterator) (idx : IndexType) (label : Z) : M unit :=
  bg ← get_background;
  if decide (label = bg) then ret tt
  else
    match it with
    | Some k =>
        a ← second k;
        update a (LabelObj.AddIndex idx);;
        Modified
    | None =>
        labelObject ← New;
        update labelObject (LabelObj.SetLabel label);;
        update labelObject (LabelObj.AddIndex idx);;
        AddLabelObject (Some labelObject)
    end.

Definition AddPixel (idx : IndexType) (label : Z) : M unit :=
  bg ← get_background;
  if decide (label = bg) then ret tt
  else
    c ← get_container;
    AddPixel_it (Container.find_it label c) idx label.

(** [RemovePixel(const LabelObjectContainerIterator &, idx, bool)] *)
Definition RemovePixel_it (it : iterator) (idx : IndexType)
    (iEmitModifiedEvent : bool) : M unit :=
  match it with
  | Some k =>
      a ← second k;
      o ← load a;
      let '(removed, o') := LabelObj.RemoveIndex idx o in
      store a o';;
      if removed then
        when (LabelObj.Empty o') (RemoveLabelObject (Some a));;
        when iEmitModifiedEvent Modified
      else ret tt
  | None => ret tt
  end.

Definition RemovePixel (idx : IndexType) (label : Z) : M unit :=
  bg ← get_background;
  if decide (label = bg) then ret tt
  else
    c ← get_container;
    RemovePixel_it (Container.find_it label c) idx true.

(** The loop of [SetPixel]; [fuel] bounds the number of iterations.  The
    iterator is incremented on the container as it is before the pixel is
    removed; the entry it then designates has to be there at the next
    iteration. *)
Fixpoint SetPixel_loop (fuel : nat) (it : iterator) (idx : IndexType)
    (iLabel : Z) (newLabel : bool) : M bool :=
  match it with
  | None => ret newLabel
  | Some k =>
      match fuel with
      | O => out_of_fuel
      | S fuel' =>
          _ ← second k;
          c ← get_container;
          if decide (k ≠ iLabel) then
            let tempIt := it in
            let it' := Container.next k c in
            bg ← get_background;
            let emitModifiedEvent := bool_decide (iLabel = bg) in
            RemovePixel_it tempIt idx emitModifiedEvent;;
            SetPixel_loop fuel' it' idx iLabel newLabel
          else
            AddPixel_it it idx iLabel;;
            SetPixel_loop fuel' (Container.next k c) idx iLabel false
      end
  end.

Definition SetPixel (idx : IndexType) (iLabel : Z) : M unit :=
  c ← get_container;
  newLabel ← SetPixel_loop (length c) (Container.begin c) idx iLabel true;
  when newLabel (AddPixel_it None idx iLabel).

Definition SetLine (idx : IndexType) (length : Z) (label : Z) : M unit :=
  bg ← get_background;
  if decide (label = bg) then ret tt
  else
    c ← get_container;
    match Container.find label c with
    | Some a =>
        update a (LabelObj.AddLine idx length);;
        Modified
    | None =>
        labelObject ← New;
        update labelObject (LabelObj.SetLabel label);;
        update labelObject (LabelObj.AddLine idx length);;
        AddLabelObject (Some labelObject)
    end.

Definition GetNumberOfLabelObjects (s : State) : nat :=
  length (m_LabelObjectContainer (this s)).

Definition GetLabels (s : State) : list Z :=
  fst <$> m_LabelObjectContainer (this s).

Definition GetLabelObjects (s : State) : list addr :=
  snd <$> m_LabelObjectContainer (this s).

Fixpoint Optimize_loop (c : LabelObjectContainerType) : M unit :=
  match c with
  | [] => ret tt
  | (_, a) :: c' => update a LabelObj.Optimize;; Optimize_loop c'
  end.

Definition Optimize : M unit :=
  c ← get_container; Optimize_loop c;; Modified.

Section PushLabelObject.
Context {LT : NumericTraits}.

(** The search for an unused label: [label] runs along the keys.  The
    result is the value of [label] when the loop is left, by [break] or at
    [end()]. *)
Fixpoint PushLabelObject_loop (a : addr) (label : Z)
    (c : LabelObjectContainerType) : M Z :=
  match c with
  | [] => ret label
  | (k, _) :: c' =>
      bg ← get_background;
      let label := if decide (label = bg) then wrap (label + 1) else label in
      if decide (label ≠ k) then
        update a (LabelObj.SetLabel label);; ret label
      else PushLabelObject_loop a (wrap (label + 1)) c'
  end.

(** The sums are those of [LabelType].  Behind the guards that precede
    them none of them wraps around, so that they are also the sums
    computed in [int] when [LabelType] is subject to integral promotion. *)
Definition PushLabelObject (labelObject : pointer) : M unit :=
  match labelObject with
  | None => throw NullArgument
  | Some a =>
      c ← get_container;
      bg ← get_background;
      match c with
      | [] =>
          if decide (bg = 0) then update a (LabelObj.SetLabel 1)
          else update a (LabelObj.SetLabel 0)
      | (firstLabel, _) :: _ =>
          let lastLabel := List.last (Container.keys c) firstLabel in
          if decide (lastLabel ≠ NumericTraits_max
                     ∧ wrap (lastLabel + 1) ≠ bg) then
            update a (LabelObj.SetLabel (wrap (lastLabel + 1)))
          else if decide (lastLabel ≠ NumericTraits_max
                          ∧ wrap (lastLabel + 1) ≠ NumericTraits_max
                          ∧ wrap (lastLabel + 2) ≠ bg) then
            update a (LabelObj.SetLabel (wrap (lastLabel + 2)))
          else if decide (firstLabel ≠ NumericTraits_NonpositiveMin
                          ∧ wrap (firstLabel - 1) ≠ bg) then
            update a (LabelObj.SetLabel (wrap (firstLabel - 1)))
          else
            label ← PushLabelObject_loop a firstLabel c;
            if decide (label = lastLabel) then throw ContainerFull
            else ret tt
      end;;
      AddLabelObject (Some a)
  end.
End PushLabelObject.

(** ** Observations and invariants *)

Definition container (s : State) : LabelObjectContainerType :=
  m_LabelObjectContainer (this s).

Definition background (s : State) : Z := m_BackgroundValue (this s).

(** The object at [a] is stored under the key [k]. *)
Definition stored (s : State) (k : Z) (a : addr) : Prop :=
  (k, a) ∈ container s.

(** The region of the object at [a] contains [idx]. *)
Definition contains (s : State) (a : addr) (idx : IndexType) : Prop :=
  ∃ o, heap s !! a = Some o ∧ idx ∈ m_Region o.

(** The object stored under [k] contains [idx]. *)
Definition owns (s : State) (k : Z) (idx : IndexType) : Prop :=
  ∃ a, stored s k a ∧ contains s a idx.

(** The object stored under [k], if there is one: the label map as a map
    from labels to objects. *)
Definition view (s : State) (k : Z) : option LabelObject :=
  a ← Container.find k (container s); heap s !! a.

(** What [RemovePixel] leaves of an object: nothing when its last position
    is removed. *)
Definition evict (idx : IndexType) (o : LabelObject) : option LabelObject :=
  let '(removed, o') := LabelObj.RemoveIndex idx o in
  if removed then (if LabelObj.Empty o' then None else Some o') else Some o.

(** The object to which [AddPixel] and [SetLine] add the positions, when the
    label has none. *)
Definition fresh_object (label : Z) : LabelObject :=
  LabelObj.SetLabel label LabelObj.New.

(** The objects of the entries [c] are alive and none contains [idx]. *)
Definition misses (s : State) (idx : IndexType) (c : LabelObjectContainerType)
  : Prop :=
  ∀ k a, (k, a) ∈ c → ∃ o, heap s !! a = Some o ∧ idx ∉ m_Region o.

(** The state in which the object [o] at [a] has got the label [l] and is
    stored under it. *)
Definition pushed_as (l : Z) (a : addr) (o : LabelObject) (s : State) : State :=
  modified
    (with_container (Container.assign l a (container s))
       (with_heap (<[a := LabelObj.SetLabel l o]> (heap s)) s)).

(** No position is in the objects of two keys. *)
Definition one_owner (s : State) : Prop :=
  ∀ idx k1 k2, owns s k1 idx → owns s k2 idx → k1 = k2.

(** The smart pointers of the container keep their objects alive. *)
Definition valid_pointers (s : State) : Prop :=
  ∀ k a, stored s k a → is_Some (heap s !! a).

(** I1: the background value is no key. *)
Definition I1 (s : State) : Prop :=
  background s ∉ Container.keys (container s).

(** I2: every key is the label of its object. *)
Definition I2 (s : State) : Prop :=
  ∀ k a o, stored s k a → heap s !! a = Some o → m_Label o = k.

(** I3: no position belongs to two stored objects. *)
Definition I3 (s : State) : Prop :=
  ∀ idx k1 a1 k2 a2,
    stored s k1 a1 → stored s k2 a2 →
    contains s a1 idx → contains s a2 idx → k1 = k2 ∧ a1 = a2.

(** I4: no stored object is empty. *)
Definition I4 (s : State) : Prop :=
  ∀ k a o, stored s k a → heap s !! a = Some o → m_Region o ≠ ∅.

Record consistent (s : State) : Prop := mkConsistent {
  consistent_sorted : Container.sorted (container s);
  consistent_valid : valid_pointers s;
  consistent_I2 : I2 s
}.

Record well_formed (s : State) : Prop := mkWellFormed {
  wf_consistent : consistent s;
  wf_I1 : I1 s;
  wf_I4 : I4 s
}.

(** ** Sequences of calls *)

Inductive Call :=
  | CallAddLabelObject (labelObject : pointer)
  | CallPushLabelObject (labelObject : pointer)
  | CallAddPixel (idx : IndexType) (label : Z)
  | CallSetPixel (idx : IndexType) (label : Z)
  | CallSetLine (idx : IndexType) (length : Z) (label : Z)
  | CallRemovePixel (idx : IndexType) (label : Z)
  | CallRemoveLabel (label : Z)
  | CallGraft (data : option DataObject)
  | CallClearLabels.

Section Calls.
Context {LT : NumericTraits}.

Definition exec (c : Call) : M unit :=
  match c with
  | CallAddLabelObject labelObject => AddLabelObject labelObject
  | CallPushLabelObject labelObject => PushLabelObject labelObject
  | CallAddPixel idx label => AddPixel idx label
  | CallSetPixel idx label => SetPixel idx label
  | CallSetLine idx length label => SetLine idx length label
  | CallRemovePixel idx label => RemovePixel idx label
  | CallRemoveLabel label => RemoveLabel label
  | CallGraft data => Graft data
  | CallClearLabels => ClearLabels
  end.

(** The state after a sequence of calls.  The caller catches the exceptions
    and goes on; after undefined behaviour nothing follows. *)
Fixpoint run (calls : list Call) (s : State) : State :=
  match calls with
  | [] => s
  | c :: calls' =>
      match exec c s with
      | (Ret _, s') | (Throw _, s') => run calls' s'
      | (_, s') => s'
      end
  end.

(** [permitted] constrains every call of the sequence in the state in which
    it is made. *)
Fixpoint admissible (permitted : Call → State → Prop) (calls : list Call)
    (s : State) : Prop :=
  match calls with
  | [] => True
  | c :: calls' =>
      permitted c s ∧
      match exec c s with
      | (Ret _, s') | (Throw _, s') => admissible permitted calls' s'
      | _ => True
      end
  end.

(** The search of the last branch of [PushLabelObject], without the
    object: the value of [label] when the loop is left, and whether it is
    left by [break], that is, after [SetLabel(label)]. *)
Fixpoint unused_label (bg label : Z) (ks : list Z) : Z * bool :=
  match ks with
  | [] => (label, false)
  | k :: ks' =>
      let label := if decide (label = bg) then wrap (label + 1) else label in
      if decide (label ≠ k) then (label, true)
      else unused_label bg (wrap (label + 1)) ks'
  end.

(** The label that [PushLabelObject] gives to the object, if it gives
    one. *)
Definition pushed_label (bg : Z) (c : LabelObjectContainerType) : option Z :=
  match c with
  | [] => if decide (bg = 0) then Some 1 else Some 0
  | (firstLabel, _) :: _ =>
      let lastLabel := List.last (Container.keys c) firstLabel in
      if decide (lastLabel ≠ NumericTraits_max
                 ∧ wrap (lastLabel + 1) ≠ bg) then
        Some (wrap (lastLabel + 1))
      else if decide (lastLabel ≠ NumericTraits_max
                      ∧ wrap (lastLabel + 1) ≠ NumericTraits_max
                      ∧ wrap (lastLabel + 2) ≠ bg) then
        Some (wrap (lastLabel + 2))
      else if decide (firstLabel ≠ NumericTraits_NonpositiveMin
                      ∧ wrap (firstLabel - 1) ≠ bg) then
        Some (wrap (firstLabel - 1))
      else
        let '(label, found) :=
          unused_label bg firstLabel (Container.keys c) in
        if found then Some label else None
  end.
(** The calls that put no object under the background value: the object
    given to [AddLabelObject] has another label, [PushLabelObject] finds a
    label for the object, and the source of [Graft] has no object under its
    own background value. *)
Definition respects_background (c : Call) (s : State) : Prop :=
  match c with
  | CallAddLabelObject (Some a) =>
      match heap s !! a with
      | Some o => m_Label o ≠ background s
      | None => True
      end
  | CallPushLabelObject (Some a) =>
      pushed_label (background s) (container s) ≠ None
  | CallGraft (Some (SelfData imgData)) =>
      m_BackgroundValue imgData
        ∉ Container.keys (m_LabelObjectContainer imgData)
  | _ => True
  end.

(** The calls that keep the label map well formed: moreover, the objects
    given to [AddLabelObject] and [PushLabelObject] are not empty, the one
    given to [PushLabelObject] is not in the container yet, the runs of
    [SetLine] are not empty, and the source of [Graft] is well formed. *)
Definition respects_invariants (c : Call) (s : State) : Prop :=
  match c with
  | CallAddLabelObject (Some a) =>
      match heap s !! a with
      | Some o => m_Label o ≠ background s ∧ m_Region o ≠ ∅
      | None => True
      end
  | CallPushLabelObject (Some a) =>
      match heap s !! a with
      | Some o =>
          m_Region o ≠ ∅
          ∧ a ∉ (snd <$> container s)
          ∧ pushed_label (background s) (container s) ≠ None
      | None => True
      end
  | CallSetLine _ length _ => 0 < length
  | CallGraft (Some (SelfData imgData)) =>
      well_formed {| heap := heap s; this := imgData |}
  | _ => True
  end.

(** The calls that keep the objects disjoint: [AddPixel] and [SetLine] add
    positions that no object under another label has, the object given to
    [AddLabelObject] has a label that is not the background value and
    positions that no object under another label has, the object given to
    [PushLabelObject] is not in the container yet, gets a label, and has
    positions that no stored object has, and the source of [Graft] is a
    label map with disjoint objects. *)
Definition respects_owners (c : Call) (s : State) : Prop :=
  match c with
  | CallAddPixel idx label => ∀ k, k ≠ label → ¬ owns s k idx
  | CallSetLine idx length label =>
      ∀ k q, k ≠ label → q ∈ LabelObj.line idx length → ¬ owns s k q
  | CallAddLabelObject (Some a) =>
      match heap s !! a with
      | Some o =>
          m_Label o ≠ background s
          ∧ ∀ k q, k ≠ m_Label o → q ∈ m_Region o → ¬ owns s k q
      | None => True
      end
  | CallPushLabelObject (Some a) =>
      match heap s !! a with
      | Some o =>
          (a ∉ (snd <$> container s))
          ∧ pushed_label (background s) (container s) ≠ None
          ∧ ∀ k q, q ∈ m_Region o → ¬ owns s k q
      | None => True
      end
  | CallGraft (Some (SelfData imgData)) =>
      consistent {| heap := heap s; this := imgData |}
      ∧ I1 {| heap := heap s; this := imgData |}
      ∧ one_owner {| heap := heap s; this := imgData |}
  | _ => True
  end.
End Calls.

(** The label map of [unsigned char] labels that holds the labels 1 to 255,
    with the background value 0, in a program that has created one more
    object, at address 1, with the label 0 of a new object. *)
Definition new_object : LabelObject :=
  {| m_Label := 0; m_Region := {[ [0; 0] ]} |}.

Definition full_map : State :=
  run (LT := UnsignedChar)
    ((λ n, CallAddPixel [Z.of_nat n; 0] (Z.of_nat n)) <$> seq 1 255)
    (LabelMap_ctor {[ 1%positive := new_object ]}).

(** The number of entries of [c] behind the key [k]. *)
Definition after (k : Z) (c : list (Z * addr)) : nat :=
  length (filter (λ e : Z * addr, k < e.1) c).

(** A computation keeps a property of the state, however it ends. *)
Definition keeps {A} (P : State → Prop) (m : M A) : Prop :=
  ∀ s, P s → P (snd (m s)).

(** A computation does not run out of fuel and keeps a property. *)
Definition runs {A} (P : State → Prop) (m : M A) : Prop :=
  ∀ s, P s → fst (m s) ≠ OutOfFuel ∧ P (snd (m s)).

(** The container is sorted and has, behind any key, no more entries than
    [c0] has. *)
Definition within (c0 : LabelObjectContainerType) (s : State) : Prop :=
  Container.sorted (container s)
  ∧ ∀ k, (after k (container s) ≤ after k c0)%nat.


(** * Properties *)

(** ** The container *)

Section ContainerFacts.
Import Container.
Implicit Types (c : LabelObjectContainerType) (k : Z) (a : addr).

Lemma find_Some_elem_of c k a : find k c = Some a → (k, a) ∈ c.
Proof.
  induction c as [|[k' a'] c IH]; simpl; [done|].
  case_decide; intros ?; simplify_eq.
  - left.
  - right. auto.
Qed.

Lemma find_None_keys c k : find k c = None ↔ k ∉ keys c.
Proof.
  unfold keys. induction c as [|[k' a'] c IH]; simpl.
  - split; [intros _; apply not_elem_of_nil | done].
  - rewrite not_elem_of_cons. case_decide; naive_solver.
Qed.

Lemma elem_of_keys c k : k ∈ keys c ↔ ∃ a, (k, a) ∈ c.
Proof.
  unfold keys. rewrite list_elem_of_fmap. split.
  - intros [[k' a] [-> ?]]. eauto.
  - intros [a ?]. by exists (k, a).
Qed.

Lemma find_is_Some_keys c k : is_Some (find k c) ↔ k ∈ keys c.
Proof.
  rewrite <- not_eq_None_Some, find_None_keys.
  split; [apply dec_stable | tauto].
Qed.

Lemma sorted_cons_inv k a c :
  sorted ((k, a) :: c) → sorted c ∧ ∀ k', k' ∈ keys c → k < k'.
Proof.
  unfold sorted, keys. simpl. intros H.
  apply StronglySorted_inv in H as [? Hall].
  split; [done|]. intros k' ?. by eapply Forall_forall in Hall.
Qed.

Lemma sorted_cons k a c :
  sorted c → (∀ k', k' ∈ keys c → k < k') → sorted ((k, a) :: c).
Proof.
  unfold sorted, keys. simpl. intros ? Hlt.
  constructor; [done|]. by apply Forall_forall.
Qed.

Lemma sorted_nil : sorted [].
Proof. constructor. Qed.

(** In a sorted container a key has one entry, the one [find] returns. *)
Lemma elem_of_find c k a : sorted c → (k, a) ∈ c → find k c = Some a.
Proof.
  induction c as [|[k' a'] c IH]; simpl; intros Hs Hin.
  - by apply elem_of_nil in Hin.
  - apply sorted_cons_inv in Hs as [Hs Hlt].
    apply elem_of_cons in Hin as [?|Hin]; simplify_eq.
    + by rewrite decide_True.
    + rewrite decide_False; [auto|].
      intros ->. assert (k < k); [|lia].
      apply Hlt, elem_of_keys. eauto.
Qed.

Lemma elem_of_find_iff c k a : sorted c → (k, a) ∈ c ↔ find k c = Some a.
Proof. split; [by apply elem_of_find | apply find_Some_elem_of]. Qed.

(** *** [c[k] = a] *)

Lemma find_assign_eq c k a : find k (assign k a c) = Some a.
Proof.
  induction c as [|[k' a'] c IH]; simpl.
  - by rewrite decide_True.
  - repeat case_decide; simpl; rewrite ?decide_True by done; try done.
    by rewrite decide_False by done.
Qed.

Lemma find_assign_ne c k a k' : k ≠ k' → find k' (assign k a c) = find k' c.
Proof.
  intros Hne. induction c as [|[k1 a1] c IH]; simpl.
  - by rewrite decide_False.
  - destruct (decide (k < k1)); [|destruct (decide (k = k1))]; simpl.
    + by rewrite (decide_False (P := k = k')).
    + subst k1. by rewrite !(decide_False (P := k = k')).
    + by rewrite IH.
Qed.

Lemma keys_assign c k a k' : k' ∈ keys (assign k a c) ↔ k' = k ∨ k' ∈ keys c.
Proof.
  rewrite <- !find_is_Some_keys. destruct (decide (k = k')) as [->|].
  - rewrite find_assign_eq. naive_solver.
  - rewrite find_assign_ne by done. naive_solver.
Qed.

Lemma sorted_assign c k a : sorted c → sorted (assign k a c).
Proof.
  induction c as [|[k1 a1] c IH]; simpl; intros Hs.
  - apply sorted_cons; [done|]. intros k' Hk'. by apply elem_of_nil in Hk'.
  - pose proof Hs as Hs0. apply sorted_cons_inv in Hs as [Hs Hlt].
    repeat case_decide; simplify_eq.
    + apply sorted_cons; [done|]. intros k' Hk'.
      unfold keys in Hk'. simpl in Hk'. apply elem_of_cons in Hk' as [->|Hk'].
      * done.
      * specialize (Hlt _ Hk'). lia.
    + by apply sorted_cons.
    + apply sorted_cons; [auto|]. intros k' [->|Hk']%keys_assign.
      * lia.
      * auto.
Qed.

Lemma elem_of_assign c k a k' a' :
  sorted c → (k', a') ∈ assign k a c ↔ (k' = k ∧ a' = a) ∨ (k' ≠ k ∧ (k', a') ∈ c).
Proof.
  intros Hs. rewrite !elem_of_find_iff by auto using sorted_assign.
  destruct (decide (k = k')) as [->|].
  - rewrite find_assign_eq. naive_solver.
  - rewrite find_assign_ne by done. naive_solver.
Qed.

(** *** [c.erase(k)] *)

Lemma elem_of_erase c k k' a' : (k', a') ∈ erase k c ↔ k' ≠ k ∧ (k', a') ∈ c.
Proof.
  induction c as [|[k1 a1] c IH]; simpl.
  - rewrite elem_of_nil. tauto.
  - case_decide; rewrite ?elem_of_cons, IH; naive_solver.
Qed.

Lemma keys_erase c k k' : k' ∈ keys (erase k c) ↔ k' ≠ k ∧ k' ∈ keys c.
Proof.
  rewrite !elem_of_keys. setoid_rewrite elem_of_erase. naive_solver.
Qed.

Lemma find_erase_eq c k : find k (erase k c) = None.
Proof. apply find_None_keys. rewrite keys_erase. tauto. Qed.

Lemma find_erase_ne c k k' : k ≠ k' → find k' (erase k c) = find k' c.
Proof.
  intros Hne. induction c as [|[k1 a1] c IH]; simpl; [done|].
  repeat (case_decide; simpl); simplify_eq; done.
Qed.

Lemma erase_absent c k : k ∉ keys c → erase k c = c.
Proof.
  unfold keys. induction c as [|[k1 a1] c IH]; simpl; [done|].
  rewrite not_elem_of_cons. intros [? ?].
  rewrite decide_False by done. f_equal. auto.
Qed.

Lemma sorted_erase c k : sorted c → sorted (erase k c).
Proof.
  induction c as [|[k1 a1] c IH]; simpl; intros Hs; [done|].
  apply sorted_cons_inv in Hs as [Hs Hlt].
  case_decide; [auto|].
  apply sorted_cons; [auto|]. intros k' [_ ?]%keys_erase. auto.
Qed.

Lemma erase_app c1 c2 k : erase k (c1 ++ c2) = erase k c1 ++ erase k c2.
Proof.
  induction c1 as [|[k1 a1] c1 IH]; simpl; [done|].
  case_decide; simpl; by rewrite IH.
Qed.

Lemma keys_app c1 c2 : keys (c1 ++ c2) = keys c1 ++ keys c2.
Proof. unfold keys. apply fmap_app. Qed.

Lemma sorted_app_inv c1 c2 :
  sorted (c1 ++ c2) →
  sorted c1 ∧ sorted c2 ∧ ∀ k1 k2, k1 ∈ keys c1 → k2 ∈ keys c2 → k1 < k2.
Proof.
  induction c1 as [|[k a] c1 IH]; simpl; intros Hs.
  - split_and!; [apply sorted_nil | done |].
    intros k1 k2 Hk1. by apply elem_of_nil in Hk1.
  - apply sorted_cons_inv in Hs as [Hs Hlt].
    destruct (IH Hs) as (Hs1 & Hs2 & Hlt12). split_and!; [|done|].
    + apply sorted_cons; [done|]. intros k' Hk'. apply Hlt.
      rewrite keys_app, elem_of_app. auto.
    + intros k1 k2 Hk1 Hk2. unfold keys in Hk1. simpl in Hk1.
      apply elem_of_cons in Hk1 as [->|Hk1].
      * apply Hlt. rewrite keys_app, elem_of_app. auto.
      * by apply Hlt12.
Qed.

(** *** Iterators *)

Lemma find_app_r c1 c2 k : k ∉ keys c1 → find k (c1 ++ c2) = find k c2.
Proof.
  unfold keys. induction c1 as [|[k1 a1] c1 IH]; simpl; [done|].
  rewrite not_elem_of_cons. intros [? ?]. rewrite decide_False by done. auto.
Qed.

Lemma next_app_r c1 c2 k : k ∉ keys c1 → next k (c1 ++ c2) = next k c2.
Proof.
  unfold keys. induction c1 as [|[k1 a1] c1 IH]; simpl; [done|].
  rewrite not_elem_of_cons. intros [? ?]. rewrite decide_False by done. auto.
Qed.

Lemma next_head k a c : next k ((k, a) :: c) = begin c.
Proof. simpl. by rewrite decide_True. Qed.
End ContainerFacts.

(** ** The monad *)

Ltac munfold :=
  unfold mbind, M_bind, bind, mret, M_ret, ret, throw, undefined, out_of_fuel,
    when, get_container, get_background, set_container, set_background,
    Modified, load, store, update, second, New.

Ltac msimpl := repeat (progress (munfold; simpl)).

(** ** The fields of an updated state *)

Section Fields.
Implicit Types (s : State) (h : gmap addr LabelObject).

Lemma container_with_heap h s : container (with_heap h s) = container s.
Proof. done. Qed.
Lemma container_with_container c s : container (with_container c s) = c.
Proof. done. Qed.
Lemma container_with_background b s :
  container (with_background b s) = container s.
Proof. done. Qed.
Lemma container_modified s : container (modified s) = container s.
Proof. done. Qed.

Lemma background_with_heap h s : background (with_heap h s) = background s.
Proof. done. Qed.
Lemma background_with_container c s :
  background (with_container c s) = background s.
Proof. done. Qed.
Lemma background_with_background b s : background (with_background b s) = b.
Proof. done. Qed.
Lemma background_modified s : background (modified s) = background s.
Proof. done. Qed.

Lemma heap_with_heap h s : heap (with_heap h s) = h.
Proof. done. Qed.
Lemma heap_with_container c s : heap (with_container c s) = heap s.
Proof. done. Qed.
Lemma heap_with_background b s : heap (with_background b s) = heap s.
Proof. done. Qed.
Lemma heap_modified s : heap (modified s) = heap s.
Proof. done. Qed.
End Fields.

Create Rewrite HintDb state.
#[global] Hint Rewrite container_with_heap container_with_container
  container_with_background container_modified background_with_heap
  background_with_container background_with_background background_modified
  heap_with_heap heap_with_container heap_with_background heap_modified
  : state.

Ltac fields := unfold stored, contains in *; autorewrite with state in *.

(** ** The label map as a map from labels to objects *)

Section View.
Implicit Types (s : State) (k : Z) (a : addr) (o : LabelObject).

Lemma view_Some s k o :
  view s k = Some o ↔
  ∃ a, Container.find k (container s) = Some a ∧ heap s !! a = Some o.
Proof.
  unfold view. destruct (Container.find k (container s)) as [a|]; simpl.
  - split; [eauto|]. by intros (? & ? & ?); simplify_eq.
  - split; [done|]. by intros (? & ? & ?).
Qed.

Lemma view_stored s k o :
  Container.sorted (container s) →
  view s k = Some o ↔ ∃ a, stored s k a ∧ heap s !! a = Some o.
Proof.
  intros Hs. rewrite view_Some. unfold stored.
  by setoid_rewrite (elem_of_find_iff _ _ _ Hs).
Qed.

Lemma view_None s k :
  valid_pointers s →
  view s k = None ↔ k ∉ Container.keys (container s).
Proof.
  intros Hv. rewrite <- find_None_keys. unfold view.
  destruct (Container.find k (container s)) as [a|] eqn:Hf; simpl; [|done].
  apply find_Some_elem_of, Hv in Hf as [o Ho]. by rewrite Ho.
Qed.

Lemma owns_view s k idx :
  Container.sorted (container s) →
  owns s k idx ↔ ∃ o, view s k = Some o ∧ idx ∈ m_Region o.
Proof.
  intros Hs. unfold owns, contains. setoid_rewrite (view_stored _ _ _ Hs).
  naive_solver.
Qed.

Lemma I1_view s : valid_pointers s → I1 s ↔ view s (background s) = None.
Proof. intros Hv. by rewrite view_None. Qed.

Lemma I4_view s :
  Container.sorted (container s) →
  I4 s ↔ ∀ k o, view s k = Some o → m_Region o ≠ ∅.
Proof.
  intros Hs. unfold I4. setoid_rewrite (view_stored _ _ _ Hs). naive_solver.
Qed.

Lemma I2_view s k o : consistent s → view s k = Some o → m_Label o = k.
Proof.
  intros [Hs _ HI2] (a & ? & ?)%view_stored; [|done]. eauto.
Qed.

(** Under I2 two keys do not share an object. *)
Lemma consistent_inj s k1 k2 a :
  consistent s → stored s k1 a → stored s k2 a → k1 = k2.
Proof.
  intros [_ Hv HI2] H1 H2. destruct (Hv _ _ H1) as [o Ho].
  by rewrite <- (HI2 _ _ _ H1 Ho), <- (HI2 _ _ _ H2 Ho).
Qed.

(** *** The effect of the updates of the state *)

Lemma consistent_modified s : consistent (modified s) ↔ consistent s.
Proof. split; intros [? ? ?]; by constructor. Qed.

Lemma view_modified s k : view (modified s) k = view s k.
Proof. done. Qed.

(** An object of the container is replaced by one of the same label. *)
Lemma store_stored s k a o' :
  consistent s → stored s k a → m_Label o' = k →
  consistent (with_heap (<[a := o']> (heap s)) s)
  ∧ ∀ k', view (with_heap (<[a := o']> (heap s)) s) k'
          = if decide (k' = k) then Some o' else view s k'.
Proof.
  intros Hc Hst Hl. pose proof Hc as [Hs Hv HI2]. split.
  - constructor; [done|..].
    + intros k1 a1 Hst1. fields. destruct (decide (a1 = a)) as [->|].
      * rewrite lookup_insert_eq. eauto.
      * rewrite lookup_insert_ne by done. by eapply Hv.
    + intros k1 a1 o1 Hst1. fields. destruct (decide (a1 = a)) as [->|].
      * rewrite lookup_insert_eq. intros ?; simplify_eq.
        eauto using consistent_inj.
      * rewrite lookup_insert_ne by done. by apply HI2.
  - intros k'. unfold view. fields.
    apply (elem_of_find _ _ _ Hs) in Hst as Hf. case_decide as Hk.
    + subst k'. rewrite Hf. simpl. apply lookup_insert_eq.
    + destruct (Container.find k' (container s)) as [a'|] eqn:Hf'; [|done].
      simpl. rewrite lookup_insert_ne; [done|]. intros <-.
      apply find_Some_elem_of in Hf'. eauto using consistent_inj.
Qed.

(** An object that is not in the container is written. *)
Lemma store_unstored s a o' :
  consistent s → (∀ k, ¬ stored s k a) →
  consistent (with_heap (<[a := o']> (heap s)) s)
  ∧ ∀ k', view (with_heap (<[a := o']> (heap s)) s) k'
          = view s k'.
Proof.
  intros [Hs Hv HI2] Hn.
  assert (∀ k1 a1, stored s k1 a1 → <[a:=o']> (heap s) !! a1 = heap s !! a1)
    as Hframe.
  { intros k1 a1 Hst1. rewrite lookup_insert_ne; [done|].
    intros ->. by eapply Hn. }
  split.
  - constructor; [done|..].
    + intros k1 a1 Hst1. fields. rewrite (Hframe _ _ Hst1). by eapply Hv.
    + intros k1 a1 o1 Hst1. fields. rewrite (Hframe _ _ Hst1). by apply HI2.
  - intros k'. unfold view. fields.
    destruct (Container.find k' (container s)) as [a'|] eqn:Hf'; [|done].
    simpl. eapply Hframe, find_Some_elem_of, Hf'.
Qed.

Lemma fresh_unstored s k :
  valid_pointers s → ¬ stored s k (fresh (dom (heap s))).
Proof.
  intros Hv Hst. apply Hv in Hst. apply elem_of_dom in Hst.
  by apply is_fresh in Hst.
Qed.

Lemma erase_stored s k :
  consistent s →
  consistent (with_container (Container.erase k (container s)) s)
  ∧ ∀ k', view (with_container (Container.erase k (container s)) s) k'
          = if decide (k' = k) then None else view s k'.
Proof.
  intros [Hs Hv HI2]. split.
  - constructor.
    + by apply sorted_erase.
    + intros k1 a1 [_ ?]%elem_of_erase. by eapply Hv.
    + intros k1 a1 o1 [_ ?]%elem_of_erase. by apply HI2.
  - intros k'. unfold view. fields. case_decide.
    + subst k'. by rewrite find_erase_eq.
    + by rewrite find_erase_ne.
Qed.

Lemma assign_stored s k a o :
  consistent s → heap s !! a = Some o → m_Label o = k →
  consistent (with_container (Container.assign k a (container s)) s)
  ∧ ∀ k', view (with_container (Container.assign k a (container s)) s) k'
          = if decide (k' = k) then Some o else view s k'.
Proof.
  intros [Hs Hv HI2] Ho Hl. split.
  - constructor.
    + by apply sorted_assign.
    + intros k1 a1 [[-> ->]|[_ ?]]%elem_of_assign; [eauto| |done].
      by eapply Hv.
    + intros k1 a1 o1 [[-> ->]|[_ ?]]%elem_of_assign; [| |done].
      * simpl. intros ?. by simplify_eq.
      * by apply HI2.
  - intros k'. unfold view. fields. case_decide.
    + subst k'. by rewrite find_assign_eq.
    + by rewrite find_assign_ne.
Qed.
End View.

(** ** The pixel operations on a consistent label map *)

Section Pixels.
Implicit Types (s : State) (k : Z) (a : addr) (o : LabelObject).

Lemma AddPixel_it_background s it idx :
  AddPixel_it it idx (background s) s = (Ret tt, s).
Proof.
  unfold AddPixel_it, background. msimpl. by rewrite decide_True.
Qed.

Lemma AddPixel_it_Some_spec s k o idx label :
  consistent s → view s k = Some o → label ≠ background s →
  ∃ s', AddPixel_it (Some k) idx label s = (Ret tt, s')
    ∧ consistent s'
    ∧ background s' = background s
    ∧ container s' = container s
    ∧ ∀ k', view s' k'
            = if decide (k' = k) then Some (LabelObj.AddIndex idx o)
              else view s k'.
Proof.
  intros Hc Hview Hbg. pose proof (I2_view _ _ _ Hc Hview) as Hl.
  apply view_Some in Hview as (a & Hf & Ho).
  eexists. split.
  { unfold AddPixel_it, background, container in *. msimpl.
    rewrite decide_False by done. rewrite Hf. msimpl. rewrite Ho. msimpl.
    reflexivity. }
  apply find_Some_elem_of in Hf.
  destruct (store_stored s k a (LabelObj.AddIndex idx o) Hc Hf Hl) as [Hc' Hv'].
  split_and!; [by apply consistent_modified|done|done|].
  intros k'. by rewrite view_modified.
Qed.

Lemma AddPixel_it_None_spec s idx label :
  consistent s → label ≠ background s →
  ∃ s', AddPixel_it None idx label s = (Ret tt, s')
    ∧ consistent s'
    ∧ background s' = background s
    ∧ Container.keys (container s')
      = Container.keys (Container.assign label (fresh (dom (heap s))) (container s))
    ∧ ∀ k', view s' k'
            = if decide (k' = label)
              then Some (LabelObj.AddIndex idx (LabelObj.SetLabel label LabelObj.New))
              else view s k'.
Proof.
  intros Hc Hbg. set (a := fresh (dom (heap s))).
  set (o := LabelObj.AddIndex idx (LabelObj.SetLabel label LabelObj.New)).
  exists (modified (with_container (Container.assign label a (container s))
                      (with_heap (<[a := o]> (heap s)) s))).
  split.
  { unfold AddPixel_it, AddLabelObject, background, container in *. msimpl.
    rewrite decide_False by done. msimpl.
    rewrite lookup_insert_eq. msimpl. rewrite lookup_insert_eq. msimpl.
    rewrite lookup_insert_eq. msimpl.
    by rewrite !insert_insert_eq. }
  destruct (store_unstored s a o Hc) as [Hc1 Hv1].
  { intros k. apply fresh_unstored, Hc. }
  destruct (assign_stored (with_heap (<[a:=o]> (heap s)) s) label a o Hc1)
    as [Hc2 Hv2]; [apply lookup_insert_eq|done|].
  split_and!; [by apply consistent_modified|done|done|].
  intros k'. rewrite view_modified, Hv2. by rewrite Hv1.
Qed.

Lemma RemovePixel_it_None s idx emit : RemovePixel_it None idx emit s = (Ret tt, s).
Proof. done. Qed.

Lemma I1_erase s k :
  I1 s → I1 (with_container (Container.erase k (container s)) s).
Proof.
  unfold I1. fields. rewrite keys_erase. tauto.
Qed.

Lemma RemovePixel_it_Some_spec s k o idx emit :
  consistent s → I1 s → view s k = Some o →
  ∃ s', RemovePixel_it (Some k) idx emit s = (Ret tt, s')
    ∧ consistent s'
    ∧ background s' = background s
    ∧ (container s' = container s
       ∨ container s' = Container.erase k (container s))
    ∧ ∀ k', view s' k' = if decide (k' = k) then evict idx o else view s k'.
Proof.
  intros Hc HI1 Hview. pose proof (I2_view _ _ _ Hc Hview) as Hl.
  apply view_Some in Hview as (a & Hf & Ho).
  assert (k ≠ background s) as Hbg.
  { intros ->. apply HI1, find_is_Some_keys. eauto. }
  pose proof (find_Some_elem_of _ _ _ Hf) as Hst.
  set (o' := (LabelObj.RemoveIndex idx o).2).
  destruct (store_stored s k a o' Hc Hst Hl) as [Hc1 Hv1]. subst k.
  unfold RemovePixel_it, evict. msimpl. fold (container s).
  rewrite Hf. msimpl. rewrite Ho. msimpl.
  destruct (decide (idx ∈ m_Region o)) as [Hin|Hin].
  - rewrite (bool_decide_eq_true_2 _ Hin).
    unfold LabelObj.Empty. simpl. case_bool_decide as Hempty.
    + (* the object becomes empty: its label is erased *)
      unfold RemoveLabelObject, RemoveLabel. msimpl.
      rewrite lookup_insert_eq. msimpl.
      rewrite decide_False by (fold (background s); congruence).
      msimpl. fold (container s).
      destruct (erase_stored _ (m_Label o) Hc1) as [Hc2 Hv2]. fields.
      destruct emit; msimpl; eexists; (split; [reflexivity|]);
        rewrite ?consistent_modified; split_and!; try done; try (by right);
        intros k'; rewrite ?view_modified, Hv2, Hv1;
        by destruct (decide (k' = m_Label o)).
    + destruct emit; msimpl; eexists; (split; [reflexivity|]);
        rewrite ?consistent_modified; split_and!; try done; try (by left);
        intros k'; rewrite ?view_modified, Hv1;
        by destruct (decide (k' = m_Label o)).
  - rewrite (bool_decide_eq_false_2 _ Hin).
    eexists; (split; [reflexivity|]).
    split_and!; [done|done|by left|].
    intros k'. rewrite Hv1. destruct (decide (k' = m_Label o)); [|done].
    f_equal. destruct o as [l r]. subst o'. simpl. f_equal. set_solver.
Qed.
End Pixels.

(** ** SetPixel on a consistent label map *)

Section SetPixel.
Implicit Types (s : State) (k : Z) (a : addr) (o : LabelObject).

Lemma bind_Ret {A B} (m : M A) (f : A → M B) s x s' :
  m s = (Ret x, s') → (m ≫= f) s = f x s'.
Proof. unfold mbind, M_bind, bind. by intros ->. Qed.

Lemma second_find s k a :
  Container.find k (container s) = Some a → second k s = (Ret a, s).
Proof. unfold second, container. msimpl. by intros ->. Qed.

Lemma SetPixel_loop_end fuel idx iLabel newLabel s :
  SetPixel_loop fuel None idx iLabel newLabel s = (Ret newLabel, s).
Proof. by destruct fuel. Qed.

Lemma SetPixel_loop_step fuel k idx iLabel newLabel :
  SetPixel_loop (S fuel) (Some k) idx iLabel newLabel
  = (_ ← second k;
     c ← get_container;
     if decide (k ≠ iLabel) then
       bg ← get_background;
       RemovePixel_it (Some k) idx (bool_decide (iLabel = bg));;
       SetPixel_loop fuel (Container.next k c) idx iLabel newLabel
     else
       AddPixel_it (Some k) idx iLabel;;
       SetPixel_loop fuel (Container.next k c) idx iLabel false).
Proof. done. Qed.

Lemma keys_cons k a c k' :
  k' ∈ Container.keys ((k, a) :: c) ↔ k' = k ∨ k' ∈ Container.keys c.
Proof. unfold Container.keys. simpl. apply elem_of_cons. Qed.

(** The state after the loop, when the iterator is at the head of [rest]:
    the entries before it are left as they are. *)
Lemma SetPixel_loop_spec idx iLabel rest :
  ∀ pre s newLabel fuel,
    consistent s → I1 s → container s = pre ++ rest →
    (length rest ≤ fuel)%nat →
    ∃ s', SetPixel_loop fuel (Container.begin rest) idx iLabel newLabel s
          = (Ret (newLabel && bool_decide (iLabel ∉ Container.keys rest)), s')
      ∧ consistent s' ∧ I1 s'
      ∧ background s' = background s
      ∧ ∀ k', view s' k'
              = if decide (k' ∈ Container.keys rest) then
                  if decide (k' = iLabel)
                  then LabelObj.AddIndex idx <$> view s k'
                  else view s k' ≫= evict idx
                else view s k'.
Proof.
  induction rest as [|[k a] rest IH]; intros pre s newLabel fuel Hc HI1 Hcont Hfuel.
  { exists s. rewrite SetPixel_loop_end. split_and!; try done.
    rewrite bool_decide_eq_true_2; [by rewrite andb_true_r|].
    apply not_elem_of_nil. }
  destruct fuel as [|fuel]; [simpl in Hfuel; lia|]. simpl in Hfuel.
  pose proof (consistent_sorted _ Hc) as Hs. rewrite Hcont in Hs.
  apply sorted_app_inv in Hs as (Hs1 & Hs2 & Hlt).
  apply sorted_cons_inv in Hs2 as [Hs2 Hlt2].
  assert (k ∉ Container.keys pre) as Hpre.
  { intros Hin. assert (k < k); [|lia]. apply Hlt; [done|].
    apply keys_cons. by left. }
  assert (k ∉ Container.keys rest) as Hrest.
  { intros Hin. specialize (Hlt2 _ Hin). lia. }
  assert (Container.find k (container s) = Some a) as Hf.
  { rewrite Hcont, find_app_r by done. simpl. by rewrite decide_True. }
  destruct (consistent_valid _ Hc k a) as [o Ho].
  { by apply find_Some_elem_of. }
  assert (view s k = Some o) as Hview by (apply view_Some; eauto).
  assert (Container.next k (container s) = Container.begin rest) as Hnext.
  { by rewrite Hcont, next_app_r, next_head. }
  change (Container.begin ((k, a) :: rest)) with (Some k).
  rewrite SetPixel_loop_step.
  erewrite bind_Ret by (by apply second_find).
  erewrite bind_Ret by reflexivity. fold (container s). rewrite Hnext.
  destruct (decide (k ≠ iLabel)) as [Hne|Heq%dec_stable].
  - (* another label: the pixel is removed from its object *)
    erewrite bind_Ret by reflexivity.
    destruct (RemovePixel_it_Some_spec s k o idx
                (bool_decide (iLabel = m_BackgroundValue (this s))) Hc HI1 Hview)
      as (s1 & Hrun & Hc1 & Hbg1 & Hcont1 & Hview1).
    erewrite bind_Ret by exact Hrun.
    assert (I1 s1) as HI11.
    { apply I1_view; [apply Hc1|]. rewrite Hbg1, Hview1.
      rewrite decide_False; [by apply I1_view; [apply Hc|]|].
      intros <-. apply HI1, find_is_Some_keys. eauto. }
    assert (∃ pre1, container s1 = pre1 ++ rest) as [pre1 Hcont1'].
    { destruct Hcont1 as [->| ->]; rewrite Hcont.
      - exists (pre ++ [(k, a)]). by rewrite <- app_assoc.
      - exists pre. rewrite erase_app. simpl. rewrite decide_True by done.
        by rewrite !erase_absent. }
    destruct (IH pre1 s1 newLabel fuel Hc1 HI11 Hcont1' ltac:(lia))
      as (s' & Hloop & Hc' & HI1' & Hbg' & Hview').
    exists s'. split_and!; [|done|done|congruence|].
    + rewrite Hloop. do 3 f_equal. apply bool_decide_ext.
      rewrite keys_cons. naive_solver.
    + intros k'. rewrite Hview', !Hview1.
      destruct (decide (k' ∈ Container.keys ((k, a) :: rest))) as [Hin|Hin];
        rewrite keys_cons in Hin;
        destruct (decide (k' ∈ Container.keys rest));
        destruct (decide (k' = k)) as [->|];
        destruct (decide (k = iLabel)); try done; try tauto.
      by rewrite Hview.
  - (* the label itself: the pixel is added to its object *)
    subst k.
    assert (iLabel ≠ background s) as Hbg.
    { intros ->. apply HI1, find_is_Some_keys. eauto. }
    destruct (AddPixel_it_Some_spec s iLabel o idx iLabel Hc Hview Hbg)
      as (s1 & Hrun & Hc1 & Hbg1 & Hcont1 & Hview1).
    erewrite bind_Ret by exact Hrun.
    assert (I1 s1) as HI11.
    { unfold I1. by rewrite Hbg1, Hcont1. }
    assert (container s1 = (pre ++ [(iLabel, a)]) ++ rest) as Hcont1'.
    { by rewrite Hcont1, Hcont, <- app_assoc. }
    destruct (IH _ s1 false fuel Hc1 HI11 Hcont1' ltac:(lia))
      as (s' & Hloop & Hc' & HI1' & Hbg' & Hview').
    exists s'. split_and!; [|done|done|congruence|].
    + rewrite Hloop. do 2 f_equal.
      rewrite (bool_decide_eq_false_2 (_ ∉ Container.keys (_ :: _)));
        [by rewrite andb_false_r|].
      intros Hn. apply Hn, keys_cons. by left.
    + intros k'. rewrite Hview', !Hview1.
      destruct (decide (k' ∈ Container.keys ((iLabel, a) :: rest))) as [Hin|Hin];
        rewrite keys_cons in Hin;
        destruct (decide (k' ∈ Container.keys rest));
        destruct (decide (k' = iLabel)) as [->|]; try done; try tauto.
      by rewrite Hview.
Qed.
End SetPixel.

(** ** The public pixel operations *)

Section PublicPixels.
Implicit Types (s : State) (k : Z) (a : addr) (o : LabelObject).

Lemma evict_Some idx o o' :
  evict idx o = Some o' →
  m_Label o' = m_Label o
  ∧ m_Region o' = m_Region o ∖ {[ idx ]}
  ∧ (m_Region o ≠ ∅ → m_Region o' ≠ ∅).
Proof.
  unfold evict, LabelObj.Empty. simpl.
  case_bool_decide as Hin; [case_bool_decide as Hempty|];
    intros ?; simplify_eq; simpl; [done|].
  split_and!; [done|set_solver|done].
Qed.

Lemma evict_None idx o : evict idx o = None ↔ m_Region o = {[ idx ]}.
Proof.
  unfold evict, LabelObj.Empty. simpl.
  case_bool_decide as Hin; [case_bool_decide as Hempty|]; simpl.
  - split; [intros _|done]. apply set_eq. intros x.
    destruct (decide (x = idx)) as [->|]; set_solver.
  - split; [done|]. intros Heq. rewrite Heq in Hempty. set_solver.
  - split; [done|]. intros Heq. rewrite Heq in Hin. set_solver.
Qed.

Lemma find_it_Some c k a :
  Container.find k c = Some a → Container.find_it k c = Some k.
Proof. unfold Container.find_it. by intros ->. Qed.

Lemma find_it_None c k :
  Container.find k c = None → Container.find_it k c = None.
Proof. unfold Container.find_it. by intros ->. Qed.

Lemma view_find_None s k :
  valid_pointers s → view s k = None → Container.find k (container s) = None.
Proof. intros Hv Hn. by apply find_None_keys, view_None. Qed.

Lemma AddPixel_background s idx : AddPixel idx (background s) s = (Ret tt, s).
Proof. unfold AddPixel, background. msimpl. by rewrite decide_True. Qed.

Lemma AddPixel_spec s idx label :
  consistent s → label ≠ background s →
  ∃ s', AddPixel idx label s = (Ret tt, s')
    ∧ consistent s'
    ∧ background s' = background s
    ∧ (∀ k', k' ∈ Container.keys (container s')
             ↔ k' = label ∨ k' ∈ Container.keys (container s))
    ∧ ∀ k', view s' k'
            = if decide (k' = label)
              then Some (LabelObj.AddIndex idx
                           (default (fresh_object label) (view s label)))
              else view s k'.
Proof.
  intros Hc Hbg. unfold AddPixel.
  erewrite bind_Ret by reflexivity. fold (background s).
  rewrite decide_False by done.
  erewrite bind_Ret by reflexivity. fold (container s).
  destruct (view s label) as [o|] eqn:Hview.
  - pose proof Hview as (a & Hf & Ho)%view_Some.
    rewrite (find_it_Some _ _ _ Hf).
    destruct (AddPixel_it_Some_spec s label o idx label Hc Hview Hbg)
      as (s' & Hrun & Hc' & Hbg' & Hcont' & Hview').
    exists s'. split_and!; try done.
    intros k'. rewrite Hcont'. split; [auto|]. intros [->|?]; [|done].
    apply find_is_Some_keys. eauto.
  - rewrite find_it_None by (apply view_find_None; [apply Hc|done]).
    destruct (AddPixel_it_None_spec s idx label Hc Hbg)
      as (s' & Hrun & Hc' & Hbg' & Hkeys' & Hview').
    exists s'. split_and!; try done.
    intros k'. rewrite Hkeys'. apply keys_assign.
Qed.

Lemma RemovePixel_background s idx :
  RemovePixel idx (background s) s = (Ret tt, s).
Proof. unfold RemovePixel, background. msimpl. by rewrite decide_True. Qed.

Lemma RemovePixel_spec s idx label :
  consistent s → I1 s →
  ∃ s', RemovePixel idx label s = (Ret tt, s')
    ∧ consistent s' ∧ I1 s'
    ∧ background s' = background s
    ∧ ∀ k', view s' k'
            = if decide (k' = label) then view s k' ≫= evict idx
              else view s k'.
Proof.
  intros Hc HI1. destruct (decide (label = background s)) as [->|Hbg].
  { exists s. rewrite RemovePixel_background. split_and!; try done.
    intros k'. case_decide; [subst k'|done].
    by rewrite (proj1 (I1_view s (consistent_valid _ Hc))). }
  unfold RemovePixel.
  erewrite bind_Ret by reflexivity. fold (background s).
  rewrite decide_False by done.
  erewrite bind_Ret by reflexivity. fold (container s).
  destruct (view s label) as [o|] eqn:Hview.
  - pose proof Hview as (a & Hf & Ho)%view_Some.
    rewrite (find_it_Some _ _ _ Hf).
    destruct (RemovePixel_it_Some_spec s label o idx true Hc HI1 Hview)
      as (s' & Hrun & Hc' & Hbg' & Hcont' & Hview').
    exists s'. split_and!; try done.
    + apply I1_view; [apply Hc'|]. rewrite Hbg', Hview'.
      rewrite decide_False by done. by apply I1_view; [apply Hc|].
    + intros k'. rewrite Hview'.
      destruct (decide (k' = label)) as [->|]; [by rewrite Hview|done].
  - rewrite find_it_None by (apply view_find_None; [apply Hc|done]).
    exists s. split_and!; try done.
    intros k'. destruct (decide (k' = label)) as [->|]; [by rewrite Hview|done].
Qed.

Lemma SetPixel_spec s idx iLabel :
  consistent s → I1 s →
  ∃ s', SetPixel idx iLabel s = (Ret tt, s')
    ∧ consistent s' ∧ I1 s'
    ∧ background s' = background s
    ∧ ∀ k', view s' k'
            = if decide (k' = iLabel) then
                if decide (iLabel = background s) then None
                else Some (LabelObj.AddIndex idx
                             (default (fresh_object iLabel) (view s iLabel)))
              else view s k' ≫= evict idx.
Proof.
  intros Hc HI1. unfold SetPixel.
  erewrite bind_Ret by reflexivity. fold (container s).
  destruct (SetPixel_loop_spec idx iLabel (container s) [] s true
              (length (container s)) Hc HI1 eq_refl ltac:(lia))
    as (s1 & Hloop & Hc1 & HI11 & Hbg1 & Hview1).
  erewrite bind_Ret by exact Hloop. simpl.
  pose proof (consistent_valid _ Hc) as Hv.
  assert (∀ k', k' ∉ Container.keys (container s) → view s k' = None) as Hnone.
  { intros k' ?. by apply view_None. }
  case_bool_decide as Hkey; simpl.
  - (* no object for the label yet *)
    assert (view s iLabel = None) as Hno by auto.
    destruct (decide (iLabel = background s)) as [Hbg|Hbg].
    + exists s1. split_and!; try done.
      * rewrite Hbg, <- Hbg1. apply AddPixel_it_background.
      * intros k'. rewrite Hview1.
        destruct (decide (k' ∈ Container.keys (container s))) as [|Hk'];
          destruct (decide (k' = iLabel)) as [->|]; try done.
        by rewrite (Hnone _ Hk').
    + destruct (AddPixel_it_None_spec s1 idx iLabel Hc1 ltac:(congruence))
        as (s' & Hrun & Hc' & Hbg' & Hkeys' & Hview').
      exists s'. split_and!; [done|done| |congruence|].
      * apply I1_view; [apply Hc'|]. rewrite Hbg', Hview'.
        rewrite decide_False by congruence. by apply I1_view; [apply Hc1|].
      * intros k'. rewrite Hview', Hview1, Hno.
        destruct (decide (k' ∈ Container.keys (container s))) as [|Hk'];
          destruct (decide (k' = iLabel)) as [->|]; try done.
        by rewrite (Hnone _ Hk').
  - assert (iLabel ≠ background s) as Hbg by (by intros ->).
    apply find_is_Some_keys in Hkey as Hf. destruct Hf as [a Hf].
    destruct (Hv iLabel a) as [o Ho]; [by apply find_Some_elem_of|].
    assert (view s iLabel = Some o) as Hview by (apply view_Some; eauto).
    exists s1. split_and!; try done.
    intros k'. rewrite Hview1.
    destruct (decide (k' ∈ Container.keys (container s))) as [|Hk'];
      destruct (decide (k' = iLabel)) as [->|]; try done.
    + by rewrite decide_False, Hview.
    + by rewrite (Hnone _ Hk').
Qed.
End PublicPixels.

(** ** The operations on the container *)

Section ContainerOperations.
Implicit Types (s : State) (k : Z) (a : addr) (o : LabelObject).

Lemma AddLabelObject_NULL s : AddLabelObject None s = (Throw NullArgument, s).
Proof. done. Qed.

Lemma AddLabelObject_dangling s a :
  heap s !! a = None → AddLabelObject (Some a) s = (Undefined, s).
Proof. intros Hn. unfold AddLabelObject. msimpl. by rewrite Hn. Qed.

Lemma AddLabelObject_Some s a o :
  heap s !! a = Some o →
  AddLabelObject (Some a) s
  = (Ret tt, modified (with_container
                         (Container.assign (m_Label o) a (container s)) s)).
Proof. intros Ho. unfold AddLabelObject. msimpl. by rewrite Ho. Qed.

Lemma RemoveLabel_background s :
  RemoveLabel (background s) s = (Throw BackgroundLabelAccess, s).
Proof. unfold RemoveLabel, background. msimpl. by rewrite decide_True. Qed.

Lemma RemoveLabel_eq s label :
  label ≠ background s →
  RemoveLabel label s
  = (Ret tt, modified (with_container
                         (Container.erase label (container s)) s)).
Proof.
  intros Hbg. unfold RemoveLabel, background in *. msimpl.
  by rewrite decide_False.
Qed.

Lemma ClearLabels_eq s :
  ClearLabels s
  = (Ret tt, match container s with
             | [] => s
             | _ :: _ => modified (with_container [] s)
             end).
Proof. unfold ClearLabels, container. msimpl. by destruct m_LabelObjectContainer. Qed.

Lemma Graft_Self s imgData :
  Graft (Some (SelfData imgData)) s
  = (Ret tt, with_background (m_BackgroundValue imgData)
               (with_container (m_LabelObjectContainer imgData) s)).
Proof. done. Qed.

Lemma Graft_Other s : Graft (Some OtherData) s = (Throw IncompatibleSourceType, s).
Proof. done. Qed.

Lemma Graft_NULL s : Graft None s = (Ret tt, s).
Proof. done. Qed.

Lemma SetLine_background s idx length :
  SetLine idx length (background s) s = (Ret tt, s).
Proof. unfold SetLine, background. msimpl. by rewrite decide_True. Qed.

Lemma SetLine_Some s idx length label a o :
  label ≠ background s →
  Container.find label (container s) = Some a → heap s !! a = Some o →
  SetLine idx length label s
  = (Ret tt, modified (with_heap
                         (<[a := LabelObj.AddLine idx length o]> (heap s)) s)).
Proof.
  intros Hbg Hf Ho. unfold SetLine, background, container in *. msimpl.
  rewrite decide_False by done. rewrite Hf. msimpl. by rewrite Ho.
Qed.

Lemma SetLine_dangling s idx length label a :
  label ≠ background s →
  Container.find label (container s) = Some a → heap s !! a = None →
  SetLine idx length label s = (Undefined, s).
Proof.
  intros Hbg Hf Ho. unfold SetLine, background, container in *. msimpl.
  rewrite decide_False by done. rewrite Hf. msimpl. by rewrite Ho.
Qed.

Lemma SetLine_None s idx length label :
  label ≠ background s →
  Container.find label (container s) = None →
  let a := fresh (dom (heap s)) in
  SetLine idx length label s
  = (Ret tt,
     modified (with_container (Container.assign label a (container s))
                 (with_heap
                    (<[a := LabelObj.AddLine idx length (fresh_object label)]>
                       (heap s)) s))).
Proof.
  intros Hbg Hf a. unfold SetLine, AddLabelObject, background, container in *.
  msimpl. rewrite decide_False by done. rewrite Hf. msimpl.
  rewrite lookup_insert_eq. msimpl. rewrite lookup_insert_eq. msimpl.
  rewrite lookup_insert_eq. msimpl.
  by rewrite !insert_insert_eq.
Qed.

Lemma AddPixel_it_None_eq s idx label :
  label ≠ background s →
  let a := fresh (dom (heap s)) in
  AddPixel_it None idx label s
  = (Ret tt,
     modified (with_container (Container.assign label a (container s))
                 (with_heap
                    (<[a := LabelObj.AddIndex idx (fresh_object label)]>
                       (heap s)) s))).
Proof.
  intros Hbg a. unfold AddPixel_it, AddLabelObject, background, container in *.
  msimpl. rewrite decide_False by done. msimpl.
  rewrite lookup_insert_eq. msimpl. rewrite lookup_insert_eq. msimpl.
  rewrite lookup_insert_eq. msimpl.
  by rewrite !insert_insert_eq.
Qed.
End ContainerOperations.

(** ** PushLabelObject *)

Section PushFacts.
Context {LT : NumericTraits}.
Implicit Types (s : State) (k : Z) (a : addr) (o : LabelObject).

Lemma modulus_ge_2 : 2 ≤ modulus.
Proof.
  unfold modulus. change 2 with (2 ^ 1) at 1.
  apply Z.pow_le_mono_r; lia.
Qed.

Lemma wrap_range x : 0 ≤ wrap x < modulus.
Proof. unfold wrap. apply Z.mod_pos_bound. pose proof modulus_ge_2. lia. Qed.

Lemma wrap_small x : 0 ≤ x < modulus → wrap x = x.
Proof. unfold wrap. apply Z.mod_small. Qed.

Lemma wrap_succ_ne x : wrap (x + 1) ≠ x.
Proof.
  pose proof modulus_ge_2. pose proof (wrap_range (x + 1)) as Hr.
  intros Heq. rewrite Heq in Hr.
  destruct (decide (x + 1 < modulus)).
  - rewrite wrap_small in Heq by lia. lia.
  - assert (x + 1 = modulus) as Hm by lia.
    unfold wrap in Heq. rewrite Hm, Z.mod_same in Heq by lia. lia.
Qed.

(** The loop of the search is the search, with its [SetLabel]. *)
Lemma PushLabelObject_loop_unused a o c :
  ∀ label s, heap s !! a = Some o →
    PushLabelObject_loop a label c s
    = let '(l, found) := unused_label (background s) label (Container.keys c) in
      (Ret l,
       if found then with_heap (<[a := LabelObj.SetLabel l o]> (heap s)) s
       else s).
Proof.
  induction c as [|[k a'] c IH]; intros label s Ho; [done|].
  simpl. erewrite bind_Ret by reflexivity. fold (background s).
  destruct (decide ((if decide (label = background s)
                     then wrap (label + 1) else label) ≠ k)).
  - msimpl. by rewrite Ho.
  - by apply IH.
Qed.

Lemma unused_label_not_background bg :
  ∀ ks label l, unused_label bg label ks = (l, true) → l ≠ bg.
Proof.
  induction ks as [|k ks IH]; intros label l; simpl; [done|].
  destruct (decide (_ ≠ k)).
  - intros [= <-]. case_decide; [subst label; apply wrap_succ_ne|done].
  - apply IH.
Qed.

Lemma pushed_label_not_background bg c l : pushed_label bg c = Some l → l ≠ bg.
Proof.
  unfold pushed_label. destruct c as [|[firstLabel a] c].
  { case_decide; intros [= <-]; lia. }
  repeat case_decide; try (intros [= <-]; tauto).
  destruct (unused_label _ _ _) as [l' found] eqn:Hu.
  destruct found; [|done]. intros [= <-].
  by eapply unused_label_not_background.
Qed.

(** [PushLabelObject] sets the label of the object, if it finds one, and
    adds the object, unless it throws. *)
Lemma PushLabelObject_cases s a o :
  heap s !! a = Some o →
  let s1 := match pushed_label (background s) (container s) with
            | Some l => with_heap (<[a := LabelObj.SetLabel l o]> (heap s)) s
            | None => s
            end in
  PushLabelObject (Some a) s = AddLabelObject (Some a) s1
  ∨ PushLabelObject (Some a) s = (Throw ContainerFull, s1).
Proof.
  intros Ho. unfold PushLabelObject, pushed_label.
  erewrite bind_Ret by reflexivity. erewrite bind_Ret by reflexivity.
  fold (container s) (background s).
  destruct (container s) as [|[firstLabel a'] c] eqn:Hcont.
  { left. case_decide; msimpl; by rewrite Ho. }
  repeat case_decide; try (left; msimpl; by rewrite Ho).
  unfold mbind, M_bind, bind.
  rewrite (PushLabelObject_loop_unused a o _ _ s Ho).
  destruct (unused_label _ _ _) as [l found]. simpl.
  case_decide; [right|left]; by destruct found.
Qed.
End PushFacts.

(** ** The bound on the iterations of SetPixel *)

Section Fuel.
Implicit Types (s : State) (k : Z) (a : addr) (c : LabelObjectContainerType).

(** The number of entries after the key [k]. *)
Lemma after_cons k k' a c :
  after k ((k', a) :: c) = if decide (k < k') then S (after k c) else after k c.
Proof.
  unfold after. destruct (decide (k < k')).
  - by rewrite filter_cons_True.
  - by rewrite filter_cons_False.
Qed.

Lemma after_le_length k c : (after k c ≤ length c)%nat.
Proof. apply length_filter. Qed.

Lemma after_all k c :
  (∀ k', k' ∈ Container.keys c → k < k') → after k c = length c.
Proof.
  induction c as [|[k1 a1] c IH]; intros Hlt; [done|].
  rewrite after_cons, decide_True by (apply Hlt, keys_cons; by left).
  simpl. f_equal. apply IH. intros k' Hk'. apply Hlt, keys_cons. by right.
Qed.

Lemma after_erase k l c : (after k (Container.erase l c) ≤ after k c)%nat.
Proof.
  induction c as [|[k1 a1] c IH]; simpl; [done|].
  rewrite after_cons. repeat case_decide; rewrite ?after_cons;
    repeat case_decide; lia.
Qed.

Lemma after_mono k k' c : k ≤ k' → (after k' c ≤ after k c)%nat.
Proof.
  intros Hle. induction c as [|[k1 a1] c IH]; [done|].
  rewrite !after_cons. repeat case_decide; lia.
Qed.

Lemma next_elem_of k k' c : Container.next k c = Some k' → k' ∈ Container.keys c.
Proof.
  induction c as [|[k1 a1] c IH]; intros Hnext; [done|].
  simpl in Hnext. apply keys_cons. right. case_decide; [|auto].
  destruct c as [|[k2 a2] c]; [done|]. injection Hnext as ->.
  apply keys_cons. by left.
Qed.

(** In a sorted container the next entry is nearer to the end. *)
Lemma after_next k k' c :
  Container.sorted c → Container.next k c = Some k' →
  (S (after k' c) ≤ after k c)%nat.
Proof.
  induction c as [|[k1 a1] c IH]; simpl; intros Hs Hnext; [done|].
  apply sorted_cons_inv in Hs as [Hs Hlt].
  destruct (decide (k1 = k)) as [->|Hne].
  - destruct c as [|[k2 a2] c]; [done|]. injection Hnext as ->.
    assert (k < k') by (apply Hlt, keys_cons; by left).
    pose proof (after_mono k k' c ltac:(lia)).
    rewrite !after_cons. repeat case_decide; lia.
  - specialize (IH Hs Hnext). rewrite !after_cons.
    assert (k1 < k') by (by eapply Hlt, next_elem_of).
    repeat case_decide; lia.
Qed.

Lemma runs_bind {A B} (P : State → Prop) (m : M A) (f : A → M B) :
  runs P m → (∀ x, runs P (f x)) → runs P (m ≫= f).
Proof.
  intros Hm Hf s HP. destruct (Hm s HP) as [Hfst Hsnd].
  unfold mbind, M_bind, bind. destruct (m s) as [[x| | |] s']; try done.
  by apply Hf.
Qed.

Lemma runs_unchanged {A} (P : State → Prop) (m : M A) :
  (∀ s, fst (m s) ≠ OutOfFuel ∧ snd (m s) = s) → runs P m.
Proof. intros Hm s HP. destruct (Hm s) as [? ->]. done. Qed.

Lemma runs_when (P : State → Prop) b (m : M unit) :
  runs P m → runs P (when b m).
Proof. intros Hm. destruct b; [done|]. by apply runs_unchanged. Qed.

Lemma within_fields c0 s s' :
  container s' = container s → within c0 s → within c0 s'.
Proof. unfold within. by intros ->. Qed.

Lemma within_refl s : Container.sorted (container s) → within (container s) s.
Proof. by split. Qed.

Lemma runs_within_load c0 a : runs (within c0) (load a).
Proof.
  apply runs_unchanged. intros s. unfold load. by destruct (heap s !! a).
Qed.

Lemma runs_within_store c0 a o : runs (within c0) (store a o).
Proof. intros s Hw. split; [done|]. by eapply within_fields, Hw. Qed.

Lemma runs_within_second c0 k : runs (within c0) (second k).
Proof.
  apply runs_unchanged. intros s. unfold second. msimpl.
  by destruct (Container.find _ _).
Qed.

Lemma runs_within_Modified c0 : runs (within c0) Modified.
Proof. intros s Hw. split; [done|]. by eapply within_fields, Hw. Qed.

Lemma runs_within_RemoveLabel c0 label : runs (within c0) (RemoveLabel label).
Proof.
  intros s [Hs Hle]. destruct (decide (label = background s)) as [->|Hbg].
  - by rewrite RemoveLabel_background.
  - rewrite RemoveLabel_eq by done. split; [done|]. split; simpl; fields.
    + by apply sorted_erase.
    + intros k. etrans; [apply after_erase|apply Hle].
Qed.

Lemma runs_within_RemovePixel_it c0 it idx emit :
  runs (within c0) (RemovePixel_it it idx emit).
Proof.
  destruct it as [k|]; [|by apply runs_unchanged].
  apply runs_bind; [apply runs_within_second|]. intros a.
  apply runs_bind; [apply runs_within_load|]. intros o.
  destruct (LabelObj.RemoveIndex idx o) as [removed o'].
  apply runs_bind; [apply runs_within_store|]. intros _.
  destruct removed; [|by apply runs_unchanged].
  apply runs_bind; [|intros _; apply runs_when, runs_within_Modified].
  apply runs_when. apply runs_bind; [apply runs_within_load|].
  intros o1. apply runs_within_RemoveLabel.
Qed.

Lemma runs_within_AddPixel_it_Some c0 k idx label :
  runs (within c0) (AddPixel_it (Some k) idx label).
Proof.
  apply runs_bind; [by apply runs_unchanged|]. intros bg.
  case_decide; [by apply runs_unchanged|].
  apply runs_bind; [apply runs_within_second|]. intros a.
  apply runs_bind; [|intros _; apply runs_within_Modified].
  apply runs_bind; [apply runs_within_load|]. intros o.
  apply runs_within_store.
Qed.

(** The loop of [SetPixel] does not run out of fuel when there is more fuel
    than entries behind the iterator. *)
Lemma SetPixel_loop_fuel idx iLabel fuel :
  ∀ it s newLabel,
    Container.sorted (container s) →
    (∀ k, it = Some k → (after k (container s) < fuel)%nat) →
    fst (SetPixel_loop fuel it idx iLabel newLabel s) ≠ OutOfFuel.
Proof.
  induction fuel as [|fuel IH]; intros [k|] s newLabel Hs Hfuel;
    try (by rewrite SetPixel_loop_end).
  { specialize (Hfuel k eq_refl). lia. }
  specialize (Hfuel k eq_refl). rewrite SetPixel_loop_step.
  destruct (Container.find k (container s)) as [a|] eqn:Hf.
  2: { unfold mbind, M_bind, bind, second. msimpl. fold (container s).
       by rewrite Hf. }
  erewrite bind_Ret by (by apply second_find).
  erewrite bind_Ret by reflexivity. fold (container s).
  assert (∀ (m : M unit) nl,
            runs (within (container s)) m →
            fst ((m ≫= λ _, SetPixel_loop fuel (Container.next k (container s))
                              idx iLabel nl) s) ≠ OutOfFuel) as Hbody.
  { intros m nl Hm. destruct (Hm s (within_refl s Hs)) as [Hfst [Hs1 Hle1]].
    unfold mbind, M_bind, bind. destruct (m s) as [[[]| | |] s1]; try done.
    apply IH; [done|]. intros k' Hnext.
    pose proof (after_next _ _ _ Hs Hnext). specialize (Hle1 k'). simpl in *.
    lia. }
  case_decide.
  - erewrite bind_Ret by reflexivity. apply Hbody, runs_within_RemovePixel_it.
  - apply Hbody, runs_within_AddPixel_it_Some.
Qed.

(** [SetPixel] gives its loop enough fuel. *)
Lemma SetPixel_fuel s idx iLabel :
  Container.sorted (container s) → fst (SetPixel idx iLabel s) ≠ OutOfFuel.
Proof.
  intros Hs. unfold SetPixel. erewrite bind_Ret by reflexivity.
  fold (container s).
  pose proof (SetPixel_loop_fuel idx iLabel (length (container s))
                (Container.begin (container s)) s true Hs) as Hloop.
  unfold mbind, M_bind, bind.
  destruct (SetPixel_loop _ _ _ _ _ _) as [[newLabel| | |] s1]; try done.
  - destruct newLabel; [|done]. simpl.
    destruct (decide (iLabel = background s1)) as [->|Hbg].
    + by rewrite AddPixel_it_background.
    + by rewrite AddPixel_it_None_eq.
  - simpl in *. intros _. apply Hloop; [|done]. intros k Hk.
    destruct (container s) as [|[k1 a1] c]; [done|]. injection Hk as ->.
    rewrite after_cons, decide_False by lia. simpl.
    pose proof (after_le_length k c). lia.
Qed.
End Fuel.

(** ** I1 along the calls *)

Section KeepsI1.
Implicit Types (s : State) (k : Z) (a : addr) (o : LabelObject).

Lemma keeps_bind {A B} (P : State → Prop) (m : M A) (f : A → M B) :
  keeps P m → (∀ x, keeps P (f x)) → keeps P (m ≫= f).
Proof.
  intros Hm Hf s HP. specialize (Hm s HP).
  unfold mbind, M_bind, bind. destruct (m s) as [[x| | |] s']; try done.
  by apply Hf.
Qed.

Lemma keeps_unchanged {A} (P : State → Prop) (m : M A) :
  (∀ s, snd (m s) = s) → keeps P m.
Proof. intros Hm s HP. by rewrite Hm. Qed.

Lemma keeps_when (P : State → Prop) b (m : M unit) :
  keeps P m → keeps P (when b m).
Proof. intros Hm. destruct b; [done|]. by apply keeps_unchanged. Qed.

Lemma I1_fields s s' :
  container s' = container s → background s' = background s → I1 s → I1 s'.
Proof. unfold I1. by intros -> ->. Qed.

Lemma I1_assign s s' label a :
  container s' = Container.assign label a (container s) →
  background s' = background s →
  label ≠ background s → I1 s → I1 s'.
Proof.
  unfold I1. intros -> ->. rewrite keys_assign. intros ? ? [?|?]; by simplify_eq.
Qed.

Lemma keeps_I1_load a : keeps I1 (load a).
Proof.
  apply keeps_unchanged. intros s. unfold load. by destruct (heap s !! a).
Qed.

Lemma keeps_I1_store a o : keeps I1 (store a o).
Proof. intros s. by apply I1_fields. Qed.

Lemma keeps_I1_update a f : keeps I1 (update a f).
Proof.
  apply keeps_bind; [apply keeps_I1_load|]. intros o. apply keeps_I1_store.
Qed.

Lemma keeps_I1_second k : keeps I1 (second k).
Proof.
  apply keeps_unchanged. intros s. unfold second. msimpl.
  by destruct (Container.find _ _).
Qed.

Lemma keeps_I1_Modified : keeps I1 Modified.
Proof. intros s. by apply I1_fields. Qed.

Lemma keeps_I1_RemoveLabel label : keeps I1 (RemoveLabel label).
Proof.
  intros s HI1. destruct (decide (label = background s)) as [->|Hbg].
  - by rewrite RemoveLabel_background.
  - rewrite RemoveLabel_eq by done. simpl.
    eapply I1_fields, I1_erase, HI1; done.
Qed.

Lemma keeps_I1_RemoveLabelObject labelObject :
  keeps I1 (RemoveLabelObject labelObject).
Proof.
  destruct labelObject as [a|]; [|by apply keeps_unchanged].
  apply keeps_bind; [apply keeps_I1_load|].
  intros o. apply keeps_I1_RemoveLabel.
Qed.

Lemma keeps_I1_RemovePixel_it it idx emit :
  keeps I1 (RemovePixel_it it idx emit).
Proof.
  destruct it as [k|]; [|by apply keeps_unchanged].
  apply keeps_bind; [apply keeps_I1_second|]. intros a.
  apply keeps_bind; [apply keeps_I1_load|]. intros o.
  destruct (LabelObj.RemoveIndex idx o) as [removed o'].
  apply keeps_bind; [apply keeps_I1_store|]. intros _.
  destruct removed; [|by apply keeps_unchanged].
  apply keeps_bind; [|intros _; apply keeps_when, keeps_I1_Modified].
  apply keeps_when, keeps_I1_RemoveLabelObject.
Qed.

Lemma keeps_I1_AddPixel_it it idx label : keeps I1 (AddPixel_it it idx label).
Proof.
  intros s HI1. destruct (decide (label = background s)) as [->|Hbg].
  { by rewrite AddPixel_it_background. }
  destruct it as [k|].
  - unfold AddPixel_it. erewrite bind_Ret by reflexivity.
    fold (background s). rewrite decide_False by done.
    revert s HI1 Hbg. intros s HI1 _. revert s HI1.
    apply keeps_bind; [apply keeps_I1_second|]. intros a.
    apply keeps_bind; [apply keeps_I1_update|]. intros _.
    apply keeps_I1_Modified.
  - rewrite AddPixel_it_None_eq by done. simpl.
    by eapply I1_assign.
Qed.

Lemma keeps_I1_SetPixel_loop idx iLabel fuel :
  ∀ it newLabel, keeps I1 (SetPixel_loop fuel it idx iLabel newLabel).
Proof.
  induction fuel as [|fuel IH]; intros [k|] newLabel;
    try (by apply keeps_unchanged).
  rewrite SetPixel_loop_step.
  apply keeps_bind; [apply keeps_I1_second|]. intros _.
  apply keeps_bind; [by apply keeps_unchanged|]. intros c.
  case_decide.
  - apply keeps_bind; [by apply keeps_unchanged|]. intros bg.
    apply keeps_bind; [apply keeps_I1_RemovePixel_it|]. intros _. apply IH.
  - apply keeps_bind; [apply keeps_I1_AddPixel_it|]. intros _. apply IH.
Qed.

Lemma keeps_I1_SetPixel idx iLabel : keeps I1 (SetPixel idx iLabel).
Proof.
  apply keeps_bind; [by apply keeps_unchanged|]. intros c.
  apply keeps_bind; [apply keeps_I1_SetPixel_loop|]. intros newLabel.
  apply keeps_when, keeps_I1_AddPixel_it.
Qed.

Lemma keeps_I1_AddPixel idx label : keeps I1 (AddPixel idx label).
Proof.
  apply keeps_bind; [by apply keeps_unchanged|]. intros bg.
  case_decide; [by apply keeps_unchanged|].
  apply keeps_bind; [by apply keeps_unchanged|]. intros c.
  apply keeps_I1_AddPixel_it.
Qed.

Lemma keeps_I1_RemovePixel idx label : keeps I1 (RemovePixel idx label).
Proof.
  apply keeps_bind; [by apply keeps_unchanged|]. intros bg.
  case_decide; [by apply keeps_unchanged|].
  apply keeps_bind; [by apply keeps_unchanged|]. intros c.
  apply keeps_I1_RemovePixel_it.
Qed.

Lemma keeps_I1_SetLine idx length label : keeps I1 (SetLine idx length label).
Proof.
  intros s HI1. destruct (decide (label = background s)) as [->|Hbg].
  { by rewrite SetLine_background. }
  destruct (Container.find label (container s)) as [a|] eqn:Hf.
  - destruct (heap s !! a) as [o|] eqn:Ho.
    + erewrite SetLine_Some by done. by eapply I1_fields.
    + by erewrite SetLine_dangling.
  - rewrite SetLine_None by done. simpl.
    by eapply I1_assign.
Qed.

Lemma keeps_I1_ClearLabels : keeps I1 ClearLabels.
Proof.
  intros s HI1. rewrite ClearLabels_eq. simpl.
  destruct (container s); [done|]. unfold I1. fields. apply not_elem_of_nil.
Qed.

Lemma I1_AddLabelObject s labelObject :
  match labelObject with
  | Some a => match heap s !! a with
              | Some o => m_Label o ≠ background s
              | None => True
              end
  | None => True
  end →
  I1 s → I1 (snd (AddLabelObject labelObject s)).
Proof.
  destruct labelObject as [a|]; [|done].
  destruct (heap s !! a) as [o|] eqn:Ho; intros Hl HI1.
  - rewrite (AddLabelObject_Some _ _ _ Ho). simpl.
    by eapply I1_assign.
  - by rewrite AddLabelObject_dangling.
Qed.

Lemma PushLabelObject_loop_dangling {LT : NumericTraits} a c :
  ∀ label s, heap s !! a = None →
    snd (PushLabelObject_loop a label c s) = s.
Proof.
  induction c as [|[k a'] c IH]; intros label s Hn; [done|].
  simpl. erewrite bind_Ret by reflexivity.
  case_decide; [|by apply IH]. msimpl. by rewrite Hn.
Qed.

Lemma PushLabelObject_dangling {LT : NumericTraits} s a :
  heap s !! a = None → snd (PushLabelObject (Some a) s) = s.
Proof.
  intros Hn. unfold PushLabelObject.
  erewrite bind_Ret by reflexivity. erewrite bind_Ret by reflexivity.
  destruct (m_LabelObjectContainer (this s)) as [|[firstLabel a'] c].
  { case_decide; msimpl; by rewrite Hn. }
  repeat case_decide; try (msimpl; by rewrite Hn).
  unfold mbind, M_bind, bind.
  pose proof (PushLabelObject_loop_dangling a ((firstLabel, a') :: c)
                firstLabel s Hn) as Hloop.
  destruct (PushLabelObject_loop _ _ _ _) as [[l| | |] s']; simpl in *;
    try done.
  subst s'. case_decide; [done|]. msimpl. by rewrite Hn.
Qed.

Lemma I1_PushLabelObject {LT : NumericTraits} s labelObject :
  pushed_label (background s) (container s) ≠ None →
  I1 s → I1 (snd (PushLabelObject labelObject s)).
Proof.
  intros Hp HI1. destruct labelObject as [a|]; [|done].
  destruct (heap s !! a) as [o|] eqn:Ho.
  - pose proof (PushLabelObject_cases s a o Ho) as Hcases.
    cbv zeta in Hcases.
    destruct (pushed_label _ _) as [l|] eqn:Hl; [|done].
    apply pushed_label_not_background in Hl.
    destruct Hcases as [-> | ->]; [|by eapply I1_fields].
    erewrite AddLabelObject_Some by apply lookup_insert_eq. simpl.
    by eapply I1_assign.
  - by rewrite PushLabelObject_dangling.
Qed.

Lemma I1_Graft s data :
  match data with
  | Some (SelfData imgData) =>
      m_BackgroundValue imgData
        ∉ Container.keys (m_LabelObjectContainer imgData)
  | _ => True
  end →
  I1 s → I1 (snd (Graft data s)).
Proof. by destruct data as [[imgData|]|]. Qed.

(** Every call that respects the background keeps I1. *)
Lemma I1_exec {LT : NumericTraits} c s :
  respects_background c s → I1 s → I1 (snd (exec c s)).
Proof.
  destruct c; simpl; intros Hc HI1.
  - by apply I1_AddLabelObject.
  - destruct labelObject; [by apply I1_PushLabelObject|done].
  - by apply keeps_I1_AddPixel.
  - by apply keeps_I1_SetPixel.
  - by apply keeps_I1_SetLine.
  - by apply keeps_I1_RemovePixel.
  - by apply keeps_I1_RemoveLabel.
  - by apply I1_Graft.
  - by apply keeps_I1_ClearLabels.
Qed.

Lemma I1_run {LT : NumericTraits} calls :
  ∀ s, admissible respects_background calls s → I1 s → I1 (run calls s).
Proof.
  induction calls as [|c calls IH]; intros s Hadm HI1; [done|].
  simpl in *. destruct Hadm as [Hc Hadm].
  pose proof (I1_exec c s Hc HI1) as HI1'.
  destruct (exec c s) as [[[]| | |] s']; simpl in *; auto.
Qed.

Lemma I1_LabelMap_ctor h : I1 (LabelMap_ctor h).
Proof. unfold I1. apply not_elem_of_nil. Qed.
End KeepsI1.

(** ** Well-formedness along the calls *)

Section KeepsWellFormed.
Implicit Types (s : State) (k : Z) (a : addr) (o : LabelObject).

Lemma well_formed_intro s :
  consistent s → I1 s → (∀ k o, view s k = Some o → m_Region o ≠ ∅) →
  well_formed s.
Proof.
  intros Hc HI1 Hne. constructor; [done|done|].
  by apply I4_view; [apply Hc|].
Qed.

Lemma well_formed_nonempty s k o :
  well_formed s → view s k = Some o → m_Region o ≠ ∅.
Proof.
  intros [Hc _ HI4]. revert k o. by apply I4_view; [apply Hc|].
Qed.

Lemma AddIndex_nonempty idx o : m_Region (LabelObj.AddIndex idx o) ≠ ∅.
Proof. simpl. set_solver. Qed.

Lemma line_head idx length :
  0 < length → LabelObj.shift idx 0 ∈ LabelObj.line idx length.
Proof.
  intros Hl. unfold LabelObj.line. apply elem_of_list_to_set.
  apply list_elem_of_fmap. exists 0. split; [done|].
  apply elem_of_seqZ. lia.
Qed.

Lemma AddLine_nonempty idx length o :
  0 < length → m_Region (LabelObj.AddLine idx length o) ≠ ∅.
Proof. intros Hl%(line_head idx). simpl. set_solver. Qed.

Lemma well_formed_empty s : container s = [] → well_formed s.
Proof.
  intros Hempty. constructor; [constructor|..]; unfold Container.sorted,
    valid_pointers, I1, I2, I4, stored; rewrite Hempty.
  - apply sorted_nil.
  - intros k a Hst. by apply elem_of_nil in Hst.
  - intros k a o Hst. by apply elem_of_nil in Hst.
  - apply not_elem_of_nil.
  - intros k a o Hst. by apply elem_of_nil in Hst.
Qed.

Lemma well_formed_LabelMap_ctor h : well_formed (LabelMap_ctor h).
Proof. by apply well_formed_empty. Qed.

Lemma well_formed_fields s s' :
  heap s' = heap s → container s' = container s →
  background s' = background s → well_formed s → well_formed s'.
Proof.
  destruct s as [h [b c m]], s' as [h' [b' c' m']].
  unfold container, background. simpl. intros -> -> -> [[? ? ?] ? ?].
  by repeat constructor.
Qed.

Lemma well_formed_modified s : well_formed (modified s) ↔ well_formed s.
Proof. split; intros [[? ? ?] ? ?]; by repeat constructor. Qed.

Lemma well_formed_AddPixel s idx label :
  well_formed s → well_formed (snd (AddPixel idx label s)).
Proof.
  intros Hwf. pose proof Hwf as [Hc HI1 HI4].
  destruct (decide (label = background s)) as [->|Hbg].
  { by rewrite AddPixel_background. }
  destruct (AddPixel_spec s idx label Hc Hbg)
    as (s' & -> & Hc' & Hbg' & Hkeys' & Hview').
  simpl. apply well_formed_intro; [done|..].
  - unfold I1. rewrite Hbg', Hkeys'. intros [?|?]; by simplify_eq.
  - intros k o. rewrite Hview'. destruct (decide (k = label)).
    + intros [= <-]. apply AddIndex_nonempty.
    + by apply well_formed_nonempty.
Qed.

Lemma well_formed_RemovePixel s idx label :
  well_formed s → well_formed (snd (RemovePixel idx label s)).
Proof.
  intros Hwf. pose proof Hwf as [Hc HI1 HI4].
  destruct (RemovePixel_spec s idx label Hc HI1)
    as (s' & -> & Hc' & HI1' & Hbg' & Hview').
  simpl. apply well_formed_intro; [done|done|].
  intros k o. rewrite Hview'.
  destruct (decide (k = label)); [|by apply well_formed_nonempty].
  destruct (view s k) as [o0|] eqn:Hview; [simpl|done].
  intros (_ & _ & Hne)%evict_Some. eauto using well_formed_nonempty.
Qed.

Lemma well_formed_SetPixel s idx iLabel :
  well_formed s → well_formed (snd (SetPixel idx iLabel s)).
Proof.
  intros Hwf. pose proof Hwf as [Hc HI1 HI4].
  destruct (SetPixel_spec s idx iLabel Hc HI1)
    as (s' & -> & Hc' & HI1' & Hbg' & Hview').
  simpl. apply well_formed_intro; [done|done|].
  intros k o. rewrite Hview'.
  destruct (decide (k = iLabel)); [destruct (decide (iLabel = _))|];
    try done.
  - intros [= <-]. apply AddIndex_nonempty.
  - destruct (view s k) as [o0|] eqn:Hview; [simpl|done].
    intros (_ & _ & Hne)%evict_Some. eauto using well_formed_nonempty.
Qed.

Lemma well_formed_assign s a o :
  well_formed s → heap s !! a = Some o →
  m_Label o ≠ background s → m_Region o ≠ ∅ →
  well_formed (with_container (Container.assign (m_Label o) a (container s)) s).
Proof.
  intros Hwf Ho Hl Hne. pose proof Hwf as [Hc HI1 HI4].
  destruct (assign_stored s (m_Label o) a o Hc Ho eq_refl) as [Hc' Hview'].
  apply well_formed_intro; [done|by eapply I1_assign|].
  intros k o'. rewrite Hview'. destruct (decide (k = m_Label o)).
  - by intros [= <-].
  - by apply well_formed_nonempty.
Qed.

Lemma well_formed_AddLabelObject s a o :
  well_formed s → heap s !! a = Some o →
  m_Label o ≠ background s → m_Region o ≠ ∅ →
  well_formed (snd (AddLabelObject (Some a) s)).
Proof.
  intros Hwf Ho Hl Hne. rewrite (AddLabelObject_Some _ _ _ Ho). simpl.
  by apply well_formed_modified, well_formed_assign.
Qed.

Lemma well_formed_store_unstored s a o :
  well_formed s → a ∉ (snd <$> container s) →
  well_formed (with_heap (<[a := o]> (heap s)) s).
Proof.
  intros [Hc HI1 HI4] Hn.
  destruct (store_unstored s a o Hc) as [Hc' Hview'].
  { intros k Hst. apply Hn. apply list_elem_of_fmap. by exists (k, a). }
  apply well_formed_intro; [done|by eapply I1_fields|].
  intros k o'. rewrite Hview'. by apply well_formed_nonempty.
Qed.

Lemma well_formed_PushLabelObject {LT : NumericTraits} s a o :
  well_formed s → heap s !! a = Some o →
  m_Region o ≠ ∅ → a ∉ (snd <$> container s) →
  pushed_label (background s) (container s) ≠ None →
  well_formed (snd (PushLabelObject (Some a) s)).
Proof.
  intros Hwf Ho Hne Hn Hp.
  pose proof (PushLabelObject_cases s a o Ho) as Hcases. cbv zeta in Hcases.
  destruct (pushed_label _ _) as [l|] eqn:Hl; [|done].
  apply pushed_label_not_background in Hl.
  pose proof (well_formed_store_unstored s a (LabelObj.SetLabel l o) Hwf Hn)
    as Hwf1.
  destruct Hcases as [-> | ->]; [|done].
  eapply well_formed_AddLabelObject; [done|apply lookup_insert_eq|done|done].
Qed.

Lemma well_formed_SetLine s idx length label :
  well_formed s → 0 < length →
  well_formed (snd (SetLine idx length label s)).
Proof.
  intros Hwf Hlen. pose proof Hwf as [Hc HI1 HI4].
  destruct (decide (label = background s)) as [->|Hbg].
  { by rewrite SetLine_background. }
  destruct (Container.find label (container s)) as [a|] eqn:Hf.
  - pose proof (find_Some_elem_of _ _ _ Hf) as Hst.
    destruct (consistent_valid _ Hc _ _ Hst) as [o Ho].
    erewrite SetLine_Some by done. simpl. apply well_formed_modified.
    destruct (store_stored s label a (LabelObj.AddLine idx length o) Hc Hst)
      as [Hc' Hview']; [simpl; by eapply (consistent_I2 _ Hc)|].
    apply well_formed_intro; [done|by eapply I1_fields|].
    intros k o'. rewrite Hview'. destruct (decide (k = label)).
    + intros [= <-]. by apply AddLine_nonempty.
    + by apply well_formed_nonempty.
  - rewrite SetLine_None by done. simpl. apply well_formed_modified.
    set (a := fresh (dom (heap s))).
    set (o := LabelObj.AddLine idx length (fresh_object label)).
    assert (well_formed (with_heap (<[a:=o]> (heap s)) s)) as Hwf1.
    { apply well_formed_store_unstored; [done|].
      intros ([k a'] & Ha & Hin)%list_elem_of_fmap. simpl in Ha. subst a'.
      by eapply fresh_unstored; [apply Hc|]. }
    apply (well_formed_assign _ a o Hwf1); [apply lookup_insert_eq|done|].
    by apply AddLine_nonempty.
Qed.

Lemma well_formed_RemoveLabel s label :
  well_formed s → well_formed (snd (RemoveLabel label s)).
Proof.
  intros Hwf. pose proof Hwf as [Hc HI1 HI4].
  destruct (decide (label = background s)) as [->|Hbg].
  { by rewrite RemoveLabel_background. }
  rewrite RemoveLabel_eq by done. simpl. apply well_formed_modified.
  destruct (erase_stored s label Hc) as [Hc' Hview'].
  apply well_formed_intro; [done|by apply I1_erase|].
  intros k o. rewrite Hview'. destruct (decide (k = label)); [done|].
  by apply well_formed_nonempty.
Qed.

Lemma well_formed_ClearLabels s :
  well_formed s → well_formed (snd (ClearLabels s)).
Proof.
  intros Hwf. rewrite ClearLabels_eq. simpl.
  destruct (container s); [done|].
  by apply well_formed_empty.
Qed.

Lemma well_formed_exec {LT : NumericTraits} c s :
  respects_invariants c s → well_formed s → well_formed (snd (exec c s)).
Proof.
  destruct c; simpl; intros Hc Hwf.
  - destruct labelObject as [a|]; [|done].
    destruct (heap s !! a) as [o|] eqn:Ho.
    + destruct Hc. by eapply well_formed_AddLabelObject.
    + by rewrite AddLabelObject_dangling.
  - destruct labelObject as [a|]; [|done].
    destruct (heap s !! a) as [o|] eqn:Ho.
    + destruct Hc as (? & ? & ?). by eapply well_formed_PushLabelObject.
    + by rewrite PushLabelObject_dangling.
  - by apply well_formed_AddPixel.
  - by apply well_formed_SetPixel.
  - by apply well_formed_SetLine.
  - by apply well_formed_RemovePixel.
  - by apply well_formed_RemoveLabel.
  - destruct data as [[imgData|]|]; [|done|done].
    by eapply well_formed_fields, Hc.
  - by apply well_formed_ClearLabels.
Qed.

Lemma well_formed_run {LT : NumericTraits} calls :
  ∀ s, admissible respects_invariants calls s → well_formed s →
       well_formed (run calls s).
Proof.
  induction calls as [|c calls IH]; intros s Hadm Hwf; [done|].
  simpl in *. destruct Hadm as [Hc Hadm].
  pose proof (well_formed_exec c s Hc Hwf) as Hwf'.
  destruct (exec c s) as [[[]| | |] s']; simpl in *; auto.
Qed.
End KeepsWellFormed.

(** ** The scans for a position *)

Section Scans.
Implicit Types (s : State) (k : Z) (a : addr) (o : LabelObject).
Implicit Types (c pre post : LabelObjectContainerType).

Lemma misses_not_contains s idx c k a :
  misses s idx c → (k, a) ∈ c → ¬ contains s a idx.
Proof.
  intros Hm Hin (o & Ho & Hidx). destruct (Hm _ _ Hin) as (o' & Ho' & Hn).
  by simplify_eq.
Qed.

Lemma not_contains_misses s idx c :
  (∀ k a, (k, a) ∈ c → is_Some (heap s !! a)) →
  (∀ k a, (k, a) ∈ c → ¬ contains s a idx) → misses s idx c.
Proof.
  intros Hv Hn k a Hin. destruct (Hv _ _ Hin) as [o Ho].
  exists o. split; [done|]. intros Hidx. eapply Hn; [done|]. by exists o.
Qed.

(** Either an entry is the first one whose object contains [idx], or no
    object does. *)
Lemma first_or_none s idx c :
  (∀ k a, (k, a) ∈ c → is_Some (heap s !! a)) →
  (∃ pre k a o post,
      c = pre ++ (k, a) :: post ∧ heap s !! a = Some o
      ∧ idx ∈ m_Region o ∧ misses s idx pre)
  ∨ misses s idx c.
Proof.
  induction c as [|[k a] c IH]; intros Hv.
  { right. intros k a Hin. by apply elem_of_nil in Hin. }
  destruct (Hv k a) as [o Ho]; [left|].
  destruct (decide (idx ∈ m_Region o)) as [Hidx|Hidx].
  { left. exists [], k, a, o, c. split_and!; try done.
    intros k' a' Hin. by apply elem_of_nil in Hin. }
  destruct IH as [(pre & k1 & a1 & o1 & post & -> & Ho1 & Hidx1 & Hpre)|Hnone].
  { intros k' a' Hin. apply (Hv k' a'). by right. }
  - left. exists ((k, a) :: pre), k1, a1, o1, post. split_and!; try done.
    intros k' a' [?|?]%elem_of_cons; simplify_eq; eauto.
  - right. intros k' a' [?|?]%elem_of_cons; simplify_eq; eauto.
Qed.

Lemma GetPixel_loop_first s idx pre k a o post :
  misses s idx pre → heap s !! a = Some o → idx ∈ m_Region o →
  GetPixel_loop idx (pre ++ (k, a) :: post) s = (Ret (m_Label o), s).
Proof.
  intros Hpre Ho Hidx. induction pre as [|[k' a'] pre IH]; simpl.
  - msimpl. rewrite Ho. unfold LabelObj.HasIndex.
    by rewrite bool_decide_eq_true_2.
  - destruct (Hpre k' a') as (o' & Ho' & Hn'); [left|].
    msimpl. rewrite Ho'. unfold LabelObj.HasIndex.
    rewrite bool_decide_eq_false_2 by done.
    apply IH. intros k1 a1 Hin. apply (Hpre k1 a1). by right.
Qed.

Lemma GetPixel_loop_none s idx c :
  misses s idx c → GetPixel_loop idx c s = (Ret (background s), s).
Proof.
  intros Hc. induction c as [|[k' a'] c IH]; simpl; [done|].
  destruct (Hc k' a') as (o' & Ho' & Hn'); [left|].
  msimpl. rewrite Ho'. unfold LabelObj.HasIndex.
  rewrite bool_decide_eq_false_2 by done.
  apply IH. intros k1 a1 Hin. apply (Hc k1 a1). by right.
Qed.

Lemma GetLabelObject_idx_loop_first s idx pre k a o post :
  misses s idx pre → heap s !! a = Some o → idx ∈ m_Region o →
  GetLabelObject_idx_loop idx (pre ++ (k, a) :: post) s = (Ret a, s).
Proof.
  intros Hpre Ho Hidx. induction pre as [|[k' a'] pre IH]; simpl.
  - msimpl. rewrite Ho. unfold LabelObj.HasIndex.
    by rewrite bool_decide_eq_true_2.
  - destruct (Hpre k' a') as (o' & Ho' & Hn'); [left|].
    msimpl. rewrite Ho'. unfold LabelObj.HasIndex.
    rewrite bool_decide_eq_false_2 by done.
    apply IH. intros k1 a1 Hin. apply (Hpre k1 a1). by right.
Qed.

Lemma GetLabelObject_idx_loop_none s idx c :
  misses s idx c →
  GetLabelObject_idx_loop idx c s = (Throw PositionNotFound, s).
Proof.
  intros Hc. induction c as [|[k' a'] c IH]; simpl; [done|].
  destruct (Hc k' a') as (o' & Ho' & Hn'); [left|].
  msimpl. rewrite Ho'. unfold LabelObj.HasIndex.
  rewrite bool_decide_eq_false_2 by done.
  apply IH. intros k1 a1 Hin. apply (Hc k1 a1). by right.
Qed.

(** In a sorted container the first entry with a property has the smallest
    key with it. *)
Lemma first_smallest s idx pre k a post k' a' :
  Container.sorted (pre ++ (k, a) :: post) → misses s idx pre →
  (k', a') ∈ pre ++ (k, a) :: post → contains s a' idx → k ≤ k'.
Proof.
  intros Hs Hpre Hin Hcont.
  apply sorted_app_inv in Hs as (_ & Hs & _).
  apply sorted_cons_inv in Hs as [_ Hlt].
  apply elem_of_app in Hin as [Hin|Hin].
  { by destruct (misses_not_contains _ _ _ _ _ Hpre Hin). }
  apply elem_of_cons in Hin as [?|Hin]; simplify_eq; [done|].
  assert (k < k'); [|lia]. apply Hlt, elem_of_keys. eauto.
Qed.

(** After [AddPixel] a position is at its label, unless an object under a
    smaller label has it. *)
Lemma GetPixel_smallest s idx label :
  consistent s → owns s label idx →
  (∀ k, k < label → ¬ owns s k idx) →
  GetPixel idx s = (Ret label, s).
Proof.
  intros [Hs Hv HI2] (a & Hst & o & Ho & Hidx) Hsmall.
  unfold GetPixel. erewrite bind_Ret by reflexivity. fold (container s).
  pose proof Hst as Hst'. unfold stored in Hst'.
  apply list_elem_of_split in Hst' as (pre & post & Hcont).
  rewrite Hcont. rewrite <- (HI2 _ _ _ Hst Ho).
  apply GetPixel_loop_first; [|done|done].
  rewrite Hcont in Hs. apply sorted_app_inv in Hs as (_ & _ & Hlt).
  apply not_contains_misses.
  - intros k' a' Hin. apply (Hv k' a'). unfold stored. rewrite Hcont.
    apply elem_of_app. by left.
  - intros k' a' Hin Hcont'. apply (Hsmall k').
    + apply Hlt; [apply elem_of_keys; eauto|]. apply keys_cons. by left.
    + exists a'. split; [|done]. unfold stored. rewrite Hcont.
      apply elem_of_app. by left.
Qed.
End Scans.

(** ** The search for an unused label *)

Section Search.
Context {LT : NumericTraits}.

Lemma List_last_elem_of {A} (x : A) (l : list A) (d : A) :
  List.last (x :: l) d ∈ x :: l.
Proof.
  revert x. induction l as [|y l IH]; intros x; [left|].
  right. apply IH.
Qed.

(** On ascending keys that are labels, none of them the background value,
    the search either stops below the last key, or runs to the end and
    leaves [label] just behind the last key. *)
Lemma unused_label_last bg :
  ∀ ks label d,
    StronglySorted Z.lt ks → Forall is_label ks → bg ∉ ks →
    ks ≠ [] → 0 ≤ label → (∀ k, head ks = Some k → label ≤ k) →
    match unused_label bg label ks with
    | (l, true) => l < List.last ks d
    | (l, false) => l = wrap (List.last ks d + 1)
    end.
Proof.
  induction ks as [|k ks IH]; intros label d Hs Hl Hbg Hne H0 Hhd; [done|].
  apply StronglySorted_inv in Hs as [Hs Hlt].
  apply Forall_cons in Hl as [[Hk0 Hk1] Hl].
  apply not_elem_of_cons in Hbg as [Hbgk Hbg].
  specialize (Hhd k eq_refl). unfold NumericTraits_max in Hk1.
  assert (k ≤ List.last (k :: ks) d) as Hlast.
  { destruct ks as [|k2 ks]; [done|].
    change (List.last (k :: k2 :: ks) d) with (List.last (k2 :: ks) d).
    pose proof (List_last_elem_of k2 ks d) as Hin.
    eapply Forall_forall in Hlt; [|exact Hin]. lia. }
  simpl unused_label.
  set (label' := if decide (label = bg) then wrap (label + 1) else label).
  assert (label' ≤ k ∧ 0 ≤ label') as [Hle H0'].
  { subst label'. case_decide; [|done].
    rewrite wrap_small by lia. lia. }
  destruct (decide (label' ≠ k)) as [Hne'|Heq%dec_stable]; [lia|].
  destruct ks as [|k2 ks]; [simpl; by subst|].
  change (List.last (k :: k2 :: ks) d) with (List.last (k2 :: ks) d).
  apply Forall_cons in Hlt as [Hlt2 _].
  pose proof Hl as [[_ Hk2] _]%Forall_cons.
  unfold NumericTraits_max in Hk2.
  rewrite wrap_small by lia.
  apply IH; try done; [lia|]. intros ? [= <-]. lia.
Qed.

(** [PushLabelObject] throws in the last branch only, when the search
    leaves [label] at the last key. *)
Lemma PushLabelObject_full_inv s a o s' :
  heap s !! a = Some o →
  PushLabelObject (Some a) s = (Throw ContainerFull, s') →
  ∃ firstLabel,
    head (Container.keys (container s)) = Some firstLabel
    ∧ fst (unused_label (background s) firstLabel
             (Container.keys (container s)))
      = List.last (Container.keys (container s)) firstLabel.
Proof.
  intros Ho. unfold PushLabelObject.
  erewrite bind_Ret by reflexivity. erewrite bind_Ret by reflexivity.
  fold (container s) (background s).
  destruct (container s) as [|[firstLabel a'] c] eqn:Hcont.
  { case_decide; msimpl; rewrite Ho; msimpl; by rewrite lookup_insert_eq. }
  repeat case_decide;
    try (msimpl; rewrite Ho; msimpl; by rewrite lookup_insert_eq).
  unfold mbind, M_bind, bind.
  rewrite (PushLabelObject_loop_unused a o _ _ s Ho).
  destruct (unused_label _ _ _) as [l found] eqn:Hu. cbv zeta.
  destruct (decide (l = _)) as [Heq|Hne].
  - intros _. exists firstLabel. split; [done|].
    unfold LabelObjectContainerType in *. by rewrite Hu.
  - destruct found; msimpl; rewrite ?lookup_insert_eq, ?Ho; by msimpl.
Qed.

(** On a label map whose keys are ascending labels, none of them the
    background value, [PushLabelObject] does not throw: the exception of
    the full label map is out of reach. *)
Lemma PushLabelObject_never_full s a o :
  Container.sorted (container s) →
  Forall is_label (Container.keys (container s)) →
  I1 s → heap s !! a = Some o →
  ∃ s', PushLabelObject (Some a) s = (Ret tt, s').
Proof.
  intros Hs Hl HI1 Ho.
  destruct (PushLabelObject_cases s a o Ho) as [Hadd|Hfull].
  - rewrite Hadd. destruct (pushed_label _ _);
      erewrite AddLabelObject_Some; eauto. apply lookup_insert_eq.
  - apply (PushLabelObject_full_inv _ _ _ _ Ho) in Hfull
      as (firstLabel & Hhd & Hlast).
    assert (Container.keys (container s) ≠ []) as Hne.
    { by destruct (Container.keys (container s)). }
    assert (0 ≤ firstLabel) as H0.
    { destruct (Container.keys (container s)) as [|k ks]; [done|].
      simpl in Hhd. injection Hhd as ->.
      apply Forall_cons in Hl as [[? ?] _]. done. }
    pose proof (unused_label_last (background s)
                  (Container.keys (container s)) firstLabel firstLabel
                  Hs Hl HI1 Hne H0) as Hu.
    assert (∀ k, head (Container.keys (container s)) = Some k
                 → firstLabel ≤ k) as Hle.
    { intros k Hk. rewrite Hk in Hhd. injection Hhd as ->. done. }
    specialize (Hu Hle). revert Hlast Hu.
    destruct (unused_label _ _ _) as [l found]. simpl. intros -> Hu.
    destruct found; [lia|].
    by destruct (wrap_succ_ne
                   (List.last (Container.keys (container s)) firstLabel)).
Qed.
End Search.


Section Gap.
Context {LT : NumericTraits}.

(** The search assigns the first unused candidate: when it stops, the
    label it gives is no key and not the background value, and all the
    candidates before it are keys or the background value; when it runs to
    the end, all the candidates up to the last key are. *)
Lemma unused_label_first bg :
  ∀ ks label d,
    StronglySorted Z.lt ks → Forall is_label ks → bg ∉ ks → ks ≠ [] →
    0 ≤ label → (∀ k, head ks = Some k → label ≤ k) →
    match unused_label bg label ks with
    | (l, true) =>
        (l ∉ ks) ∧ l ≠ bg ∧ label ≤ l
        ∧ ∀ x, label ≤ x < l → x ∈ ks ∨ x = bg
    | (l, false) =>
        ∀ x, label ≤ x ≤ List.last ks d → x ∈ ks ∨ x = bg
    end.
Proof.
  induction ks as [|k ks IH]; intros label d Hs Hl Hbg Hne H0 Hhd; [done|].
  apply StronglySorted_inv in Hs as [Hs Hlt].
  apply Forall_cons in Hl as [[Hk0 Hk1] Hl].
  apply not_elem_of_cons in Hbg as [Hbgk Hbg].
  specialize (Hhd k eq_refl). unfold NumericTraits_max in Hk1.
  simpl unused_label.
  set (label' := if decide (label = bg) then wrap (label + 1) else label).
  assert (label' = if decide (label = bg) then label + 1 else label) as Hl'.
  { subst label'. case_decide; [|done]. rewrite wrap_small by lia. lia. }
  clearbody label'.
  assert (label ≤ label' ≤ k ∧ label' ≠ bg
          ∧ ∀ x, label ≤ x < label' → x = bg) as (Hle & Hnbg & Hskip).
  { rewrite Hl'. case_decide; split_and!; try lia; intros x ?; lia. }
  clear Hl'.
  destruct (decide (label' ≠ k)) as [Hne'|Heq%dec_stable].
  - split_and!; [|done|lia|by auto].
    intros [->|Hin]%elem_of_cons; [done|].
    eapply Forall_forall in Hlt; [|exact Hin]. lia.
  - subst label'. destruct ks as [|k2 ks].
    { simpl. intros x Hx. destruct (decide (x = k)) as [->|]; [left; left|].
      right. apply Hskip. lia. }
    change (List.last (k :: k2 :: ks) d) with (List.last (k2 :: ks) d).
    apply Forall_cons in Hlt as [Hlt2 Hlt].
    pose proof Hl as [[_ Hk2] _]%Forall_cons.
    unfold NumericTraits_max in Hk2.
    rewrite wrap_small by lia.
    assert (∀ k', head (k2 :: ks) = Some k' → k + 1 ≤ k') as Hhd'.
    { intros ? [= <-]. lia. }
    specialize (IH (k + 1) d Hs Hl Hbg ltac:(done) ltac:(lia) Hhd').
    assert (∀ x, label ≤ x < k + 1 → x ∈ k :: k2 :: ks ∨ x = bg) as Hlow.
    { intros x Hx. destruct (decide (x = k)) as [->|]; [left; left|].
      right. apply Hskip. lia. }
    destruct (unused_label bg (k + 1) (k2 :: ks)) as [l [|]].
    + destruct IH as (Hnin & Hlbg & Hlk & Hbefore).
      split_and!; [|done|lia|].
      * intros [->|Hin]%elem_of_cons; [lia|done].
      * intros x Hx. destruct (decide (x < k + 1)); [apply Hlow; lia|].
        destruct (Hbefore x) as [?|?]; [lia|left; by right|by right].
    + intros x Hx. destruct (decide (x < k + 1)); [apply Hlow; lia|].
      destruct (IH x) as [?|?]; [lia|left; by right|by right].
Qed.
End Gap.

(** * Scenarios *)

(** The label map of a program that has created one object, at address 1. *)
Example allocation_empty_background_0 :
  let s := LabelMap_ctor {[ 1%positive := new_object ]} in
  GetLabels (snd (PushLabelObject (LT := UnsignedChar) (Some 1%positive) s))
  = [1].
Proof. reflexivity. Qed.

Example allocation_empty_background_5 :
  let s := with_background 5 (LabelMap_ctor {[ 1%positive := new_object ]}) in
  GetLabels (snd (PushLabelObject (LT := UnsignedChar) (Some 1%positive) s))
  = [0].
Proof. reflexivity. Qed.

(** With the labels 0, 1, 2 and the background value 3, the first rule does
    not apply and the second gives [last + 2]. *)
Example allocation_skips_background :
  let s0 := with_background 3 (LabelMap_ctor {[ 1%positive := new_object ]}) in
  let s := run (LT := UnsignedChar)
             [CallAddPixel [0; 0] 0; CallAddPixel [1; 0] 1;
              CallAddPixel [2; 0] 2] s0 in
  GetLabels (snd (PushLabelObject (LT := UnsignedChar) (Some 1%positive) s))
  = [0; 1; 2; 4].
Proof. vm_compute. reflexivity. Qed.

Example SetLine_scenario :
  let s := snd (SetLine [0; 0] 5 3 (LabelMap_ctor ∅)) in
  (λ k, fst (GetPixel [k; 0] s)) <$> [-1; 0; 1; 2; 3; 4; 5]
  = [Ret 0; Ret 3; Ret 3; Ret 3; Ret 3; Ret 3; Ret 0]
  ∧ fst (GetPixel [0; 1] s) = Ret 0.
Proof. vm_compute. done. Qed.

Example removal_cleans_up :
  let s := snd (AddPixel [0; 0] 7 (LabelMap_ctor ∅)) in
  let s' := snd (RemovePixel [0; 0] 7 s) in
  GetLabels s = [7] ∧ GetLabels s' = [] ∧ fst (GetPixel [0; 0] s') = Ret 0.
Proof. vm_compute. done. Qed.

Example error_scenarios :
  let s := snd (AddPixel [0; 0] 7 (LabelMap_ctor ∅)) in
  fst (GetLabelObject (background s) s) = Throw BackgroundLabelAccess
  ∧ fst (GetLabelObject 3 s) = Throw LabelNotFound
  ∧ fst (GetNthLabelObject (GetNumberOfLabelObjects s) s) = Throw IndexOutOfRange
  ∧ fst (Graft (Some OtherData) s) = Throw IncompatibleSourceType
  ∧ fst (RemoveLabel (background s) s) = Throw BackgroundLabelAccess
  ∧ fst (AddLabelObject None s) = Throw NullArgument.
Proof. vm_compute. done. Qed.

(** An object that is pushed twice is stored under two keys and carries the
    second one as label.  [RemovePixel] under the first key then erases the
    second key and leaves the empty object under the first one; and
    [SetPixel] erases the entry its iterator is at: the objects given to
    [PushLabelObject] have to be new to the container. *)
Example pushed_twice :
  let s0 := LabelMap_ctor {[ 1%positive := new_object ]} in
  let s := run (LT := UnsignedChar)
             [CallPushLabelObject (Some 1%positive);
              CallPushLabelObject (Some 1%positive)] s0 in
  container s = [(1, 1%positive); (2, 1%positive)]
  ∧ (m_Label <$> heap s !! 1%positive) = Some 2
  ∧ container (snd (RemovePixel [0; 0] 1 s)) = [(1, 1%positive)]
  ∧ (LabelObj.Empty <$> heap (snd (RemovePixel [0; 0] 1 s)) !! 1%positive)
    = Some true
  ∧ fst (SetPixel [0; 0] 3 s) = Undefined.
Proof. vm_compute. done. Qed.

(** * The claims *)

Section LastKey.
Lemma last_largest (c : LabelObjectContainerType) (d last : Z) :
  Container.sorted c → last ∈ Container.keys c →
  (∀ k, k ∈ Container.keys c → k ≤ last) →
  List.last (Container.keys c) d = last.
Proof.
  induction c as [|[k a] c IH]; intros Hs Hin Hmax.
  { by apply elem_of_nil in Hin. }
  apply sorted_cons_inv in Hs as [Hs Hlt].
  destruct c as [|[k2 a2] c]; simpl.
  - apply keys_cons in Hin as [->|Hin]; [done|]. by apply elem_of_nil in Hin.
  - apply IH; [done| |].
    + apply keys_cons in Hin as [->|Hin]; [|done].
      assert (k2 ≤ k) by (apply Hmax; apply keys_cons; right; apply keys_cons; by left).
      assert (k < k2) by (apply Hlt, keys_cons; by left). lia.
    + intros k' Hk'. apply Hmax, keys_cons. by right.
Qed.
End LastKey.

(** C1: [PushLabelObject] allocates by priority.  In an empty label map the
    object gets the label 1 when the background value is 0, and the label 0
    otherwise.  In a label map whose largest key [last] is not the maximum of
    the label type and is such that [last + 1] is not the background value,
    the object gets the label [last + 1].  In both cases the call returns and
    the object is stored under its new label. *)
Theorem PushLabelObject_priority {LT : NumericTraits} s a o :
  heap s !! a = Some o →
  (container s = [] →
   PushLabelObject (Some a) s
   = (Ret tt, pushed_as (if decide (background s = 0) then 1 else 0) a o s))
  ∧ (∀ last,
       Container.sorted (container s) →
       last ∈ Container.keys (container s) →
       (∀ k, k ∈ Container.keys (container s) → k ≤ last) →
       is_label last →
       last ≠ NumericTraits_max → last + 1 ≠ background s →
       PushLabelObject (Some a) s = (Ret tt, pushed_as (last + 1) a o s)).
Proof.
  intros Ho. split.
  - intros Hempty. unfold PushLabelObject, pushed_as, AddLabelObject.
    unfold container, background in *. msimpl. rewrite Hempty.
    case_decide; msimpl; rewrite Ho; msimpl; rewrite lookup_insert_eq; msimpl;
      by rewrite Hempty.
  - intros last Hs Hin Hmax [Hl0 Hl1] Hnmax Hbg.
    assert (wrap (last + 1) = last + 1) as Hwrap.
    { apply wrap_small. unfold NumericTraits_max in *. lia. }
    unfold PushLabelObject, pushed_as, AddLabelObject.
    erewrite bind_Ret by reflexivity. erewrite bind_Ret by reflexivity.
    fold (container s) (background s).
    destruct (container s) as [|[firstLabel a'] c] eqn:Hcont.
    { by apply elem_of_nil in Hin. }
    rewrite (last_largest _ firstLabel last Hs Hin Hmax).
    rewrite decide_True by (by rewrite Hwrap). rewrite Hwrap.
    unfold container in Hcont.
    msimpl. rewrite Ho. msimpl. rewrite lookup_insert_eq. msimpl.
    by rewrite Hcont.
Qed.

(** The label map that holds the label 1 only, with the background value 0,
    gives the label 2. *)
Lemma PushLabelObject_priority_witness :
  let o1 := {| m_Label := 1; m_Region := {[ [0; 0] ]} |} in
  let o2 := {| m_Label := 0; m_Region := {[ [1; 0] ]} |} in
  let h : gmap addr LabelObject := {[ 1%positive := o1; 2%positive := o2 ]} in
  let empty := LabelMap_ctor h in
  let s := snd (AddLabelObject (Some 1%positive) empty) in
  PushLabelObject (LT := UnsignedChar) (Some 2%positive) empty
  = (Ret tt, pushed_as 1 2%positive o2 empty)
  ∧ PushLabelObject (LT := UnsignedChar) (Some 2%positive) s
    = (Ret tt, pushed_as (1 + 1) 2%positive o2 s).
Proof.
  intros o1 o2 h empty s.
  assert (heap s !! 2%positive = Some o2) as Ho by done.
  assert (container s = [(1, 1%positive)]) as Hc by done.
  split.
  - by apply (PushLabelObject_priority (LT := UnsignedChar) empty 2%positive o2 Ho).
  - apply (PushLabelObject_priority (LT := UnsignedChar) s 2%positive o2 Ho);
      rewrite ?Hc.
    + repeat constructor.
    + apply keys_cons. by left.
    + intros k [->|Hk]%keys_cons; [done|]. by apply elem_of_nil in Hk.
    + vm_compute. split; discriminate.
    + vm_compute. discriminate.
    + vm_compute. discriminate.
Defined.

(** C7: [GetLabelObject(label)] fails with [BackgroundLabelAccess] exactly
    when the label is the background value, fails with [LabelNotFound]
    exactly when the label is not the background value and is no key of the
    container, and returns the object stored under the label otherwise. *)
Theorem GetLabelObject_outcome s label :
  (GetLabelObject label s = (Throw BackgroundLabelAccess, s)
   ↔ label = background s)
  ∧ (GetLabelObject label s = (Throw LabelNotFound, s)
     ↔ label ≠ background s ∧ label ∉ Container.keys (container s))
  ∧ (∀ a, GetLabelObject label s = (Ret a, s)
          ↔ label ≠ background s
            ∧ Container.find label (container s) = Some a).
Proof.
  unfold GetLabelObject. rewrite <- find_None_keys.
  unfold background, container. msimpl.
  destruct (decide (m_BackgroundValue (this s) = label)) as [Heq|Hne].
  - split_and!; [naive_solver|naive_solver|]. intros a. naive_solver.
  - destruct (Container.find label _) as [a'|]; msimpl;
      (split_and!; [naive_solver|naive_solver|]); intros a; naive_solver.
Qed.

(** C8: after [A.Graft(B)] for a label map [B] of the same kind, the call
    has returned, the container of [A] is the one of [B], with the same
    labels and the same object pointers, so that the objects are shared and
    not copied, and the background value of [A] is the one of [B]. *)
Theorem Graft_shares s imgData :
  let source := {| heap := heap s; this := imgData |} in
  let r := Graft (Some (SelfData imgData)) s in
  fst r = Ret tt
  ∧ container (snd r) = container source
  ∧ GetLabels (snd r) = GetLabels source
  ∧ GetLabelObjects (snd r) = GetLabelObjects source
  ∧ background (snd r) = background source
  ∧ heap (snd r) = heap s
  ∧ ∀ k, view (snd r) k = view source k.
Proof. done. Qed.

(** C10: [RemoveLabel(label)] with a label that is not the background value
    returns, also when the label is no key of the container; the container is
    then left as it is, and [Modified()] is called all the same. *)
Theorem RemoveLabel_absent s label :
  label ≠ background s →
  ∃ s', RemoveLabel label s = (Ret tt, s')
    ∧ (label ∉ Container.keys (container s) → container s' = container s)
    ∧ m_MTime (this s') = S (m_MTime (this s))
    ∧ background s' = background s
    ∧ heap s' = heap s.
Proof.
  intros Hbg. eexists. split; [by apply RemoveLabel_eq|].
  split_and!; try done. intros Hn. fields. by apply erase_absent.
Qed.

Lemma RemoveLabel_absent_witness :
  let s := snd (AddPixel [0; 0] 1 (LabelMap_ctor ∅)) in
  ∃ s', RemoveLabel 7 s = (Ret tt, s')
    ∧ (7 ∉ Container.keys (container s) → container s' = container s)
    ∧ m_MTime (this s') = S (m_MTime (this s))
    ∧ background s' = background s
    ∧ heap s' = heap s.
Proof. intros s. apply (RemoveLabel_absent s 7). vm_compute. discriminate. Defined.

(** C9: on a label map whose pointers are alive, [GetLabelObject(idx)]
    returns the stored object with the smallest label among those whose
    region contains the position, and fails with [PositionNotFound] exactly
    when no stored object contains it.  It has no other outcome: for a
    position of the background, for which [GetPixel] returns the background
    value, it fails as well.  It leaves the state as it is. *)
Theorem GetLabelObject_idx_outcome s idx :
  valid_pointers s → Container.sorted (container s) →
  (∀ a, GetLabelObject_idx idx s = (Ret a, s)
        ↔ ∃ k, stored s k a ∧ contains s a idx
               ∧ ∀ k' a', stored s k' a' → contains s a' idx → k ≤ k')
  ∧ (GetLabelObject_idx idx s = (Throw PositionNotFound, s)
     ↔ ∀ k a, stored s k a → ¬ contains s a idx)
  ∧ ((∀ k a, stored s k a → ¬ contains s a idx) →
     GetPixel idx s = (Ret (background s), s))
  ∧ ((∃ a, GetLabelObject_idx idx s = (Ret a, s))
     ∨ GetLabelObject_idx idx s = (Throw PositionNotFound, s)).
Proof.
  intros Hv Hs. unfold GetLabelObject_idx, GetPixel.
  erewrite !bind_Ret by reflexivity. fold (container s).
  unfold stored in *. unfold valid_pointers, stored in Hv.
  assert (misses s idx (container s) →
          ∀ k a, (k, a) ∈ container s → ¬ contains s a idx) as Hmiss.
  { intros Hm k a. by apply misses_not_contains. }
  destruct (first_or_none s idx (container s) Hv)
    as [(pre & k & a & o & post & Hcont & Ho & Hidx & Hpre)|Hnone].
  - assert ((k, a) ∈ container s) as Hin.
    { rewrite Hcont. apply elem_of_app. right. left. }
    assert (contains s a idx) as Hca by (by exists o).
    assert (∀ k' a', (k', a') ∈ container s → contains s a' idx → k ≤ k')
      as Hmin.
    { intros k' a'. rewrite Hcont in Hs |- *. by eapply first_smallest. }
    assert (GetLabelObject_idx_loop idx (container s) s = (Ret a, s)) as ->.
    { rewrite Hcont. by eapply GetLabelObject_idx_loop_first. }
    split_and!.
    + intros a'. split.
      * intros [= <-]. exists k. by split_and!.
      * intros (k1 & Hin1 & Hc1 & Hmin1).
        assert (k ≤ k1) by eauto.
        assert (k1 ≤ k) by eauto. assert (k1 = k) as -> by lia.
        apply (elem_of_find _ _ _ Hs) in Hin, Hin1. by simplify_eq.
    + split; [done|]. intros Hn. by destruct (Hn k a).
    + intros Hn. by destruct (Hn k a).
    + left. eauto.
  - rewrite (GetLabelObject_idx_loop_none _ _ _ Hnone).
    rewrite (GetPixel_loop_none _ _ _ Hnone).
    split_and!; [|split; [intros _; by apply Hmiss|done]|done|by right].
    intros a. split; [done|]. intros (k & Hin & Hc & _).
    by destruct (Hmiss Hnone k a).
Qed.

Lemma GetLabelObject_idx_outcome_witness :
  let s := snd (AddPixel [0; 0] 2 (snd (AddPixel [0; 0] 1 (LabelMap_ctor ∅)))) in
  GetLabelObject_idx [0; 0] s = (Ret 1%positive, s)
  ∧ GetLabelObject_idx [5; 5] s = (Throw PositionNotFound, s).
Proof.
  intros s.
  assert (container s = [(1, 1%positive); (2, 2%positive)]) as Hc by done.
  assert (valid_pointers s) as Hv.
  { intros k a. unfold stored. rewrite Hc. intros Hst.
    apply elem_of_cons in Hst as [[= -> ->]|Hst]; [by eexists|].
    apply list_elem_of_singleton in Hst. simplify_eq. by eexists. }
  assert (Container.sorted (container s)) as Hs.
  { unfold Container.sorted. rewrite Hc. repeat constructor. }
  split.
  - destruct (GetLabelObject_idx_outcome s [0; 0] Hv Hs) as (_ & _ & _ & Hr).
    destruct Hr as [[a Hr]|Hr]; [|vm_compute in Hr; discriminate].
    rewrite Hr. vm_compute in Hr. by simplify_eq.
  - destruct (GetLabelObject_idx_outcome s [5; 5] Hv Hs) as (_ & _ & _ & Hr).
    destruct Hr as [[a Hr]|Hr]; [vm_compute in Hr; discriminate|done].
Defined.

(** C5 as stated fails: after [AddPixel(p, 1)], the call [AddPixel(p, 2)]
    leaves [GetPixel(p) == 1]. *)
Lemma AddPixel_round_trip_counterexample :
  let s := snd (AddPixel [0; 0] 1 (LabelMap_ctor ∅)) in
  let s' := snd (AddPixel [0; 0] 2 s) in
  2 ≠ background s
  ∧ ¬ (fst (GetPixel [0; 0] s') = Ret 2 ∧ HasLabel 2 s' = true).
Proof.
  intros s s'. split; [done|]. intros [Hget _]. vm_compute in Hget. discriminate.
Qed.

(** C5, amended: on a label map whose pointers are alive and whose objects
    carry their keys as labels, [AddPixel(idx, label)] with a label that is
    not the background value returns, after which [HasLabel(label)] is true
    and the object stored under the label contains the position; moreover
    [GetPixel(idx)] is the label provided that no object stored under a
    smaller label contained the position. *)
Theorem AddPixel_round_trip s idx label :
  consistent s → label ≠ background s →
  ∃ s', AddPixel idx label s = (Ret tt, s')
    ∧ HasLabel label s' = true
    ∧ owns s' label idx
    ∧ ((∀ k, k < label → ¬ owns s k idx) →
       GetPixel idx s' = (Ret label, s')).
Proof.
  intros Hc Hbg.
  destruct (AddPixel_spec s idx label Hc Hbg)
    as (s' & Hrun & Hc' & Hbg' & Hkeys' & Hview').
  assert (owns s' label idx) as Howns.
  { apply owns_view; [apply Hc'|]. eexists. rewrite Hview'.
    rewrite decide_True by done. split; [done|]. simpl. set_solver. }
  exists s'. split_and!; [done| |done|].
  - unfold HasLabel. case_decide; [done|]. apply bool_decide_eq_true_2.
    fold (container s').
    apply not_eq_None_Some, find_is_Some_keys, Hkeys'. by left.
  - intros Hsmall. apply GetPixel_smallest; [done|done|].
    intros k Hk (o & Hview & Hin)%owns_view; [|apply Hc'].
    rewrite Hview' in Hview. rewrite decide_False in Hview by lia.
    apply (Hsmall k Hk). apply owns_view; [apply Hc|]. eauto.
Qed.

Lemma AddPixel_round_trip_witness :
  let s := snd (AddPixel [0; 0] 1 (LabelMap_ctor ∅)) in
  ∃ s', AddPixel [3; 4] 2 s = (Ret tt, s')
    ∧ HasLabel 2 s' = true
    ∧ owns s' 2 [3; 4]
    ∧ ((∀ k, k < 2 → ¬ owns s k [3; 4]) →
       GetPixel [3; 4] s' = (Ret 2, s')).
Proof.
  intros s. apply (AddPixel_round_trip s [3; 4] 2); [|done].
  assert (container s = [(1, 1%positive)]) as Hc by done.
  split; unfold Container.sorted, valid_pointers, I2, stored; rewrite Hc.
  - repeat constructor.
  - intros k a Hst. apply list_elem_of_singleton in Hst. simplify_eq.
    by eexists.
  - intros k a o Hst Ho. apply list_elem_of_singleton in Hst. simplify_eq.
    vm_compute in Ho. by simplify_eq.
Defined.

Section SetPixelOnly.
Implicit Types (s : State) (k : Z) (a : addr) (o : LabelObject).

Lemma one_owner_I3 s : consistent s → one_owner s → I3 s.
Proof.
  intros Hc Hone idx k1 a1 k2 a2 Hst1 Hst2 Hc1 Hc2.
  assert (k1 = k2) as <-.
  { apply (Hone idx); [by exists a1|by exists a2]. }
  split; [done|].
  apply (elem_of_find _ _ _ (consistent_sorted _ Hc)) in Hst1, Hst2.
  congruence.
Qed.

(** What [SetPixel] does to the owners of the positions. *)
Lemma SetPixel_owns s idx iLabel :
  consistent s → I1 s →
  ∃ s', SetPixel idx iLabel s = (Ret tt, s')
    ∧ consistent s' ∧ I1 s'
    ∧ background s' = background s
    ∧ (∀ k, k ≠ iLabel → ¬ owns s' k idx)
    ∧ (iLabel ≠ background s → owns s' iLabel idx)
    ∧ (∀ k q, q ≠ idx → owns s' k q → owns s k q).
Proof.
  intros Hc HI1.
  destruct (SetPixel_spec s idx iLabel Hc HI1)
    as (s' & Hrun & Hc' & HI1' & Hbg' & Hview').
  pose proof (consistent_sorted _ Hc) as Hs.
  pose proof (consistent_sorted _ Hc') as Hs'.
  exists s'. split_and!; try done.
  - intros k Hk (o & Hview & Hin)%owns_view; [|done].
    rewrite Hview' in Hview. rewrite decide_False in Hview by done.
    destruct (view s k) as [o0|]; [simpl in Hview|done].
    apply evict_Some in Hview as (_ & Hr & _). rewrite Hr in Hin. set_solver.
  - intros Hbg. apply owns_view; [done|]. eexists. rewrite Hview'.
    rewrite decide_True by done. rewrite decide_False by done.
    split; [done|].
    simpl. set_solver.
  - intros k q Hq (o & Hview & Hin)%owns_view; [|done].
    apply owns_view; [done|]. rewrite Hview' in Hview.
    destruct (decide (k = iLabel)) as [->|].
    + destruct (decide (iLabel = background s)); [done|].
      injection Hview as <-. simpl in Hin.
      destruct (view s iLabel) as [o0|]; simpl in Hin.
      * exists o0. split; [done|]. set_solver.
      * set_solver.
    + destruct (view s k) as [o0|]; [simpl in Hview|done].
      apply evict_Some in Hview as (_ & Hr & _). rewrite Hr in Hin.
      exists o0. split; [done|]. set_solver.
Qed.

Lemma SetPixel_one_owner s idx iLabel :
  consistent s → I1 s → one_owner s →
  one_owner (snd (SetPixel idx iLabel s)).
Proof.
  intros Hc HI1 Hone.
  destruct (SetPixel_owns s idx iLabel Hc HI1)
    as (s' & -> & _ & _ & _ & Hother & _ & Hframe).
  simpl. intros q k1 k2 H1 H2. destruct (decide (q = idx)) as [->|Hq].
  - destruct (decide (k1 = iLabel)) as [->|]; [|by destruct (Hother k1)].
    destruct (decide (k2 = iLabel)) as [->|]; [done|by destruct (Hother k2)].
  - apply (Hone q); by apply Hframe.
Qed.

Lemma run_SetPixel {LT : NumericTraits} (pixels : list (IndexType * Z)) :
  ∀ s, consistent s → I1 s → one_owner s →
    let s' := run ((λ p, CallSetPixel p.1 p.2) <$> pixels) s in
    consistent s' ∧ I1 s' ∧ one_owner s'.
Proof.
  induction pixels as [|[idx iLabel] pixels IH]; intros s Hc HI1 Hone; [done|].
  simpl. pose proof (SetPixel_one_owner s idx iLabel Hc HI1 Hone) as Hone'.
  destruct (SetPixel_spec s idx iLabel Hc HI1) as (s' & Hrun & Hc' & HI1' & _).
  rewrite Hrun in Hone' |- *. by apply IH.
Qed.
End SetPixelOnly.

(** C2: whatever sequence of [SetPixel] calls is made on a freshly
    constructed label map, no position belongs to two stored objects; and
    every further call [SetPixel(idx, iLabel)] returns, leaves the position
    in no object stored under another label, and puts it in the object
    stored under [iLabel], unless this is the background value. *)
Theorem SetPixel_disjoint {LT : NumericTraits} h (pixels : list (IndexType * Z)) :
  let s := run ((λ p, CallSetPixel p.1 p.2) <$> pixels) (LabelMap_ctor h) in
  I3 s
  ∧ ∀ idx iLabel,
      ∃ s', SetPixel idx iLabel s = (Ret tt, s')
        ∧ (∀ k, k ≠ iLabel → ¬ owns s' k idx)
        ∧ (iLabel ≠ background s → owns s' iLabel idx)
        ∧ I3 s'.
Proof.
  intros s.
  destruct (run_SetPixel pixels (LabelMap_ctor h)) as (Hc & HI1 & Hone).
  - apply well_formed_LabelMap_ctor.
  - apply I1_LabelMap_ctor.
  - intros idx k1 k2 (a & Hst & _). by apply elem_of_nil in Hst.
  - fold s in Hc, HI1, Hone. split; [by apply one_owner_I3|].
    intros idx iLabel.
    pose proof (SetPixel_one_owner s idx iLabel Hc HI1 Hone) as Hone'.
    destruct (SetPixel_owns s idx iLabel Hc HI1)
      as (s' & Hrun & Hc' & _ & _ & Hother & Hthis & _).
    rewrite Hrun in Hone'. exists s'. split_and!; try done.
    by apply one_owner_I3.
Qed.

(** C3 as stated fails: [AddLabelObject] stores an object whose label is the
    background value under that value. *)
Lemma background_key_counterexample :
  let o := {| m_Label := 0; m_Region := {[ [0; 0] ]} |} in
  let h : gmap addr LabelObject := {[ 1%positive := o ]} in
  ¬ I1 (run (LT := UnsignedChar) [CallAddLabelObject (Some 1%positive)]
          (LabelMap_ctor h)).
Proof. intros o h HI1. apply HI1. vm_compute. left. Qed.

(** C3, amended: starting from a freshly constructed label map, the
    background value is no key of the container after any sequence of calls
    of [AddPixel], [SetPixel], [SetLine], [RemovePixel], [RemoveLabel] and
    [ClearLabels], of [AddLabelObject] with an object whose label is not the
    background value, of [PushLabelObject] when it finds a label for the
    object, and of [Graft] from a source that has no object under its own
    background value. *)
Theorem background_never_key {LT : NumericTraits} h calls :
  admissible respects_background calls (LabelMap_ctor h) →
  I1 (run calls (LabelMap_ctor h)).
Proof. intros Hadm. apply I1_run; [done|apply I1_LabelMap_ctor]. Qed.

Lemma background_never_key_witness :
  let o := {| m_Label := 0; m_Region := {[ [7; 7] ]} |} in
  let h : gmap addr LabelObject := {[ 1%positive := o ]} in
  I1 (run (LT := UnsignedChar)
        [CallAddPixel [0; 0] 1; CallPushLabelObject (Some 1%positive);
         CallSetPixel [0; 0] 3; CallAddLabelObject (Some 1%positive);
         CallRemoveLabel 1; CallSetLine [0; 1] 4 1]
        (LabelMap_ctor h)).
Proof.
  intros o h. apply (background_never_key (LT := UnsignedChar)).
  vm_compute. repeat split; discriminate.
Defined.

(** C6 as stated fails: [AddLabelObject] stores an empty object. *)
Lemma empty_object_counterexample :
  let o := {| m_Label := 1; m_Region := ∅ |} in
  let h : gmap addr LabelObject := {[ 1%positive := o ]} in
  ¬ I4 (run (LT := UnsignedChar) [CallAddLabelObject (Some 1%positive)]
          (LabelMap_ctor h)).
Proof.
  intros o h HI4. apply (HI4 1 1%positive o); [left|done|done].
Qed.

(** C6, amended: starting from a freshly constructed label map, every stored
    object is non-empty after any sequence of calls of [AddPixel],
    [SetPixel], [RemovePixel], [RemoveLabel] and [ClearLabels], of
    [AddLabelObject] with a non-empty object whose label is not the
    background value, of [PushLabelObject] with a non-empty object that is
    not in the container and for which it finds a label, of [SetLine] with a
    positive length, and of [Graft] from a well-formed source.  In such a
    state, when [RemovePixel] removes the only position of an object, the
    object is deleted from the container in the same call. *)
Theorem stored_objects_nonempty {LT : NumericTraits} h calls :
  admissible respects_invariants calls (LabelMap_ctor h) →
  let s := run calls (LabelMap_ctor h) in
  I4 s
  ∧ ∀ idx label o,
      view s label = Some o → m_Region o = {[ idx ]} →
      ∃ s', RemovePixel idx label s = (Ret tt, s')
        ∧ (label ∉ Container.keys (container s'))
        ∧ I4 s'.
Proof.
  intros Hadm s.
  assert (well_formed s) as Hwf.
  { apply well_formed_run; [done|apply well_formed_LabelMap_ctor]. }
  split; [apply Hwf|]. intros idx label o Hview Hregion.
  pose proof (well_formed_RemovePixel s idx label Hwf) as Hwf'.
  destruct (RemovePixel_spec s idx label (wf_consistent _ Hwf) (wf_I1 _ Hwf))
    as (s' & Hrun & Hc' & _ & _ & Hview').
  rewrite Hrun in Hwf'. exists s'. split_and!; [done| |apply Hwf'].
  apply view_None; [apply Hc'|]. rewrite Hview'. rewrite decide_True by done.
  rewrite Hview. simpl. by apply evict_None.
Qed.

Lemma stored_objects_nonempty_witness :
  let o := {| m_Label := 0; m_Region := {[ [7; 7] ]} |} in
  let h : gmap addr LabelObject := {[ 1%positive := o ]} in
  let s := run (LT := UnsignedChar)
             [CallAddPixel [0; 0] 1; CallPushLabelObject (Some 1%positive);
              CallSetPixel [0; 0] 3; CallSetLine [0; 1] 4 1;
              CallRemovePixel [7; 7] 2]
             (LabelMap_ctor h) in
  I4 s.
Proof.
  intros o h s.
  apply (stored_objects_nonempty (LT := UnsignedChar) h
           [CallAddPixel [0; 0] 1; CallPushLabelObject (Some 1%positive);
            CallSetPixel [0; 0] 3; CallSetLine [0; 1] 4 1;
            CallRemovePixel [7; 7] 2]).
  vm_compute. repeat split; try discriminate.
  intros Hin. apply list_elem_of_singleton in Hin. discriminate.
Defined.
(** C4, the code at the failing input: the label map holds all the labels
    but the background value, so that the search finds no unused label; yet
    [PushLabelObject] returns, and stores the object under the stale label
    of the object, here the background value. *)
Theorem PushLabelObject_full_map :
  GetLabels full_map = seqZ 1 255
  ∧ background full_map = 0
  ∧ heap full_map !! 1%positive = Some new_object
  ∧ pushed_label (LT := UnsignedChar) 0 (container full_map) = None
  ∧ fst (PushLabelObject (LT := UnsignedChar) (Some 1%positive) full_map)
    = Ret tt
  ∧ GetLabels
      (snd (PushLabelObject (LT := UnsignedChar) (Some 1%positive) full_map))
    = 0 :: seqZ 1 255.
Proof. vm_compute. done. Qed.


(** * Further properties of the methods *)

(** ** Access by label and by ordinal *)

Lemma GetLabelObject_eq s label :
  GetLabelObject label s
  = (if decide (background s = label) then Throw BackgroundLabelAccess
     else match Container.find label (container s) with
          | Some a => Ret a
          | None => Throw LabelNotFound
          end, s).
Proof.
  unfold GetLabelObject, background, container. msimpl.
  case_decide; [done|]. by destruct (Container.find _ _).
Qed.

Lemma GetNthLabelObject_loop_lookup pos c :
  ∀ i s, (i ≤ pos)%nat →
    GetNthLabelObject_loop i pos c s
    = match (snd <$> c) !! (pos - i)%nat with
      | Some a => (Ret a, s)
      | None => (Throw IndexOutOfRange, s)
      end.
Proof.
  induction c as [|[k a] c IH]; intros i s Hle; [done|].
  simpl GetNthLabelObject_loop. case_decide.
  - subst i. by rewrite Nat.sub_diag.
  - rewrite IH by lia. replace (pos - i)%nat with (S (pos - S i)) by lia. done.
Qed.

Lemma erase_assign c k a :
  k ∉ Container.keys c → Container.erase k (Container.assign k a c) = c.
Proof.
  induction c as [|[k1 a1] c IH]; intros Hn.
  - simpl. by destruct (decide (k = k)).
  - rewrite keys_cons in Hn. simpl.
    destruct (decide (k < k1)); [|destruct (decide (k = k1)); [tauto|]]; simpl.
    + destruct (decide (k = k)); [|done].
      destruct (decide (k1 = k)); [lia|]. f_equal. apply erase_absent. tauto.
    + destruct (decide (k1 = k)); [done|]. f_equal. apply IH. tauto.
Qed.

Lemma length_assign c k a :
  Container.sorted c →
  length (Container.assign k a c)
  = if decide (k ∈ Container.keys c) then length c else S (length c).
Proof.
  induction c as [|[k1 a1] c IH]; intros Hs.
  - destruct (decide (k ∈ Container.keys [])) as [Hin|]; [|done].
    by apply elem_of_nil in Hin.
  - apply sorted_cons_inv in Hs as [Hs Hlt]. specialize (IH Hs).
    destruct (decide (k ∈ Container.keys ((k1, a1) :: c))) as [Hin|Hin];
      rewrite keys_cons in Hin; cbn [Container.assign];
      (destruct (decide (k < k1)); [|destruct (decide (k = k1)) as [->|]]);
      cbn [length]; try done.
    + destruct Hin as [->|Hin]; [lia|]. specialize (Hlt _ Hin). lia.
    + rewrite IH. rewrite decide_True by tauto. done.
    + tauto.
    + rewrite IH. rewrite decide_False by tauto. done.
Qed.

(** X1: [GetNthLabelObject(pos)] returns the object at the ordinal [pos] of
    [GetLabelObjects()], and fails with [IndexOutOfRange] exactly when [pos]
    is at least the number of label objects.  The object it returns is
    stored under the label at the same ordinal of [GetLabels()]; in a sorted
    container it is the object that [GetLabelObject] returns for that label,
    unless the label is the background value. *)
Theorem GetNthLabelObject_outcome s pos :
  GetNthLabelObject pos s
  = match GetLabelObjects s !! pos with
    | Some a => (Ret a, s)
    | None => (Throw IndexOutOfRange, s)
    end
  ∧ (GetNthLabelObject pos s = (Throw IndexOutOfRange, s)
     ↔ (GetNumberOfLabelObjects s ≤ pos)%nat)
  ∧ (∀ a, GetNthLabelObject pos s = (Ret a, s) →
          ∃ label, GetLabels s !! pos = Some label ∧ stored s label a
                   ∧ (Container.sorted (container s) →
                      label ≠ background s →
                      GetLabelObject label s = (Ret a, s))).
Proof.
  assert (GetNthLabelObject pos s
          = match GetLabelObjects s !! pos with
            | Some a => (Ret a, s)
            | None => (Throw IndexOutOfRange, s)
            end) as Heq.
  { unfold GetNthLabelObject. erewrite bind_Ret by reflexivity.
    rewrite GetNthLabelObject_loop_lookup by lia. by rewrite Nat.sub_0_r. }
  split; [done|]. rewrite Heq.
  unfold GetLabelObjects, GetLabels, GetNumberOfLabelObjects.
  fold (container s). rewrite !list_lookup_fmap.
  destruct (container s !! pos) as [[label a]|] eqn:Hpos;
    unfold LabelObjectContainerType in *; rewrite ?Hpos; simpl.
  - split.
    + split; [done|]. intros Hle. apply lookup_lt_Some in Hpos. lia.
    + intros ? [= <-]. exists label.
      assert (stored s label a) as Hst.
      { unfold stored. by eapply list_elem_of_lookup_2. }
      split_and!; [done|done|]. intros Hs Hbg.
      rewrite GetLabelObject_eq. rewrite decide_False by done.
      by rewrite (elem_of_find _ _ _ Hs Hst).
  - split; [|done]. split; [|done]. intros _. by apply lookup_ge_None.
Qed.

(** X2: [HasLabel(label)] is true exactly when the label is the background
    value or one of [GetLabels()], that is, when it is the background value
    or [GetLabelObject(label)] returns an object: the background value has
    the label although [GetLabelObject] throws for it. *)
Theorem HasLabel_iff s label :
  (HasLabel label s = true
   ↔ label = background s ∨ label ∈ GetLabels s)
  ∧ (HasLabel label s = true
     ↔ label = background s ∨ ∃ a, GetLabelObject label s = (Ret a, s))
  ∧ HasLabel (background s) s = true
  ∧ GetLabelObject (background s) s = (Throw BackgroundLabelAccess, s).
Proof.
  assert (∀ l, HasLabel l s = true
               ↔ l = background s ∨ l ∈ Container.keys (container s)) as H1.
  { intros l. unfold HasLabel. fold (background s) (container s).
    destruct (decide (l = background s)); [naive_solver|].
    rewrite bool_decide_eq_true, not_eq_None_Some, find_is_Some_keys.
    naive_solver. }
  split_and!.
  - apply H1.
  - rewrite H1, GetLabelObject_eq, <- find_is_Some_keys.
    destruct (decide (background s = label)); [naive_solver|].
    destruct (Container.find label (container s)) as [a|].
    + split; intros _; right; eauto.
    + split; intros [?|[a Ha]]; done.
  - apply H1. by left.
  - rewrite GetLabelObject_eq. by rewrite decide_True.
Qed.

(** X3: [RemoveLabel(label)] with a label that is not the background value
    returns and calls [Modified()] once; afterwards [HasLabel(label)] is
    false and [GetLabelObject(label)] fails with [LabelNotFound], every other
    label gives the object it gave before, and the objects themselves are
    left as they are.  [RemoveLabel] of the background value throws and
    changes nothing. *)
Theorem RemoveLabel_effect s label :
  label ≠ background s →
  ∃ s', RemoveLabel label s = (Ret tt, s')
    ∧ HasLabel label s' = false
    ∧ GetLabelObject label s' = (Throw LabelNotFound, s')
    ∧ (∀ l, l ≠ label →
            GetLabelObject l s' = (fst (GetLabelObject l s), s'))
    ∧ heap s' = heap s
    ∧ background s' = background s
    ∧ m_MTime (this s') = S (m_MTime (this s))
    ∧ RemoveLabel (background s) s = (Throw BackgroundLabelAccess, s).
Proof.
  intros Hbg.
  exists (modified (with_container (Container.erase label (container s)) s)).
  split; [by apply RemoveLabel_eq|].
  split_and!; try done.
  - unfold HasLabel. simpl. fold (background s).
    rewrite decide_False by done. apply bool_decide_eq_false_2.
    rewrite find_erase_eq. by intros [].
  - rewrite GetLabelObject_eq. fields. rewrite decide_False by done.
    by rewrite find_erase_eq.
  - intros l Hl. rewrite !GetLabelObject_eq. fields. simpl.
    by rewrite find_erase_ne.
  - apply RemoveLabel_background.
Qed.

Lemma RemoveLabel_effect_witness :
  let s := snd (AddPixel [0; 0] 1 (LabelMap_ctor ∅)) in
  ∃ s', RemoveLabel 1 s = (Ret tt, s')
    ∧ HasLabel 1 s' = false
    ∧ GetLabelObject 1 s' = (Throw LabelNotFound, s')
    ∧ (∀ l, l ≠ 1 → GetLabelObject l s' = (fst (GetLabelObject l s), s'))
    ∧ heap s' = heap s
    ∧ background s' = background s
    ∧ m_MTime (this s') = S (m_MTime (this s))
    ∧ RemoveLabel (background s) s = (Throw BackgroundLabelAccess, s).
Proof. intros s. apply (RemoveLabel_effect s 1). vm_compute. discriminate. Defined.

(** ** Insertion and removal by label *)

Lemma erase_assign_eq c k a :
  Container.erase k (Container.assign k a c) = Container.erase k c.
Proof.
  induction c as [|[k1 a1] c IH]; simpl.
  - by destruct (decide (k = k)).
  - destruct (decide (k < k1)); [|destruct (decide (k = k1)) as [->|]]; simpl.
    + by destruct (decide (k = k)).
    + by destruct (decide (k1 = k1)).
    + destruct (decide (k1 = k)); [done|]. by rewrite IH.
Qed.

(** X4: [AddLabelObject] with a live object returns, stores the object under
    the label of the object and calls [Modified()] once.  Afterwards
    [HasLabel] holds for that label and [GetLabelObject] returns the object
    for it, in place of the object stored under it before, unless the label
    is the background value: then the object is stored, but
    [GetLabelObject] throws for its label.  Every other label gives the
    object it gave before.  In a sorted container the number of label objects
    grows by one exactly when the label was no key.  A NULL pointer is
    refused with [NullArgument] and nothing changes. *)
Theorem AddLabelObject_effect s a o :
  heap s !! a = Some o →
  ∃ s', AddLabelObject (Some a) s = (Ret tt, s')
    ∧ Container.find (m_Label o) (container s') = Some a
    ∧ HasLabel (m_Label o) s' = true
    ∧ GetLabelObject (m_Label o) s'
      = (if decide (background s = m_Label o) then Throw BackgroundLabelAccess
         else Ret a, s')
    ∧ (∀ l, l ≠ m_Label o →
            GetLabelObject l s' = (fst (GetLabelObject l s), s'))
    ∧ (Container.sorted (container s) →
       GetNumberOfLabelObjects s'
       = if decide (m_Label o ∈ GetLabels s) then GetNumberOfLabelObjects s
         else S (GetNumberOfLabelObjects s))
    ∧ heap s' = heap s
    ∧ background s' = background s
    ∧ m_MTime (this s') = S (m_MTime (this s))
    ∧ AddLabelObject None s = (Throw NullArgument, s).
Proof.
  intros Ho.
  exists (modified (with_container
                      (Container.assign (m_Label o) a (container s)) s)).
  split; [by apply AddLabelObject_Some|].
  split_and!; try done.
  - fields. apply find_assign_eq.
  - unfold HasLabel. simpl. case_decide; [done|].
    apply bool_decide_eq_true_2. by rewrite find_assign_eq.
  - rewrite GetLabelObject_eq. fields. by rewrite find_assign_eq.
  - intros l Hl. rewrite !GetLabelObject_eq. fields. simpl.
    by rewrite find_assign_ne.
  - intros Hs. unfold GetNumberOfLabelObjects, GetLabels. simpl.
    fold (container s). by apply length_assign.
Qed.

Lemma AddLabelObject_effect_witness :
  let o := {| m_Label := 4; m_Region := {[ [1; 2] ]} |} in
  let s := LabelMap_ctor {[ 1%positive := o ]} in
  ∃ s', AddLabelObject (Some 1%positive) s = (Ret tt, s')
    ∧ GetLabelObject 4 s' = (Ret 1%positive, s')
    ∧ GetNumberOfLabelObjects s' = 1%nat.
Proof.
  intros o s.
  destruct (AddLabelObject_effect s 1%positive o eq_refl)
    as (s' & Hrun & _ & _ & Hget & _ & Hn & _).
  exists s'. split_and!; [done|exact Hget|]. by rewrite Hn by constructor.
Defined.

(** X5: [RemoveLabel] after [AddLabelObject], for an object whose label is
    not the background value: both calls return, and the container is the
    one before the two calls without the label.  So the two calls leave the
    container as it was when the label was no key; when it was one, the
    object stored under it before is not restored.  The objects are left as
    they are, and [Modified()] has been called twice. *)
Theorem AddLabelObject_RemoveLabel s a o :
  heap s !! a = Some o → m_Label o ≠ background s →
  ∃ s1 s2,
    AddLabelObject (Some a) s = (Ret tt, s1)
    ∧ RemoveLabel (m_Label o) s1 = (Ret tt, s2)
    ∧ container s2 = Container.erase (m_Label o) (container s)
    ∧ (m_Label o ∉ GetLabels s → container s2 = container s)
    ∧ heap s2 = heap s
    ∧ background s2 = background s
    ∧ m_MTime (this s2) = S (S (m_MTime (this s))).
Proof.
  intros Ho Hbg. eexists _, _. split; [by apply AddLabelObject_Some|].
  split; [by apply RemoveLabel_eq|]. fields. simpl.
  rewrite erase_assign_eq. split_and!; try done.
  intros Hn. by apply erase_absent.
Qed.

Lemma AddLabelObject_RemoveLabel_witness :
  let o := {| m_Label := 4; m_Region := {[ [1; 2] ]} |} in
  let s := snd (AddPixel [0; 0] 1 (LabelMap_ctor {[ 1%positive := o ]})) in
  ∃ s1 s2,
    AddLabelObject (Some 1%positive) s = (Ret tt, s1)
    ∧ RemoveLabel 4 s1 = (Ret tt, s2)
    ∧ container s2 = container s.
Proof.
  intros o s.
  destruct (AddLabelObject_RemoveLabel s 1%positive o)
    as (s1 & s2 & H1 & H2 & _ & Hc & _); [done|vm_compute; discriminate|].
  exists s1, s2. split_and!; [done|done|]. apply Hc.
  vm_compute. intros Hin. apply list_elem_of_singleton in Hin. discriminate.
Defined.

(** ** The owners of the positions *)

Lemma owns_keys s k idx : owns s k idx → k ∈ Container.keys (container s).
Proof. intros (a & Hst & _). apply elem_of_keys. eauto. Qed.

Lemma owns_not_background s idx : I1 s → ¬ owns s (background s) idx.
Proof. intros HI1 Howns. by apply HI1, (owns_keys _ _ idx). Qed.

Lemma owns_same s s' k q :
  Container.sorted (container s) → Container.sorted (container s') →
  view s' k = view s k → owns s' k q ↔ owns s k q.
Proof. intros Hs Hs' Hview. rewrite !owns_view by done. by rewrite Hview. Qed.

Lemma owns_evict s s' k idx q :
  Container.sorted (container s) → Container.sorted (container s') →
  view s' k = view s k ≫= evict idx →
  owns s' k q ↔ owns s k q ∧ q ≠ idx.
Proof.
  intros Hs Hs' Hview. rewrite !owns_view by done. rewrite Hview.
  destruct (view s k) as [o|]; simpl; [|naive_solver].
  split.
  - intros (o' & He & Hq). apply evict_Some in He as (_ & Hr & _).
    rewrite Hr in Hq. split; [exists o|]; set_solver.
  - intros [(? & [= <-] & Hq) Hne].
    destruct (evict idx o) as [o'|] eqn:He.
    + exists o'. split; [done|]. apply evict_Some in He as (_ & -> & _).
      set_solver.
    + apply evict_None in He. set_solver.
Qed.

Lemma owns_AddIndex s s' k idx q :
  Container.sorted (container s) → Container.sorted (container s') →
  view s' k
  = Some (LabelObj.AddIndex idx (default (fresh_object k) (view s k))) →
  owns s' k q ↔ owns s k q ∨ q = idx.
Proof.
  intros Hs Hs' Hview. rewrite !owns_view by done. rewrite Hview.
  destruct (view s k) as [o|]; simpl.
  - split.
    + intros (? & [= <-] & Hq). simpl in Hq.
      apply elem_of_union in Hq as [Hq|Hq]; [left; eauto|right; set_solver].
    + intros Hq. eexists. split; [done|]. simpl.
      destruct Hq as [(? & [= <-] & Hq)| ->]; set_solver.
  - split.
    + intros (? & [= <-] & Hq). simpl in Hq. right. set_solver.
    + intros [(? & [=] & _)| ->]. eexists. split; [done|]. simpl. set_solver.
Qed.

(** ** GetPixel *)

(** [GetPixel] returns the smallest label whose object contains the
    position, and the background value when there is none. *)
Lemma GetPixel_cases s idx :
  consistent s →
  (∃ l, owns s l idx ∧ (∀ k, owns s k idx → l ≤ k)
        ∧ GetPixel idx s = (Ret l, s))
  ∨ ((∀ k, ¬ owns s k idx) ∧ GetPixel idx s = (Ret (background s), s)).
Proof.
  intros [Hs Hv HI2]. unfold GetPixel.
  erewrite bind_Ret by reflexivity. fold (container s).
  destruct (first_or_none s idx (container s) Hv)
    as [(pre & k & a & o & post & Hcont & Ho & Hidx & Hpre)|Hnone].
  - left. exists k.
    assert (stored s k a) as Hst.
    { unfold stored. rewrite Hcont. apply elem_of_app. right. left. }
    split_and!.
    + exists a. split; [done|]. by exists o.
    + intros k' (a' & Hst' & Hc'). unfold stored in Hst'.
      rewrite Hcont in Hs, Hst'. by eapply first_smallest.
    + rewrite <- (HI2 _ _ _ Hst Ho). rewrite Hcont.
      by apply GetPixel_loop_first.
  - right. split; [|by apply GetPixel_loop_none].
    intros k (a & Hst & Hc). by eapply misses_not_contains.
Qed.

Lemma GetPixel_ext s s' q :
  consistent s → consistent s' → background s' = background s →
  (∀ k, owns s' k q ↔ owns s k q) →
  GetPixel q s' = (fst (GetPixel q s), s').
Proof.
  intros Hc Hc' Hbg Hiff.
  destruct (GetPixel_cases s q Hc) as [(l & Ho & Hmin & ->)|[Hno ->]];
    destruct (GetPixel_cases s' q Hc') as [(l' & Ho' & Hmin' & ->)|[Hno' ->]];
    simpl.
  - assert (l ≤ l') by (by apply Hmin, Hiff).
    assert (l' ≤ l) by (by apply Hmin', Hiff).
    by assert (l' = l) as -> by lia.
  - by destruct (Hno' l); apply Hiff.
  - by destruct (Hno l'); apply Hiff.
  - by rewrite Hbg.
Qed.

(** X6: on a label map whose pointers are alive and whose objects carry
    their keys as labels, [GetPixel] returns without changing anything.
    When some stored object contains the position, the result is the
    smallest label with such an object; when none does, it is the background
    value.  In both cases [HasLabel] holds for the result; and when the
    result is not the background value, [GetLabelObject] with the result
    gives the very object that [GetLabelObject] with the position gives. *)
Theorem GetPixel_outcome s idx :
  consistent s →
  ∃ l, GetPixel idx s = (Ret l, s)
    ∧ ((∃ k, owns s k idx) → owns s l idx ∧ ∀ k, owns s k idx → l ≤ k)
    ∧ ((∀ k, ¬ owns s k idx) → l = background s)
    ∧ HasLabel l s = true
    ∧ (l ≠ background s →
       ∃ a, GetLabelObject_idx idx s = (Ret a, s)
            ∧ GetLabelObject l s = (Ret a, s)).
Proof.
  intros Hc. pose proof Hc as [Hs Hv HI2].
  assert (∀ l, owns s l idx → HasLabel l s = true) as Hhas.
  { intros l Ho%owns_keys. unfold HasLabel. case_decide; [done|].
    apply bool_decide_eq_true_2. fold (container s).
    by apply not_eq_None_Some, find_is_Some_keys. }
  destruct (GetPixel_cases s idx Hc) as [(l & Ho & Hmin & Hget)|[Hno Hget]].
  - exists l. split_and!; [done|done|by intros Hn; destruct (Hn l)|by apply Hhas|].
    intros Hbg. destruct Ho as (a & Hst & Hca). exists a. split.
    + destruct (first_or_none s idx (container s) Hv)
        as [(pre & k & a' & o & post & Hcont & Ho & Hidx & Hpre)|Hnone].
      * assert (stored s k a') as Hst'.
        { unfold stored. rewrite Hcont. apply elem_of_app. right. left. }
        assert (l ≤ k).
        { apply Hmin. exists a'. split; [done|]. by exists o. }
        assert (k ≤ l).
        { unfold stored in Hst. rewrite Hcont in Hs, Hst.
          by eapply first_smallest. }
        assert (k = l) as -> by lia.
        apply (elem_of_find _ _ _ Hs) in Hst, Hst'. simplify_eq.
        unfold GetLabelObject_idx. erewrite bind_Ret by reflexivity.
        fold (container s). rewrite Hcont.
        by eapply GetLabelObject_idx_loop_first.
      * by destruct (misses_not_contains _ _ _ _ _ Hnone Hst).
    + rewrite GetLabelObject_eq. rewrite decide_False by done.
      by rewrite (elem_of_find _ _ _ Hs Hst).
  - exists (background s). split_and!; try done.
    + intros [k Hk]. by destruct (Hno k).
    + unfold HasLabel. by rewrite decide_True.
Qed.

Lemma GetPixel_outcome_witness :
  let s := snd (AddPixel [0; 0] 2 (snd (AddPixel [0; 0] 1 (LabelMap_ctor ∅)))) in
  GetPixel [0; 0] s = (Ret 1, s) ∧ GetPixel [7; 7] s = (Ret 0, s).
Proof.
  intros s.
  assert (consistent s) as Hc.
  { apply wf_consistent. do 2 apply well_formed_AddPixel.
    apply well_formed_LabelMap_ctor. }
  split.
  - destruct (GetPixel_outcome s [0; 0] Hc) as (l & Hget & _).
    rewrite Hget. vm_compute in Hget. by simplify_eq.
  - destruct (GetPixel_outcome s [7; 7] Hc) as (l & Hget & _).
    rewrite Hget. vm_compute in Hget. by simplify_eq.
Defined.

(** ** The pixel operations and GetPixel *)

(** X7: [SetPixel] makes the label map a dense image.  On a label map
    whose pointers are alive, whose objects carry their keys as labels and
    that has no object under the background value, [SetPixel(idx, label)]
    returns; afterwards [GetPixel(idx)] is [label], also when [label] is the
    background value, [GetPixel] gives for every other position what it gave
    before, and a position other than [idx] is in the object of a label
    exactly when it was before, while [idx] is in the object of [label] and
    of no other label. *)
Theorem SetPixel_GetPixel s idx iLabel :
  consistent s → I1 s →
  ∃ s', SetPixel idx iLabel s = (Ret tt, s')
    ∧ GetPixel idx s' = (Ret iLabel, s')
    ∧ (∀ q, q ≠ idx → GetPixel q s' = (fst (GetPixel q s), s'))
    ∧ (∀ k q, owns s' k q
              ↔ if decide (q = idx) then k = iLabel ∧ iLabel ≠ background s
                else owns s k q).
Proof.
  intros Hc HI1.
  destruct (SetPixel_spec s idx iLabel Hc HI1)
    as (s' & Hrun & Hc' & HI1' & Hbg' & Hview').
  pose proof (consistent_sorted _ Hc) as Hs.
  pose proof (consistent_sorted _ Hc') as Hs'.
  assert (∀ k q, owns s' k q
                 ↔ if decide (q = idx) then k = iLabel ∧ iLabel ≠ background s
                   else owns s k q) as Howns.
  { intros k q. specialize (Hview' k).
    destruct (decide (k = iLabel)) as [->|Hk].
    - destruct (decide (iLabel = background s)) as [Hbg|Hbg].
      + assert (¬ owns s' iLabel q) as Hn'.
        { intros (o & Hv & _)%owns_view; [|done]. congruence. }
        assert (¬ owns s iLabel q) as Hn.
        { rewrite Hbg. by apply owns_not_background. }
        case_decide; tauto.
      + rewrite (owns_AddIndex s s' iLabel idx q) by done.
        case_decide; tauto.
    - rewrite (owns_evict s s' k idx q) by done. case_decide; tauto. }
  exists s'. split_and!; [done| | |done].
  - destruct (decide (iLabel = background s)) as [Hbg|Hbg].
    + destruct (GetPixel_cases s' idx Hc') as [(l & Ho & _)|[_ ->]];
        [|congruence].
      apply Howns in Ho. rewrite decide_True in Ho by done. tauto.
    + apply GetPixel_smallest; [done| |].
      * apply Howns. by rewrite decide_True.
      * intros k Hk Ho. apply Howns in Ho. rewrite decide_True in Ho by done.
        lia.
  - intros q Hq. apply GetPixel_ext; [done|done|done|].
    intros k. rewrite Howns. by rewrite decide_False.
Qed.

Lemma SetPixel_GetPixel_witness :
  let s := snd (AddPixel [0; 0] 2 (snd (AddPixel [0; 0] 1 (LabelMap_ctor ∅)))) in
  ∃ s', SetPixel [0; 0] 2 s = (Ret tt, s')
    ∧ GetPixel [0; 0] s' = (Ret 2, s')
    ∧ ¬ owns s' 1 [0; 0].
Proof.
  intros s.
  assert (well_formed s) as Hwf.
  { do 2 apply well_formed_AddPixel. apply well_formed_LabelMap_ctor. }
  destruct (SetPixel_GetPixel s [0; 0] 2 (wf_consistent _ Hwf) (wf_I1 _ Hwf))
    as (s' & Hrun & Hget & _ & Howns).
  exists s'. split_and!; [done|done|]. rewrite Howns.
  rewrite decide_True by done. intros [[=] _].
Defined.

Lemma owns_LabelMap_ctor h k q : ¬ owns (LabelMap_ctor h) k q.
Proof. intros (a & Hst & _). by apply elem_of_nil in Hst. Qed.

Lemma consistent_LabelMap_ctor h : consistent (LabelMap_ctor h).
Proof. apply wf_consistent, well_formed_LabelMap_ctor. Qed.

Lemma consistent_AddPixel s idx label :
  consistent s → consistent (snd (AddPixel idx label s)).
Proof.
  intros Hc. destruct (decide (label = background s)) as [->|Hbg].
  - by rewrite AddPixel_background.
  - by destruct (AddPixel_spec s idx label Hc Hbg) as (s' & -> & ? & _).
Qed.

(** The owners after [AddPixel]. *)
Lemma AddPixel_owns s idx label k q :
  consistent s → label ≠ background s →
  owns (snd (AddPixel idx label s)) k q
  ↔ owns s k q ∨ (k = label ∧ q = idx).
Proof.
  intros Hc Hbg.
  destruct (AddPixel_spec s idx label Hc Hbg)
    as (s' & -> & Hc' & Hbg' & Hkeys' & Hview').
  pose proof (consistent_sorted _ Hc) as Hs.
  pose proof (consistent_sorted _ Hc') as Hs'.
  simpl. specialize (Hview' k).
  destruct (decide (k = label)) as [->|Hk].
  - rewrite (owns_AddIndex s s' label idx q) by done. tauto.
  - rewrite (owns_same s s' k q) by done. tauto.
Qed.

Lemma AddPixel_it_Some_eq s k a o idx label :
  label ≠ background s →
  Container.find k (container s) = Some a → heap s !! a = Some o →
  AddPixel_it (Some k) idx label s
  = (Ret tt, modified (with_heap
                         (<[a := LabelObj.AddIndex idx o]> (heap s)) s)).
Proof.
  intros Hbg Hf Ho. unfold AddPixel_it, background, container in *. msimpl.
  rewrite decide_False by done. rewrite Hf. msimpl. by rewrite Ho.
Qed.

Lemma AddPixel_MTime s idx label :
  consistent s → label ≠ background s →
  m_MTime (this (snd (AddPixel idx label s))) = S (m_MTime (this s)).
Proof.
  intros Hc Hbg. unfold AddPixel.
  erewrite bind_Ret by reflexivity. fold (background s).
  rewrite decide_False by done.
  erewrite bind_Ret by reflexivity. fold (container s).
  destruct (Container.find label (container s)) as [a|] eqn:Hf.
  - destruct (consistent_valid _ Hc label a) as [o Ho].
    { by apply find_Some_elem_of. }
    rewrite (find_it_Some _ _ _ Hf).
    by rewrite (AddPixel_it_Some_eq s label a o).
  - rewrite (find_it_None _ _ Hf). by rewrite AddPixel_it_None_eq.
Qed.

(** X8: [AddPixel] changes the owners of the positions by one pair and
    leaves the other objects where they are.  On a label map as above,
    [AddPixel(idx, label)] with a label that is not the background value
    returns; afterwards a position is in the object of a label exactly when
    it was before or the pair is [(label, idx)].  No other object loses the
    position, so [GetPixel(idx)] is [label] when it was the background value
    before, and the smaller of [label] and the former result otherwise;
    [GetPixel] gives for every other position what it gave before.
    [Modified()] is called once. *)
Theorem AddPixel_GetPixel s idx label :
  consistent s → I1 s → label ≠ background s →
  ∃ s' l, AddPixel idx label s = (Ret tt, s')
    ∧ (∀ k q, owns s' k q ↔ owns s k q ∨ (k = label ∧ q = idx))
    ∧ GetPixel idx s = (Ret l, s)
    ∧ GetPixel idx s'
      = (Ret (if decide (l = background s) then label else Z.min l label), s')
    ∧ (∀ q, q ≠ idx → GetPixel q s' = (fst (GetPixel q s), s'))
    ∧ m_MTime (this s') = S (m_MTime (this s)).
Proof.
  intros Hc HI1 Hbg.
  pose proof (AddPixel_MTime s idx label Hc Hbg) as Htime.
  destruct (AddPixel_spec s idx label Hc Hbg)
    as (s' & Hrun & Hc' & Hbg' & Hkeys' & Hview').
  pose proof (consistent_sorted _ Hc) as Hs.
  pose proof (consistent_sorted _ Hc') as Hs'.
  assert (∀ k q, owns s' k q ↔ owns s k q ∨ (k = label ∧ q = idx)) as Howns.
  { intros k q. rewrite <- (AddPixel_owns s idx label k q Hc Hbg).
    by rewrite Hrun. }
  assert (∃ l, GetPixel idx s = (Ret l, s)
               ∧ GetPixel idx s'
                 = (Ret (if decide (l = background s) then label
                         else Z.min l label), s')) as (l & Hget & Hget').
  { destruct (GetPixel_cases s idx Hc) as [(l & Ho & Hmin & Hget)|[Hno Hget]].
    - exists l. split; [done|].
      assert (l ≠ background s) as Hl.
      { intros ->. by eapply owns_not_background. }
      rewrite decide_False by done. apply GetPixel_smallest; [done| |].
      + apply Howns. destruct (Z.min_spec l label) as [[_ ->]|[_ ->]]; auto.
      + intros k Hk [Hk'|[-> _]]%Howns; [|lia].
        specialize (Hmin k Hk'). lia.
    - exists (background s). split; [done|]. rewrite decide_True by done.
      apply GetPixel_smallest; [done|apply Howns; auto|].
      intros k Hk [Hk'|[-> _]]%Howns; [by destruct (Hno k)|lia]. }
  exists s', l. split_and!; try done; [|by rewrite Hrun in Htime].
  intros q Hq. apply GetPixel_ext; [done|done|done|].
  intros k. rewrite Howns. naive_solver.
Qed.

Lemma AddPixel_GetPixel_witness :
  let s := snd (AddPixel [0; 0] 2 (LabelMap_ctor ∅)) in
  ∃ s', AddPixel [0; 0] 5 s = (Ret tt, s')
    ∧ GetPixel [0; 0] s' = (Ret 2, s')
    ∧ owns s' 5 [0; 0].
Proof.
  intros s.
  assert (well_formed s) as Hwf.
  { apply well_formed_AddPixel, well_formed_LabelMap_ctor. }
  destruct (AddPixel_GetPixel s [0; 0] 5 (wf_consistent _ Hwf) (wf_I1 _ Hwf))
    as (s' & l & Hrun & Howns & Hget & Hget' & _); [done|].
  exists s'. split_and!; [done| |apply Howns; auto].
  rewrite Hget'. vm_compute in Hget. by simplify_eq.
Defined.

(** ** RemovePixel *)

Lemma sorted_keys_ext (c1 c2 : LabelObjectContainerType) :
  Container.sorted c1 → Container.sorted c2 →
  (∀ k, k ∈ Container.keys c1 ↔ k ∈ Container.keys c2) →
  Container.keys c1 = Container.keys c2.
Proof.
  unfold Container.sorted. intros H1 H2 Hiff.
  assert (∀ l, StronglySorted Z.lt l → NoDup l) as Hnd.
  { induction 1 as [|x l _ IH Hx]; constructor; [|done].
    intros Hin. rewrite Forall_forall in Hx. specialize (Hx _ Hin). lia. }
  apply (StronglySorted_unique_strong Z.lt); [intros; lia|done|done|].
  apply NoDup_Permutation; auto.
Qed.

Lemma HasLabel_view s l :
  valid_pointers s →
  HasLabel l s = true ↔ l = background s ∨ is_Some (view s l).
Proof.
  intros Hv. unfold HasLabel. fold (background s) (container s).
  case_decide; [naive_solver|]. rewrite bool_decide_eq_true.
  rewrite <- not_eq_None_Some, (view_None _ _ Hv), <- find_None_keys.
  naive_solver.
Qed.

Lemma with_heap_id s : with_heap (heap s) s = s.
Proof. by destruct s. Qed.

Lemma RemovePixel_it_miss s k a o idx emit :
  Container.find k (container s) = Some a → heap s !! a = Some o →
  idx ∉ m_Region o →
  RemovePixel_it (Some k) idx emit s = (Ret tt, s).
Proof.
  intros Hf Ho Hin. unfold RemovePixel_it. msimpl. fold (container s).
  rewrite Hf. msimpl. rewrite Ho. msimpl.
  rewrite (bool_decide_eq_false_2 _ Hin). f_equal.
  transitivity (with_heap (heap s) s); [|apply with_heap_id].
  unfold with_heap. f_equal.
  apply insert_id. rewrite Ho. f_equal. destruct o as [l r]. simpl. f_equal.
  set_solver.
Qed.

(** The state after [RemovePixel] through an iterator. *)
Lemma RemovePixel_it_Some_eq s k a o idx emit :
  Container.find k (container s) = Some a → heap s !! a = Some o →
  m_Label o ≠ background s →
  RemovePixel_it (Some k) idx emit s
  = (Ret tt,
     if decide (idx ∈ m_Region o) then
       (if emit then modified else id)
         ((if decide (m_Region o = {[ idx ]}) then
             λ s1, modified
                     (with_container
                        (Container.erase (m_Label o) (container s)) s1)
           else id)
            (with_heap (<[a := (LabelObj.RemoveIndex idx o).2]> (heap s)) s))
     else s).
Proof.
  intros Hf Ho Hbg.
  destruct (decide (idx ∈ m_Region o)) as [Hin|Hin];
    [|by eapply RemovePixel_it_miss].
  unfold RemovePixel_it. msimpl. fold (container s).
  rewrite Hf. msimpl. rewrite Ho. msimpl.
  rewrite (bool_decide_eq_true_2 _ Hin).
  unfold LabelObj.Empty. simpl.
  destruct (decide (m_Region o = {[ idx ]})) as [Heq|Hne].
  - rewrite bool_decide_eq_true_2 by set_solver.
    unfold RemoveLabelObject, RemoveLabel. msimpl.
    rewrite lookup_insert_eq. msimpl.
    rewrite decide_False by (fold (background s); congruence).
    msimpl. by destruct emit.
  - rewrite bool_decide_eq_false_2; [by destruct emit|].
    intros Hempty. apply Hne. apply set_eq. intros x.
    destruct (decide (x = idx)) as [->|]; set_solver.
Qed.

(** X9: [RemovePixel] on a label map whose pointers are alive, whose
    objects carry their keys as labels and that has no object under the
    background value.  The call returns; afterwards a position is in the
    object of a label exactly when it was before and the pair is not
    [(label, idx)], and every other label is present exactly when it was.
    When the object of [label] does not contain [idx] (or there is none, or
    [label] is the background value) nothing changes and [Modified()] is not
    called.  When it contains [idx] and another position, the label stays
    and [Modified()] is called once; when [idx] is its only position, the
    label is removed and [Modified()] is called twice. *)
Theorem RemovePixel_effect s idx label :
  consistent s → I1 s →
  ∃ s', RemovePixel idx label s = (Ret tt, s')
    ∧ (∀ k q, owns s' k q ↔ owns s k q ∧ ¬ (k = label ∧ q = idx))
    ∧ (∀ l, l ≠ label → HasLabel l s' = HasLabel l s)
    ∧ (¬ owns s label idx → s' = s)
    ∧ (owns s label idx → (∃ q, q ≠ idx ∧ owns s label q) →
       HasLabel label s' = true
       ∧ m_MTime (this s') = S (m_MTime (this s)))
    ∧ (owns s label idx → (∀ q, owns s label q → q = idx) →
       HasLabel label s' = false
       ∧ m_MTime (this s') = S (S (m_MTime (this s)))).
Proof.
  intros Hc HI1.
  destruct (RemovePixel_spec s idx label Hc HI1)
    as (s' & Hrun & Hc' & HI1' & Hbg' & Hview').
  pose proof (consistent_sorted _ Hc) as Hs.
  pose proof (consistent_sorted _ Hc') as Hs'.
  pose proof (consistent_valid _ Hc) as Hv.
  pose proof (consistent_valid _ Hc') as Hv'.
  exists s'. split; [done|]. split; [|split].
  { intros k q. specialize (Hview' k).
    destruct (decide (k = label)) as [->|Hk].
    - rewrite (owns_evict s s' label idx q) by done. naive_solver.
    - rewrite (owns_same s s' k q) by done. naive_solver. }
  { intros l Hl.
    assert (HasLabel l s' = true ↔ HasLabel l s = true) as Hiff.
    { rewrite !HasLabel_view by done. rewrite Hbg', Hview'.
      by rewrite decide_False. }
    destruct (HasLabel l s'), (HasLabel l s); naive_solver. }
  destruct (decide (label = background s)) as [->|Hbg].
  { assert (s' = s) as ->.
    { rewrite RemovePixel_background in Hrun. by simplify_eq. }
    split_and!; [done|intros Ho..]; by destruct (owns_not_background s idx). }
  revert Hrun. unfold RemovePixel.
  erewrite bind_Ret by reflexivity. fold (background s).
  rewrite decide_False by done.
  erewrite bind_Ret by reflexivity. fold (container s).
  destruct (Container.find label (container s)) as [a|] eqn:Hf.
  - rewrite (find_it_Some _ _ _ Hf).
    destruct (Hv label a) as [o Ho]; [by apply find_Some_elem_of|].
    assert (view s label = Some o) as Hview by (apply view_Some; eauto).
    pose proof (I2_view _ _ _ Hc Hview) as Hl.
    rewrite (RemovePixel_it_Some_eq s label a o) by (done || congruence).
    assert (∀ q, owns s label q ↔ q ∈ m_Region o) as Howns.
    { intros q. rewrite owns_view by done. rewrite Hview. naive_solver. }
    specialize (Hview' label). rewrite decide_True, Hview in Hview' by done.
    simpl in Hview'.
    destruct (decide (idx ∈ m_Region o)) as [Hin|Hin].
    + intros [= <-]. split; [by rewrite Howns|].
      destruct (decide (m_Region o = {[ idx ]})) as [Heq|Hne].
      * split.
        { intros _ (q & Hq & Hoq). apply Howns in Hoq. set_solver. }
        intros _ _. split; [|done].
        apply not_true_is_false. rewrite HasLabel_view by done.
        rewrite Hbg', Hview'. apply evict_None in Heq.
        rewrite Heq. by intros [?|[? [=]]].
      * split.
        { intros _ _. split; [|done].
          rewrite HasLabel_view by done. right. rewrite Hview'.
          apply not_eq_None_Some. by rewrite evict_None. }
        intros _ Hall. destruct Hne. apply set_eq. intros x.
        rewrite <- Howns. set_solver.
    + intros [= <-]. split; [done|]. by rewrite !Howns.
  - rewrite (find_it_None _ _ Hf). intros [= <-].
    assert (¬ owns s label idx) as Hn.
    { intros Ho%owns_keys. by apply find_None_keys in Hf. }
    by split_and!.
Qed.

Lemma RemovePixel_effect_witness :
  let s := snd (AddPixel [0; 0] 2 (snd (AddPixel [0; 0] 1 (LabelMap_ctor ∅)))) in
  ∃ s', RemovePixel [0; 0] 1 s = (Ret tt, s')
    ∧ HasLabel 2 s' = true
    ∧ ¬ owns s' 1 [0; 0].
Proof.
  intros s.
  assert (well_formed s) as Hwf.
  { do 2 apply well_formed_AddPixel. apply well_formed_LabelMap_ctor. }
  destruct (RemovePixel_effect s [0; 0] 1 (wf_consistent _ Hwf) (wf_I1 _ Hwf))
    as (s' & Hrun & Howns & Hhas & _).
  exists s'. split_and!; [done|by rewrite Hhas|]. rewrite Howns. tauto.
Defined.

(** X10: [RemovePixel] undoes [AddPixel].  On a well-formed label map,
    for a label that is not the background value and whose object, if there
    is one, does not contain [idx] yet: after [AddPixel(idx, label)] and
    [RemovePixel(idx, label)] every label has the object it had before, with
    the positions it had before, so that the labels and the results of
    [GetPixel] are those from before the two calls; a label that was created
    for the position is removed again. *)
Theorem AddPixel_RemovePixel s idx label :
  well_formed s → label ≠ background s → ¬ owns s label idx →
  ∃ s1 s2,
    AddPixel idx label s = (Ret tt, s1)
    ∧ RemovePixel idx label s1 = (Ret tt, s2)
    ∧ (∀ k, view s2 k = view s k)
    ∧ GetLabels s2 = GetLabels s
    ∧ background s2 = background s
    ∧ (∀ q, GetPixel q s2 = (fst (GetPixel q s), s2)).
Proof.
  intros Hwf Hbg Hn. pose proof (wf_consistent _ Hwf) as Hc.
  destruct (AddPixel_spec s idx label Hc Hbg)
    as (s1 & Hrun1 & Hc1 & Hbg1 & Hkeys1 & Hview1).
  assert (I1 s1) as HI11.
  { apply I1_view; [apply Hc1|]. rewrite Hbg1, Hview1.
    rewrite decide_False by done. apply I1_view; [apply Hc|apply Hwf]. }
  destruct (RemovePixel_spec s1 idx label Hc1 HI11)
    as (s2 & Hrun2 & Hc2 & HI12 & Hbg2 & Hview2).
  pose proof (consistent_sorted _ Hc) as Hs.
  pose proof (consistent_sorted _ Hc2) as Hs2.
  assert (∀ k, view s2 k = view s k) as Hview.
  { intros k. rewrite Hview2, Hview1.
    destruct (decide (k = label)) as [->|]; [simpl|done].
    destruct (view s label) as [o|] eqn:Hv; simpl.
    - assert (idx ∉ m_Region o) as Hidx.
      { intros Hin. apply Hn. apply owns_view; eauto. }
      pose proof (well_formed_nonempty _ _ _ Hwf Hv) as Hne.
      unfold evict, LabelObj.Empty. simpl.
      rewrite bool_decide_eq_true_2 by set_solver.
      apply set_choose_L in Hne as [x Hx].
      rewrite bool_decide_eq_false_2.
      2:{ intros Heq. assert (x ∈ (m_Region o ∪ {[idx]}) ∖ {[idx]}) as Hx'
            by set_solver.
          rewrite Heq in Hx'. set_solver. }
      f_equal. destruct o as [l r]. simpl in *. f_equal. set_solver.
    - apply evict_None. simpl. set_solver. }
  exists s1, s2. split_and!; try done; [|congruence|].
  - apply sorted_keys_ext; [done|done|]. intros k.
    destruct (decide (k ∈ Container.keys (container s2))) as [Hk|Hk];
      destruct (decide (k ∈ Container.keys (container s))) as [Hk'|Hk'];
      try tauto.
    + apply view_None in Hk'; [|apply Hc]. rewrite <- Hview in Hk'.
      by apply view_None in Hk'; [|apply Hc2].
    + apply view_None in Hk; [|apply Hc2]. rewrite Hview in Hk.
      by apply view_None in Hk; [|apply Hc].
  - intros q. apply GetPixel_ext; [done|done|congruence|].
    intros k. by apply owns_same.
Qed.

Lemma AddPixel_RemovePixel_witness :
  let s := snd (AddPixel [0; 0] 1 (LabelMap_ctor ∅)) in
  ∃ s1 s2,
    AddPixel [3; 4] 1 s = (Ret tt, s1)
    ∧ RemovePixel [3; 4] 1 s1 = (Ret tt, s2)
    ∧ GetLabels s2 = GetLabels s
    ∧ view s2 1 = view s 1.
Proof.
  intros s.
  destruct (AddPixel_RemovePixel s [3; 4] 1)
    as (s1 & s2 & H1 & H2 & Hview & Hlabels & _).
  - apply well_formed_AddPixel, well_formed_LabelMap_ctor.
  - done.
  - intros (a & Hst & o & Ho & Hin).
    assert (container s = [(1, 1%positive)]) as Hc by done.
    unfold stored in Hst. rewrite Hc in Hst.
    apply list_elem_of_singleton in Hst. simplify_eq.
    assert (Some o = Some (LabelObj.AddIndex [0; 0] (fresh_object 1)))
      as [= ->] by (by rewrite <- Ho).
    simpl in Hin.
    apply elem_of_union in Hin as [Hin|Hin]; [set_solver|].
    apply elem_of_singleton in Hin. discriminate.
  - by exists s1, s2.
Defined.

(** ** SetPixel on a position that no other label has *)

Lemma AddPixel_it_Some_Ret s k idx label :
  consistent s → k ∈ Container.keys (container s) →
  AddPixel_it (Some k) idx label s
  = (Ret tt, snd (AddPixel_it (Some k) idx label s)).
Proof.
  intros Hc Hk. destruct (decide (label = background s)) as [->|Hbg].
  { by rewrite AddPixel_it_background. }
  apply find_is_Some_keys in Hk as [a Hf].
  destruct (consistent_valid _ Hc k a) as [o Ho].
  { by apply find_Some_elem_of. }
  assert (view s k = Some o) as Hview by (apply view_Some; eauto).
  by destruct (AddPixel_it_Some_spec s k o idx label Hc Hview Hbg)
    as (s1 & -> & _).
Qed.

(** The loop of [SetPixel] when no object of the entries still to visit,
    other than the one of the label, contains the position. *)
Lemma SetPixel_loop_unowned idx iLabel rest :
  ∀ pre s newLabel fuel,
    consistent s → container s = pre ++ rest →
    (∀ k, k ∈ Container.keys rest → k ≠ iLabel → ¬ owns s k idx) →
    (length rest ≤ fuel)%nat →
    SetPixel_loop fuel (Container.begin rest) idx iLabel newLabel s
    = if decide (iLabel ∈ Container.keys rest)
      then (Ret false, snd (AddPixel_it (Some iLabel) idx iLabel s))
      else (Ret newLabel, s).
Proof.
  induction rest as [|[k a] rest IH];
    intros pre s newLabel fuel Hc Hcont Hno Hfuel.
  { rewrite SetPixel_loop_end. rewrite decide_False; [done|].
    apply not_elem_of_nil. }
  destruct fuel as [|fuel]; [simpl in Hfuel; lia|]. simpl in Hfuel.
  pose proof (consistent_sorted _ Hc) as Hs. pose proof Hs as Hs0.
  rewrite Hcont in Hs.
  apply sorted_app_inv in Hs as (Hs1 & Hs2 & Hlt).
  apply sorted_cons_inv in Hs2 as [Hs2 Hlt2].
  assert (k ∉ Container.keys pre) as Hpre.
  { intros Hin. assert (k < k); [|lia]. apply Hlt; [done|].
    apply keys_cons. by left. }
  assert (k ∉ Container.keys rest) as Hrest.
  { intros Hin. specialize (Hlt2 _ Hin). lia. }
  assert (Container.find k (container s) = Some a) as Hf.
  { rewrite Hcont, find_app_r by done. simpl. by rewrite decide_True. }
  destruct (consistent_valid _ Hc k a) as [o Ho].
  { by apply find_Some_elem_of. }
  assert (view s k = Some o) as Hview by (apply view_Some; eauto).
  assert (Container.next k (container s) = Container.begin rest) as Hnext.
  { by rewrite Hcont, next_app_r, next_head. }
  change (Container.begin ((k, a) :: rest)) with (Some k).
  rewrite SetPixel_loop_step.
  erewrite bind_Ret by (by apply second_find).
  erewrite bind_Ret by reflexivity. fold (container s). rewrite Hnext.
  destruct (decide (k ≠ iLabel)) as [Hne|Heq%dec_stable].
  - erewrite bind_Ret by reflexivity.
    assert (idx ∉ m_Region o) as Hidx.
    { intros Hin. apply (Hno k); [apply keys_cons; by left|done|].
      apply owns_view; eauto. }
    erewrite bind_Ret by (by eapply RemovePixel_it_miss).
    rewrite (IH (pre ++ [(k, a)]) s newLabel fuel); [|done| | |lia].
    + destruct (decide (iLabel ∈ Container.keys rest)) as [Hin|Hin].
      * rewrite decide_True; [done|]. apply keys_cons. by right.
      * rewrite decide_False; [done|]. rewrite keys_cons. naive_solver.
    + by rewrite Hcont, <- app_assoc.
    + intros k' Hk'. apply Hno, keys_cons. by right.
  - subst k. rewrite (decide_True (P := iLabel ∈ _));
      [|apply keys_cons; by left].
    assert (iLabel ∈ Container.keys (container s)) as Hkey.
    { apply find_is_Some_keys. eauto. }
    pose proof (AddPixel_it_Some_Ret s iLabel idx iLabel Hc Hkey) as Hrun.
    erewrite bind_Ret by exact Hrun.
    set (s1 := snd (AddPixel_it (Some iLabel) idx iLabel s)) in *.
    assert (consistent s1 ∧ container s1 = container s
            ∧ ∀ k', k' ≠ iLabel → view s1 k' = view s k')
      as (Hc1 & Hcont1 & Hview1).
    { destruct (decide (iLabel = background s)) as [Hbg|Hbg].
      - subst s1. rewrite Hbg, AddPixel_it_background. by rewrite <- Hbg.
      - destruct (AddPixel_it_Some_spec s iLabel o idx iLabel Hc Hview Hbg)
          as (s2 & Hrun2 & Hc2 & Hbg2 & Hcont2 & Hview2).
        subst s1. rewrite Hrun2. simpl. split_and!; [done|done|].
        intros k' Hk'. by rewrite Hview2, decide_False. }
    rewrite (IH (pre ++ [(iLabel, a)]) s1 false fuel); [|done| | |lia].
    + by rewrite decide_False.
    + by rewrite Hcont1, Hcont, <- app_assoc.
    + intros k' Hk' Hne. rewrite (owns_same s s1 k' idx).
      * apply Hno; [|done]. apply keys_cons. by right.
      * done.
      * by rewrite Hcont1.
      * by apply Hview1.
Qed.

(** X11: [SetPixel] is [AddPixel] where there is nothing to evict.  On a
    label map whose pointers are alive and whose objects carry their keys
    as labels, when no object stored under another label contains the
    position, [SetPixel(idx, label)] has the outcome of
    [AddPixel(idx, label)] and leaves the very same state, the calls of
    [Modified()] included.  In particular, with the background value as
    label it changes nothing and does not call [Modified()]. *)
Theorem SetPixel_unowned s idx iLabel :
  consistent s → (∀ k, k ≠ iLabel → ¬ owns s k idx) →
  SetPixel idx iLabel s = AddPixel idx iLabel s
  ∧ (iLabel = background s → SetPixel idx iLabel s = (Ret tt, s)).
Proof.
  intros Hc Hno.
  assert (SetPixel idx iLabel s = AddPixel idx iLabel s) as Heq.
  { unfold SetPixel. erewrite bind_Ret by reflexivity. fold (container s).
    pose proof (SetPixel_loop_unowned idx iLabel (container s) [] s true
                  (length (container s)) Hc eq_refl
                  ltac:(by intros k _; apply Hno) ltac:(lia)) as Hloop.
    destruct (decide (iLabel ∈ Container.keys (container s))) as [Hkey|Hkey];
      erewrite bind_Ret by exact Hloop.
    - pose proof (AddPixel_it_Some_Ret s iLabel idx iLabel Hc Hkey) as Hrun.
      unfold when, ret.
      destruct (decide (iLabel = background s)) as [->|Hbg].
      + by rewrite AddPixel_background, AddPixel_it_background.
      + rewrite <- Hrun. unfold AddPixel.
        erewrite bind_Ret by reflexivity. fold (background s).
        rewrite decide_False by done.
        erewrite bind_Ret by reflexivity. fold (container s).
        apply find_is_Some_keys in Hkey as [a Hf].
        by rewrite (find_it_Some _ _ _ Hf).
    - unfold when. destruct (decide (iLabel = background s)) as [->|Hbg].
      + by rewrite AddPixel_background, AddPixel_it_background.
      + unfold AddPixel.
        erewrite bind_Ret by reflexivity. fold (background s).
        rewrite decide_False by done.
        erewrite bind_Ret by reflexivity. fold (container s).
        apply find_None_keys in Hkey. by rewrite (find_it_None _ _ Hkey). }
  split; [done|]. intros ->. by rewrite Heq, AddPixel_background.
Qed.

Lemma SetPixel_unowned_witness :
  let s := snd (AddPixel [0; 0] 1 (LabelMap_ctor ∅)) in
  SetPixel [3; 4] 2 s = AddPixel [3; 4] 2 s
  ∧ SetPixel [0; 0] 1 s = AddPixel [0; 0] 1 s.
Proof.
  intros s.
  assert (consistent s) as Hc.
  { apply consistent_AddPixel, consistent_LabelMap_ctor. }
  assert (∀ k q, owns s k q → k = 1 ∧ q = [0; 0]) as Howns.
  { intros k q Ho. apply AddPixel_owns in Ho as [Ho|Ho];
      [by apply owns_LabelMap_ctor in Ho|done|apply consistent_LabelMap_ctor
      |done]. }
  split.
  - apply (SetPixel_unowned s [3; 4] 2 Hc).
    intros k Hk Ho. by apply Howns in Ho as [_ [=]].
  - apply (SetPixel_unowned s [0; 0] 1 Hc).
    intros k Hk Ho. by apply Howns in Ho as [? _].
Defined.

(** ** SetLine *)

Lemma elem_of_line idx length q :
  q ∈ LabelObj.line idx length
  ↔ ∃ i, 0 ≤ i < length ∧ q = LabelObj.shift idx i.
Proof.
  unfold LabelObj.line. rewrite elem_of_list_to_set, list_elem_of_fmap.
  setoid_rewrite elem_of_seqZ. naive_solver lia.
Qed.

Lemma line_1 idx : LabelObj.line idx 1 = {[ idx ]}.
Proof.
  apply set_eq. intros q. rewrite elem_of_line, elem_of_singleton.
  assert (LabelObj.shift idx 0 = idx) as Hshift.
  { destruct idx as [|x r]; [done|]. simpl. f_equal. lia. }
  split.
  - intros (i & Hi & ->). by assert (i = 0) as -> by lia.
  - intros ->. exists 0. split; [lia|done].
Qed.

Lemma SetLine_spec s idx length label :
  consistent s → label ≠ background s →
  ∃ s', SetLine idx length label s = (Ret tt, s')
    ∧ consistent s'
    ∧ background s' = background s
    ∧ m_MTime (this s') = S (m_MTime (this s))
    ∧ ∀ k', view s' k'
            = if decide (k' = label)
              then Some (LabelObj.AddLine idx length
                           (default (fresh_object label) (view s label)))
              else view s k'.
Proof.
  intros Hc Hbg.
  destruct (Container.find label (container s)) as [a|] eqn:Hf.
  - pose proof (find_Some_elem_of _ _ _ Hf) as Hst.
    destruct (consistent_valid _ Hc _ _ Hst) as [o Ho].
    assert (view s label = Some o) as Hview by (apply view_Some; eauto).
    eexists. split; [by apply SetLine_Some|].
    destruct (store_stored s label a (LabelObj.AddLine idx length o) Hc Hst)
      as [Hc' Hview']; [simpl; by eapply (consistent_I2 _ Hc)|].
    split_and!; [by apply consistent_modified|done|done|].
    intros k'. by rewrite view_modified, Hview', Hview.
  - assert (view s label = None) as Hview.
    { unfold view. fold (container s). by rewrite Hf. }
    eexists. split; [by apply SetLine_None|].
    set (a := fresh (dom (heap s))).
    set (o := LabelObj.AddLine idx length (fresh_object label)).
    destruct (store_unstored s a o Hc) as [Hc1 Hv1].
    { intros k. apply fresh_unstored, Hc. }
    destruct (assign_stored (with_heap (<[a:=o]> (heap s)) s) label a o Hc1)
      as [Hc2 Hv2]; [apply lookup_insert_eq|done|].
    split_and!; [by apply consistent_modified|done|done|].
    intros k'. rewrite view_modified, Hv2, Hview. by rewrite Hv1.
Qed.

(** X12: [SetLine] on a label map whose pointers are alive and whose
    objects carry their keys as labels, with a label that is not the
    background value.  The call returns and calls [Modified()] once;
    afterwards a position is in the object of a label exactly when it was
    before, or the label is [label] and the position is one of the [length]
    positions of the run that starts at [idx] and advances along the first
    coordinate.  The label is present afterwards, also when the run is empty,
    and no other label appears or disappears.  For the positions, a run of
    length one is [AddPixel(idx, label)]: same outcome, same state.  With
    the background value as label [SetLine] does nothing. *)
Theorem SetLine_effect s idx length label :
  consistent s → label ≠ background s →
  ∃ s', SetLine idx length label s = (Ret tt, s')
    ∧ (∀ k q, owns s' k q
              ↔ owns s k q
                ∨ (k = label
                   ∧ ∃ i, 0 ≤ i < length ∧ q = LabelObj.shift idx i))
    ∧ (∀ l, HasLabel l s' = true ↔ l = label ∨ HasLabel l s = true)
    ∧ m_MTime (this s') = S (m_MTime (this s))
    ∧ background s' = background s
    ∧ SetLine idx 1 label s = AddPixel idx label s
    ∧ SetLine idx length (background s) s = (Ret tt, s).
Proof.
  intros Hc Hbg.
  destruct (SetLine_spec s idx length label Hc Hbg)
    as (s' & Hrun & Hc' & Hbg' & Htime & Hview').
  pose proof (consistent_sorted _ Hc) as Hs.
  pose proof (consistent_sorted _ Hc') as Hs'.
  exists s'. split_and!; [done| | |done|done| |apply SetLine_background].
  - intros k q. rewrite <- elem_of_line. rewrite !owns_view by done.
    rewrite Hview'. destruct (decide (k = label)) as [->|Hk]; [|naive_solver].
    destruct (view s label) as [o|]; simpl.
    + split.
      * intros (? & [= <-] & Hq). simpl in Hq.
        apply elem_of_union in Hq as [Hq|Hq]; [left; eauto|by right].
      * intros Hq. eexists. split; [done|]. simpl.
        destruct Hq as [(? & [= <-] & Hq)|[_ Hq]]; set_solver.
    + split.
      * intros (? & [= <-] & Hq). simpl in Hq. right. set_solver.
      * intros [(? & [=] & _)|[_ Hq]]. eexists. split; [done|]. simpl.
        set_solver.
  - intros l. rewrite !HasLabel_view by apply Hc || apply Hc'.
    rewrite Hbg', Hview'. destruct (decide (l = label)) as [->|]; naive_solver.
  - destruct (Container.find label (container s)) as [a|] eqn:Hf.
    + pose proof (find_Some_elem_of _ _ _ Hf) as Hst.
      destruct (consistent_valid _ Hc _ _ Hst) as [o Ho].
      rewrite (SetLine_Some s idx 1 label a o) by done.
      unfold AddPixel. erewrite bind_Ret by reflexivity. fold (background s).
      rewrite decide_False by done.
      erewrite bind_Ret by reflexivity. fold (container s).
      rewrite (find_it_Some _ _ _ Hf).
      rewrite (AddPixel_it_Some_eq s label a o) by done.
      unfold LabelObj.AddLine, LabelObj.AddIndex. by rewrite line_1.
    + rewrite (SetLine_None s idx 1 label) by done.
      unfold AddPixel. erewrite bind_Ret by reflexivity. fold (background s).
      rewrite decide_False by done.
      erewrite bind_Ret by reflexivity. fold (container s).
      rewrite (find_it_None _ _ Hf). rewrite AddPixel_it_None_eq by done.
      unfold LabelObj.AddLine, LabelObj.AddIndex. by rewrite line_1.
Qed.

Lemma SetLine_effect_witness :
  let s := snd (AddPixel [0; 0] 1 (LabelMap_ctor ∅)) in
  ∃ s', SetLine [2; 5] 3 1 s = (Ret tt, s')
    ∧ owns s' 1 [4; 5] ∧ owns s' 1 [0; 0] ∧ ¬ owns s' 1 [5; 5].
Proof.
  intros s.
  assert (consistent s) as Hc.
  { apply consistent_AddPixel, consistent_LabelMap_ctor. }
  assert (∀ k q, owns s k q ↔ k = 1 ∧ q = [0; 0]) as Hs.
  { intros k q. unfold s. rewrite AddPixel_owns;
      [|apply consistent_LabelMap_ctor|done].
    pose proof (owns_LabelMap_ctor ∅ k q). tauto. }
  destruct (SetLine_effect s [2; 5] 3 1 Hc) as (s' & Hrun & Howns & _);
    [done|].
  exists s'. split_and!; [done|..]; rewrite Howns, Hs.
  - right. split; [done|]. exists 2. split; [lia|done].
  - by left.
  - intros [[_ [=]]|[_ (i & Hi & [= Heq])]]. lia.
Defined.

(** ** Graft and ClearLabels *)

Lemma consistent_fields s s' :
  heap s' = heap s → container s' = container s →
  consistent s → consistent s'.
Proof.
  destruct s as [h [b c m]], s' as [h' [b' c' m']].
  unfold container. simpl. intros -> -> [? ? ?]. by constructor.
Qed.

Lemma view_fields s s' k :
  heap s' = heap s → container s' = container s → view s' k = view s k.
Proof. unfold view. by intros -> ->. Qed.

Lemma owns_fields s s' k q :
  heap s' = heap s → container s' = container s →
  owns s' k q ↔ owns s k q.
Proof. unfold owns, stored, contains. by intros -> ->. Qed.



(** X18: [ClearLabels], and with it [Initialize] and [Allocate], empties
    the label map.  The call returns; afterwards there is no label object,
    [HasLabel] holds for the background value only, [GetPixel] returns the
    background value for every position, and the lookups by position and by
    ordinal fail.  The background value is kept.  [Modified()] is called
    once when there was a label object, and not at all when the label map
    was empty already. *)
Theorem ClearLabels_effect s :
  ∃ s', ClearLabels s = (Ret tt, s')
    ∧ Initialize s = (Ret tt, s') ∧ Allocate s = (Ret tt, s')
    ∧ GetNumberOfLabelObjects s' = 0%nat
    ∧ GetLabels s' = []
    ∧ background s' = background s
    ∧ (∀ l, HasLabel l s' = true ↔ l = background s)
    ∧ (∀ idx, GetPixel idx s' = (Ret (background s), s'))
    ∧ (∀ idx, GetLabelObject_idx idx s' = (Throw PositionNotFound, s'))
    ∧ (∀ pos, GetNthLabelObject pos s' = (Throw IndexOutOfRange, s'))
    ∧ (GetNumberOfLabelObjects s = 0%nat → s' = s)
    ∧ (GetNumberOfLabelObjects s ≠ 0%nat →
       m_MTime (this s') = S (m_MTime (this s))).
Proof.
  eexists. split; [apply ClearLabels_eq|].
  split; [apply ClearLabels_eq|]. split; [apply ClearLabels_eq|].
  unfold GetNumberOfLabelObjects, GetLabels, HasLabel, GetPixel,
    GetLabelObject_idx, GetNthLabelObject, background, container.
  destruct s as [h [b c m]]. simpl.
  destruct c as [|e c]; simpl; split_and!; try done;
    intros l; case_decide; naive_solver.
Qed.

(** ** Disjoint objects along the calls *)

Section Owners.
Context {LT : NumericTraits}.
Implicit Types (s : State) (k : Z) (a : addr) (o : LabelObject).

(** Adding positions that no other label has keeps the owners unique. *)
Lemma one_owner_add s s' K (Q : IndexType → Prop) :
  one_owner s →
  (∀ k q, owns s' k q → owns s k q ∨ (k = K ∧ Q q)) →
  (∀ k q, k ≠ K → Q q → ¬ owns s k q) →
  one_owner s'.
Proof.
  intros Hone Hle Hfree q k1 k2 H1 H2.
  destruct (Hle _ _ H1) as [H1'|[-> HQ1]], (Hle _ _ H2) as [H2'|[-> HQ2]].
  - by apply (Hone q).
  - destruct (decide (k1 = K)); [done|]. by destruct (Hfree k1 q).
  - destruct (decide (k2 = K)); [done|]. by destruct (Hfree k2 q).
  - done.
Qed.

Lemma one_owner_sub s s' :
  one_owner s → (∀ k q, owns s' k q → owns s k q) → one_owner s'.
Proof.
  intros Hone Hle. apply (one_owner_add s s' 0 (λ _, False)); [done| |done].
  intros k q Ho. left. by apply Hle.
Qed.

(** The owners when the object of one label is replaced. *)
Lemma owns_replaced s s' K o' k q :
  Container.sorted (container s) → Container.sorted (container s') →
  (∀ k', view s' k' = if decide (k' = K) then Some o' else view s k') →
  owns s' k q → owns s k q ∨ (k = K ∧ q ∈ m_Region o').
Proof.
  intros Hs Hs' Hview (o1 & Hv & Hq)%owns_view; [|done].
  rewrite Hview in Hv. destruct (decide (k = K)) as [->|].
  - right. by simplify_eq.
  - left. apply owns_view; eauto.
Qed.

Lemma owns_removed s s' K k q :
  Container.sorted (container s) → Container.sorted (container s') →
  (∀ k', view s' k' = if decide (k' = K) then None else view s k') →
  owns s' k q → owns s k q.
Proof.
  intros Hs Hs' Hview (o1 & Hv & Hq)%owns_view; [|done].
  rewrite Hview in Hv. destruct (decide (k = K)) as [->|]; [done|].
  apply owns_view; eauto.
Qed.

Lemma SetLine_owns s idx length label k q :
  consistent s → label ≠ background s →
  owns (snd (SetLine idx length label s)) k q
  → owns s k q ∨ (k = label ∧ q ∈ LabelObj.line idx length).
Proof.
  intros Hc Hbg.
  destruct (SetLine_spec s idx length label Hc Hbg)
    as (s' & -> & Hc' & Hbg' & Htime & Hview').
  simpl. intros Ho.
  eapply owns_replaced in Ho; [|apply Hc|apply Hc'|exact Hview'].
  destruct Ho as [?|[-> Hq]]; [by left|]. simpl in Hq.
  apply elem_of_union in Hq as [Hq|Hq]; [|by right].
  left. destruct (view s label) as [o|] eqn:Hv; simpl in Hq.
  - apply owns_view; [apply Hc|]. eauto.
  - set_solver.
Qed.

Lemma RemovePixel_owns s idx label k q :
  consistent s → I1 s →
  owns (snd (RemovePixel idx label s)) k q → owns s k q.
Proof.
  intros Hc HI1.
  destruct (RemovePixel_spec s idx label Hc HI1)
    as (s' & -> & Hc' & HI1' & Hbg' & Hview').
  simpl. specialize (Hview' k).
  destruct (decide (k = label)) as [->|Hk].
  - rewrite (owns_evict s s' label idx q); [tauto|apply Hc|apply Hc'|done].
  - rewrite (owns_same s s' k q); [tauto|apply Hc|apply Hc'|done].
Qed.

Lemma no_owner_empty s k q : container s = [] → ¬ owns s k q.
Proof.
  intros Hempty (a & Hst & _). unfold stored in Hst. rewrite Hempty in Hst.
  by apply elem_of_nil in Hst.
Qed.

(** Every call that respects the owners keeps the objects disjoint. *)
Lemma owners_exec c s :
  respects_owners c s →
  consistent s → I1 s → one_owner s →
  consistent (snd (exec c s)) ∧ I1 (snd (exec c s))
  ∧ one_owner (snd (exec c s)).
Proof.
  intros Hr Hc HI1 Hone.
  assert (I1 (snd (exec c s))) as HI1'.
  { destruct c as [[a|]|[a|]| | | | | |[[imgData|]|]|];
      try (by apply I1_exec).
    - apply I1_exec; [|done]. unfold respects_owners in Hr. simpl.
      destruct (heap s !! a); [apply Hr|done].
    - unfold exec, respects_owners in *.
      destruct (heap s !! a) as [o|] eqn:Ho.
      + apply I1_PushLabelObject; [apply Hr|done].
      + by rewrite PushLabelObject_dangling.
    - apply I1_exec; [apply Hr|done]. }
  split; [|split; [done|]]; clear HI1'.
  - (* consistency *)
    destruct c as [[a|]|[a|]|idx label|idx label|idx length label|idx label
                   |label|[[imgData|]|]|];
      unfold exec, respects_owners in *; try done.
    + destruct (heap s !! a) as [o|] eqn:Ho.
      * rewrite (AddLabelObject_Some _ _ _ Ho). simpl.
        apply consistent_modified.
        by destruct (assign_stored s (m_Label o) a o Hc Ho eq_refl).
      * by rewrite AddLabelObject_dangling.
    + destruct (heap s !! a) as [o|] eqn:Ho;
        [|by rewrite PushLabelObject_dangling].
      destruct Hr as (Hn & Hp & _).
      pose proof (PushLabelObject_cases s a o Ho) as Hcases.
      cbv zeta in Hcases.
      destruct (pushed_label _ _) as [l|] eqn:Hl; [|done].
      destruct (store_unstored s a (LabelObj.SetLabel l o) Hc) as [Hc1 _].
      { intros k Hst. apply Hn. apply list_elem_of_fmap. by exists (k, a). }
      destruct Hcases as [-> | ->]; [|done].
      erewrite AddLabelObject_Some by apply lookup_insert_eq. simpl.
      apply consistent_modified.
      by destruct (assign_stored _ l a (LabelObj.SetLabel l o) Hc1
                     (lookup_insert_eq _ _ _) eq_refl).
    + by apply consistent_AddPixel.
    + by destruct (SetPixel_spec s idx label Hc HI1) as (s' & -> & ? & _).
    + destruct (decide (label = background s)) as [->|Hbg].
      * by rewrite SetLine_background.
      * by destruct (SetLine_spec s idx length label Hc Hbg)
          as (s' & -> & ? & _).
    + by destruct (RemovePixel_spec s idx label Hc HI1) as (s' & -> & ? & _).
    + destruct (decide (label = background s)) as [->|Hbg].
      * by rewrite RemoveLabel_background.
      * rewrite RemoveLabel_eq by done. simpl. apply consistent_modified.
        by destruct (erase_stored s label Hc).
    + by eapply consistent_fields, Hr.
    + rewrite ClearLabels_eq. simpl. destruct (container s); [done|].
      by apply wf_consistent, well_formed_empty.
  - (* unique owners *)
    destruct c as [[a|]|[a|]|idx label|idx label|idx length label|idx label
                   |label|[[imgData|]|]|];
      unfold exec, respects_owners in *; try done.
    + destruct (heap s !! a) as [o|] eqn:Ho.
      * destruct Hr as [Hbg Hfree].
        rewrite (AddLabelObject_Some _ _ _ Ho). simpl.
        destruct (assign_stored s (m_Label o) a o Hc Ho eq_refl)
          as [Hc' Hview'].
        apply (one_owner_add s _ (m_Label o) (λ q, q ∈ m_Region o));
          [done| |done].
        intros k q Ho'. apply (owns_fields _ _ k q eq_refl eq_refl) in Ho'.
        eapply owns_replaced in Ho'; [done|apply Hc|apply Hc'|done].
      * by rewrite AddLabelObject_dangling.
    + destruct (heap s !! a) as [o|] eqn:Ho;
        [|by rewrite PushLabelObject_dangling].
      destruct Hr as (Hn & Hp & Hfree).
      pose proof (PushLabelObject_cases s a o Ho) as Hcases.
      cbv zeta in Hcases.
      destruct (pushed_label _ _) as [l|] eqn:Hl; [|done].
      destruct (store_unstored s a (LabelObj.SetLabel l o) Hc)
        as [Hc1 Hview1].
      { intros k Hst. apply Hn. apply list_elem_of_fmap. by exists (k, a). }
      assert (∀ k q, owns (with_heap (<[a:=LabelObj.SetLabel l o]> (heap s)) s)
                       k q → owns s k q) as Hsame.
      { intros k q. rewrite (owns_same s _ k q); [done|apply Hc|apply Hc1|].
        apply Hview1. }
      destruct Hcases as [-> | ->]; [|by eapply one_owner_sub].
      erewrite AddLabelObject_Some by apply lookup_insert_eq. simpl.
      destruct (assign_stored _ l a (LabelObj.SetLabel l o) Hc1
                  (lookup_insert_eq _ _ _) eq_refl) as [Hc2 Hview2].
      apply (one_owner_add s _ l (λ q, q ∈ m_Region o)); [done| |by auto].
      intros k q Ho'. apply (owns_fields _ _ k q eq_refl eq_refl) in Ho'.
      eapply owns_replaced in Ho'; [|apply Hc1|apply Hc2|exact Hview2].
      destruct Ho' as [?|?]; [left; by apply Hsame|by right].
    + destruct (decide (label = background s)) as [->|Hbg].
      * by rewrite AddPixel_background.
      * apply (one_owner_add s _ label (λ q, q = idx)); [done| |].
        -- intros k q. by rewrite AddPixel_owns.
        -- intros k q Hk ->. by apply Hr.
    + by apply SetPixel_one_owner.
    + destruct (decide (label = background s)) as [->|Hbg].
      * by rewrite SetLine_background.
      * apply (one_owner_add s _ label (λ q, q ∈ LabelObj.line idx length));
          [done| |done].
        intros k q. by apply SetLine_owns.
    + eapply one_owner_sub; [done|]. intros k q. by apply RemovePixel_owns.
    + destruct (decide (label = background s)) as [->|Hbg].
      * by rewrite RemoveLabel_background.
      * rewrite RemoveLabel_eq by done. simpl.
        destruct (erase_stored s label Hc) as [Hc' Hview'].
        eapply one_owner_sub; [done|]. intros k q Ho'.
        apply (owns_fields _ _ k q eq_refl eq_refl) in Ho'.
        eapply owns_removed in Ho'; [done|apply Hc|apply Hc'|done].
    + destruct Hr as (_ & _ & Hone'). intros q k1 k2 H1 H2.
      apply (Hone' q); by eapply owns_fields; [..|done].
    + rewrite ClearLabels_eq. simpl. destruct (container s) eqn:Hcont; [done|].
      intros q k1 k2 H1. by apply no_owner_empty in H1.
Qed.

Lemma owners_run calls :
  ∀ s, admissible respects_owners calls s →
       consistent s → I1 s → one_owner s →
       consistent (run calls s) ∧ I1 (run calls s) ∧ one_owner (run calls s).
Proof.
  induction calls as [|c calls IH]; intros s Hadm Hc HI1 Hone; [done|].
  simpl in *. destruct Hadm as [Hr Hadm].
  pose proof (owners_exec c s Hr Hc HI1 Hone) as Hexec.
  destruct (exec c s) as [[[]| | |] s']; simpl in *; try done;
    destruct Hexec as (? & ? & ?); auto.
Qed.

(** X19: the objects stay disjoint.  Starting from a freshly constructed
    label map, after any sequence of calls of [SetPixel], [RemovePixel],
    [RemoveLabel] and [ClearLabels], of [AddPixel] and [SetLine] with
    positions that no object under another label has, of [AddLabelObject]
    with an object whose label is not the background value and whose
    positions no object under another label has, of [PushLabelObject] with
    an object that is not in the container yet, gets a label, and whose
    positions no stored object has, and of [Graft] from a label map with
    disjoint objects: no position is in the objects of two labels, nor in
    two stored objects, and [GetPixel] returns for a position the one label
    whose object contains it. *)
Theorem objects_stay_disjoint h calls :
  admissible respects_owners calls (LabelMap_ctor h) →
  one_owner (run calls (LabelMap_ctor h))
  ∧ I3 (run calls (LabelMap_ctor h))
  ∧ ∀ k idx, owns (run calls (LabelMap_ctor h)) k idx →
             GetPixel idx (run calls (LabelMap_ctor h))
             = (Ret k, run calls (LabelMap_ctor h)).
Proof.
  intros Hadm.
  destruct (owners_run calls (LabelMap_ctor h) Hadm) as (Hc & HI1 & Hone).
  - apply consistent_LabelMap_ctor.
  - apply I1_LabelMap_ctor.
  - intros q k1 k2 H1. by apply owns_LabelMap_ctor in H1.
  - split_and!; [done|by apply one_owner_I3|].
    intros k idx Ho. apply GetPixel_smallest; [done|done|].
    intros k' Hk' Ho'. specialize (Hone idx k k' Ho Ho'). lia.
Qed.
End Owners.

Lemma objects_stay_disjoint_witness :
  one_owner
    (run (LT := UnsignedChar)
       [CallAddPixel [0; 0] 1; CallSetPixel [0; 0] 3;
        CallRemovePixel [0; 1] 3; CallRemoveLabel 1]
       (LabelMap_ctor ∅)).
Proof.
  apply (objects_stay_disjoint (LT := UnsignedChar) ∅
           [CallAddPixel [0; 0] 1; CallSetPixel [0; 0] 3;
            CallRemovePixel [0; 1] 3; CallRemoveLabel 1]).
  simpl. split; [intros k _; apply owns_LabelMap_ctor|].
  repeat (match goal with
          | |- (let (_, _) := ?m in _) => destruct m as [[[]| | |] ?]
          end; try done; try (split; [done|])).
Defined.

(** ** The labels of the stored objects *)

(** X20: the keys are the labels of the objects.  Starting from a
    freshly constructed label map, after any sequence of calls of [AddPixel],
    [SetPixel], [RemovePixel], [RemoveLabel] and [ClearLabels], of
    [AddLabelObject] with a non-empty object whose label is not the
    background value, of [PushLabelObject] with a non-empty object that is
    not in the container and for which it finds a label, of [SetLine] with a
    positive length, and of [Graft] from a well-formed source: the labels of
    [GetLabels()] are strictly ascending, the object that [GetLabelObject]
    returns for a label is alive and has that label, the object at an ordinal
    has the label at that ordinal and is the one [GetLabelObject] returns for
    its label, and the object that [GetLabelObject] returns for a position
    has the label that [GetPixel] returns for the position. *)
Theorem keys_are_labels {LT : NumericTraits} h calls :
  admissible respects_invariants calls (LabelMap_ctor h) →
  StronglySorted Z.lt (GetLabels (run calls (LabelMap_ctor h)))
  ∧ (∀ label a,
       GetLabelObject label (run calls (LabelMap_ctor h))
       = (Ret a, run calls (LabelMap_ctor h)) →
       ∃ o, heap (run calls (LabelMap_ctor h)) !! a = Some o
            ∧ LabelObj.GetLabel o = label)
  ∧ (∀ pos a,
       GetNthLabelObject pos (run calls (LabelMap_ctor h))
       = (Ret a, run calls (LabelMap_ctor h)) →
       ∃ o, heap (run calls (LabelMap_ctor h)) !! a = Some o
            ∧ GetLabels (run calls (LabelMap_ctor h)) !! pos
              = Some (LabelObj.GetLabel o)
            ∧ GetLabelObject (LabelObj.GetLabel o)
                (run calls (LabelMap_ctor h))
              = (Ret a, run calls (LabelMap_ctor h)))
  ∧ (∀ idx a,
       GetLabelObject_idx idx (run calls (LabelMap_ctor h))
       = (Ret a, run calls (LabelMap_ctor h)) →
       ∃ o, heap (run calls (LabelMap_ctor h)) !! a = Some o
            ∧ GetPixel idx (run calls (LabelMap_ctor h))
              = (Ret (LabelObj.GetLabel o), run calls (LabelMap_ctor h))).
Proof.
  intros Hadm. set (s := run calls (LabelMap_ctor h)).
  assert (well_formed s) as Hwf.
  { apply well_formed_run; [done|apply well_formed_LabelMap_ctor]. }
  pose proof Hwf as [[Hs Hv HI2] HI1 _].
  split_and!; [done|..].
  - intros label a. rewrite GetLabelObject_eq. case_decide; [done|].
    destruct (Container.find label (container s)) as [a'|] eqn:Hf; [|done].
    intros [= ->]. apply find_Some_elem_of in Hf.
    destruct (Hv _ _ Hf) as [o Ho]. exists o. split; [done|].
    by apply (HI2 _ _ _ Hf).
  - intros pos a. unfold GetNthLabelObject. erewrite bind_Ret by reflexivity.
    rewrite GetNthLabelObject_loop_lookup by lia. rewrite Nat.sub_0_r.
    unfold GetLabels. fold (container s). rewrite !list_lookup_fmap.
    destruct (container s !! pos) as [[label a']|] eqn:Hpos;
      unfold LabelObjectContainerType in *; rewrite ?Hpos; simpl; [|done].
    intros [= ->].
    assert (stored s label a) as Hst.
    { unfold stored. by eapply list_elem_of_lookup_2. }
    destruct (Hv _ _ Hst) as [o Ho]. exists o.
    unfold LabelObj.GetLabel. rewrite (HI2 _ _ _ Hst Ho).
    split_and!; [done|done|]. rewrite GetLabelObject_eq.
    rewrite decide_False.
    + by rewrite (elem_of_find _ _ _ Hs Hst).
    + intros Hbg. apply HI1. rewrite Hbg. apply elem_of_keys. eauto.
  - intros idx a. unfold GetLabelObject_idx, GetPixel.
    erewrite !bind_Ret by reflexivity. fold (container s).
    destruct (first_or_none s idx (container s) Hv)
      as [(pre & k & a' & o & post & Hcont & Ho & Hidx & Hpre)|Hnone].
    + rewrite Hcont.
      rewrite (GetLabelObject_idx_loop_first s idx pre k a' o post) by done.
      intros [= ->]. exists o. split; [done|].
      by apply GetPixel_loop_first.
    + by rewrite (GetLabelObject_idx_loop_none _ _ _ Hnone).
Qed.

Lemma keys_are_labels_witness :
  let o := {| m_Label := 0; m_Region := {[ [7; 7] ]} |} in
  let h : gmap addr LabelObject := {[ 1%positive := o ]} in
  StronglySorted Z.lt
    (GetLabels
       (run (LT := UnsignedChar)
          [CallAddPixel [0; 0] 1; CallPushLabelObject (Some 1%positive);
           CallSetPixel [0; 0] 3; CallSetLine [0; 1] 4 1]
          (LabelMap_ctor h))).
Proof.
  intros o h.
  apply (keys_are_labels (LT := UnsignedChar) h
           [CallAddPixel [0; 0] 1; CallPushLabelObject (Some 1%positive);
            CallSetPixel [0; 0] 3; CallSetLine [0; 1] 4 1]).
  vm_compute. repeat split; try discriminate.
  intros Hin. apply list_elem_of_singleton in Hin. discriminate.
Defined.

(** ** RemoveLabelObject and Optimize *)

(** X21: [RemoveLabelObject] removes by label, not by object.  With a
    live object it is [RemoveLabel] with the label of the object: when that
    label is not the background value the call returns, no object is stored
    under the label afterwards, whether the object stored under it was the
    given one or another one, and the entries of the other labels are left
    as they are, the given object included when it is stored under another
    label; when the label is the background value the call throws and
    changes nothing.  A NULL pointer is refused with [NullArgument]. *)
Theorem RemoveLabelObject_by_label s a o :
  heap s !! a = Some o →
  RemoveLabelObject (Some a) s = RemoveLabel (m_Label o) s
  ∧ (m_Label o ≠ background s →
     ∃ s', RemoveLabelObject (Some a) s = (Ret tt, s')
       ∧ HasLabel (m_Label o) s' = false
       ∧ (∀ a', ¬ stored s' (m_Label o) a')
       ∧ (∀ k a', k ≠ m_Label o → stored s' k a' ↔ stored s k a')
       ∧ m_MTime (this s') = S (m_MTime (this s)))
  ∧ (m_Label o = background s →
     RemoveLabelObject (Some a) s = (Throw BackgroundLabelAccess, s))
  ∧ RemoveLabelObject None s = (Throw NullArgument, s).
Proof.
  intros Ho.
  assert (RemoveLabelObject (Some a) s = RemoveLabel (m_Label o) s) as Heq.
  { unfold RemoveLabelObject. msimpl. by rewrite Ho. }
  split_and!; [done| | |done].
  - intros Hbg. rewrite Heq. eexists. split; [by apply RemoveLabel_eq|].
    split_and!; [| | |done].
    + unfold HasLabel. simpl. fold (background s) (container s).
      rewrite decide_False by done. apply bool_decide_eq_false_2.
      rewrite find_erase_eq. by intros [].
    + intros a'. fields. rewrite elem_of_erase. tauto.
    + intros k a' Hk. fields. rewrite elem_of_erase. tauto.
  - intros Hbg. rewrite Heq, Hbg. apply RemoveLabel_background.
Qed.

Lemma RemoveLabelObject_by_label_witness :
  let o1 := {| m_Label := 4; m_Region := {[ [0; 0] ]} |} in
  let o2 := {| m_Label := 4; m_Region := {[ [1; 0] ]} |} in
  let h : gmap addr LabelObject := {[ 1%positive := o1; 2%positive := o2 ]} in
  let s := snd (AddLabelObject (Some 1%positive) (LabelMap_ctor h)) in
  GetLabelObjects s = [1%positive]
  ∧ ∃ s', RemoveLabelObject (Some 2%positive) s = (Ret tt, s')
          ∧ HasLabel 4 s' = false.
Proof.
  intros o1 o2 h s. split; [done|].
  destruct (RemoveLabelObject_by_label s 2%positive o2 eq_refl)
    as (_ & Hrem & _).
  destruct Hrem as (s' & Hrun & Hhas & _); [done|].
  by exists s'.
Defined.

Lemma Optimize_loop_eq s c :
  (∀ k a, (k, a) ∈ c → is_Some (heap s !! a)) →
  Optimize_loop c s = (Ret tt, s).
Proof.
  induction c as [|[k a] c IH]; intros Hv; [done|].
  destruct (Hv k a) as [o Ho]; [left|].
  simpl. unfold update, LabelObj.Optimize.
  erewrite bind_Ret.
  2:{ erewrite bind_Ret by (unfold load; by rewrite Ho). reflexivity. }
  unfold store. rewrite insert_id by done. rewrite with_heap_id.
  apply IH. intros k' a' Hin. apply (Hv k' a'). by right.
Qed.

(** X22: [Optimize] keeps the label map.  Given that the compaction of
    a label object keeps its label and its positions, [Optimize] on a label
    map whose pointers are alive returns, leaves the container and every
    object as they are, so that every query gives what it gave before, and
    calls [Modified()] once, also when the label map is empty. *)
Theorem Optimize_effect s :
  valid_pointers s →
  Optimize s = (Ret tt, modified s)
  ∧ (∀ k, view (modified s) k = view s k)
  ∧ (∀ idx, GetPixel idx (modified s) = (fst (GetPixel idx s), modified s))
  ∧ GetLabels (modified s) = GetLabels s
  ∧ m_MTime (this (modified s)) = S (m_MTime (this s)).
Proof.
  intros Hv. split_and!; try done.
  - unfold Optimize. erewrite bind_Ret by reflexivity. fold (container s).
    erewrite bind_Ret by (by apply Optimize_loop_eq). done.
  - intros idx. unfold GetPixel. erewrite !bind_Ret by reflexivity.
    change (m_LabelObjectContainer (this (modified s))) with (container s).
    fold (container s).
    destruct (first_or_none s idx (container s) Hv)
      as [(pre & k & a' & o & post & Hcont & Ho & Hidx & Hpre)|Hnone].
    + rewrite Hcont.
      rewrite (GetPixel_loop_first s idx pre k a' o post) by done.
      by rewrite (GetPixel_loop_first (modified s) idx pre k a' o post).
    + rewrite (GetPixel_loop_none s) by done.
      by rewrite (GetPixel_loop_none (modified s)).
Qed.

Lemma Optimize_effect_witness :
  let s := snd (AddPixel [0; 0] 1 (LabelMap_ctor ∅)) in
  Optimize s = (Ret tt, modified s).
Proof.
  intros s. apply (Optimize_effect s).
  apply consistent_valid, consistent_AddPixel, consistent_LabelMap_ctor.
Defined.

(** ** The allocation of PushLabelObject *)

Section Allocation.
Context {LT : NumericTraits}.
Implicit Types (s : State) (k : Z) (a : addr) (o : LabelObject).
Implicit Types (c : LabelObjectContainerType).

(** In a sorted container the first key is the smallest and the last key
    the largest. *)
Lemma sorted_first_last firstLabel a c :
  Container.sorted ((firstLabel, a) :: c) →
  List.last (Container.keys ((firstLabel, a) :: c)) firstLabel
    ∈ Container.keys ((firstLabel, a) :: c)
  ∧ ∀ k, k ∈ Container.keys ((firstLabel, a) :: c) →
         firstLabel ≤ k
         ≤ List.last (Container.keys ((firstLabel, a) :: c)) firstLabel.
Proof.
  intros Hs. split; [apply List_last_elem_of|].
  assert (∀ (ks : list Z) d, StronglySorted Z.lt ks →
            ∀ k, k ∈ ks → k ≤ List.last ks d) as Hlast.
  { induction ks as [|k1 ks IH]; intros d Hks k Hk.
    { by apply elem_of_nil in Hk. }
    apply StronglySorted_inv in Hks as [Hks Hlt].
    destruct ks as [|k2 ks].
    { apply list_elem_of_singleton in Hk. by subst. }
    change (List.last (k1 :: k2 :: ks) d) with (List.last (k2 :: ks) d).
    apply elem_of_cons in Hk as [->|Hk]; [|by apply IH].
    apply Forall_cons in Hlt as [Hlt _].
    specialize (IH d Hks k2 ltac:(left)). lia. }
  intros k Hk. split; [|by apply Hlast].
  apply sorted_cons_inv in Hs as [_ Hlt].
  apply keys_cons in Hk as [->|Hk]; [done|]. specialize (Hlt _ Hk). lia.
Qed.

Lemma sorted_head_last c first last :
  Container.sorted c →
  first ∈ Container.keys c → last ∈ Container.keys c →
  (∀ k, k ∈ Container.keys c → first ≤ k ≤ last) →
  ∃ a c', c = (first, a) :: c'
          ∧ List.last (Container.keys c) first = last.
Proof.
  intros Hs Hf Hl Hall. destruct c as [|[k a] c'].
  { by apply elem_of_nil in Hf. }
  destruct (sorted_first_last k a c' Hs) as [_ Hk].
  assert (k = first) as ->.
  { specialize (Hk first Hf). specialize (Hall k ltac:(apply keys_cons; auto)).
    lia. }
  exists a, c'. split; [done|]. apply last_largest; [done|done|].
  intros k' Hk'. by apply Hall.
Qed.

(** The label that [PushLabelObject] finds is a label that is no key. *)
Lemma pushed_label_fresh bg c l :
  Container.sorted c → Forall is_label (Container.keys c) →
  bg ∉ Container.keys c →
  pushed_label bg c = Some l → (l ∉ Container.keys c) ∧ is_label l.
Proof.
  intros Hs Hl Hbg. pose proof modulus_ge_2 as Hm. unfold pushed_label.
  destruct c as [|[firstLabel a] c].
  { unfold is_label, NumericTraits_max.
    case_decide; intros [= <-]; (split; [apply not_elem_of_nil|lia]). }
  destruct (sorted_first_last _ _ _ Hs) as [Hin Hbounds].
  set (ks := Container.keys ((firstLabel, a) :: c)) in *.
  set (lastLabel := List.last ks firstLabel) in *.
  assert (is_label lastLabel) as [Hl0 Hl1].
  { eapply Forall_forall in Hl; [|exact Hin]. done. }
  assert (is_label firstLabel) as [Hf0 Hf1].
  { eapply Forall_forall in Hl; [done|]. apply keys_cons. by left. }
  unfold NumericTraits_NonpositiveMin, is_label, NumericTraits_max in *.
  destruct (decide (lastLabel ≠ modulus - 1 ∧ wrap (lastLabel + 1) ≠ bg))
    as [[H1 H2]|Ha].
  { intros [= <-]. rewrite wrap_small by lia. split; [|lia].
    intros Hk%Hbounds. lia. }
  destruct (decide (lastLabel ≠ modulus - 1
                    ∧ wrap (lastLabel + 1) ≠ modulus - 1
                    ∧ wrap (lastLabel + 2) ≠ bg)) as [(H1 & H2 & H3)|Hb].
  { rewrite wrap_small in H2 by lia.
    intros [= <-]. rewrite wrap_small by lia. split; [|lia].
    intros Hk%Hbounds. lia. }
  destruct (decide (firstLabel ≠ 0 ∧ wrap (firstLabel - 1) ≠ bg))
    as [[H1 H2]|Hc].
  { intros [= <-]. rewrite wrap_small by lia. split; [|lia].
    intros Hk%Hbounds. lia. }
  pose proof (unused_label_first bg ks firstLabel firstLabel Hs Hl Hbg
                ltac:(done) Hf0 ltac:(by intros ? [= <-])) as Hfirst.
  pose proof (unused_label_last bg ks firstLabel firstLabel Hs Hl Hbg
                ltac:(done) Hf0 ltac:(by intros ? [= <-])) as Hlast.
  destruct (unused_label bg firstLabel ks) as [l' [|]]; [|done].
  intros [= <-]. destruct Hfirst as (Hnin & _ & Hle & _).
  split; [done|]. fold lastLabel in Hlast. lia.
Qed.

(** [PushLabelObject] gives the object the label it finds. *)
Lemma PushLabelObject_pushed s a o l :
  Container.sorted (container s) →
  Forall is_label (Container.keys (container s)) →
  I1 s → heap s !! a = Some o →
  pushed_label (background s) (container s) = Some l →
  PushLabelObject (Some a) s = (Ret tt, pushed_as l a o s).
Proof.
  intros Hs Hl HI1 Ho Hp.
  destruct (PushLabelObject_never_full s a o Hs Hl HI1 Ho) as [s' Hrun].
  destruct (PushLabelObject_cases s a o Ho) as [Hadd|Hfull];
    [|congruence].
  rewrite Hadd, Hp.
  by erewrite AddLabelObject_Some by apply lookup_insert_eq.
Qed.

(** When it finds none, the object keeps its label. *)
Lemma PushLabelObject_stale s a o :
  Container.sorted (container s) →
  Forall is_label (Container.keys (container s)) →
  I1 s → heap s !! a = Some o →
  pushed_label (background s) (container s) = None →
  PushLabelObject (Some a) s = AddLabelObject (Some a) s.
Proof.
  intros Hs Hl HI1 Ho Hp.
  destruct (PushLabelObject_never_full s a o Hs Hl HI1 Ho) as [s' Hrun].
  destruct (PushLabelObject_cases s a o Ho) as [Hadd|Hfull];
    [|congruence].
  by rewrite Hadd, Hp.
Qed.

(** The outcome of the three tests on the first and the last key. *)
Lemma pushed_label_rules bg c first last :
  Container.sorted c → is_label first → is_label last → is_label bg →
  first ∈ Container.keys c → last ∈ Container.keys c →
  (∀ k, k ∈ Container.keys c → first ≤ k ≤ last) →
  pushed_label bg c
  = if decide (last ≠ NumericTraits_max ∧ last + 1 ≠ bg)
    then Some (last + 1)
    else if decide (last + 1 = bg ∧ bg ≠ NumericTraits_max)
    then Some (last + 2)
    else if decide (first ≠ 0 ∧ first - 1 ≠ bg) then Some (first - 1)
    else let '(label, found) := unused_label bg first (Container.keys c) in
         if found then Some label else None.
Proof.
  intros Hs [Hf0 Hf1] [Hl0 Hl1] [Hb0 Hb1] Hf Hl Hall.
  pose proof modulus_ge_2 as Hm.
  destruct (sorted_head_last c first last Hs Hf Hl Hall)
    as (a & c' & -> & Hlast).
  unfold pushed_label. rewrite Hlast.
  unfold NumericTraits_NonpositiveMin, NumericTraits_max in *.
  destruct (decide (last = modulus - 1)) as [Hmax|Hmax].
  - rewrite !(decide_False (P := last ≠ modulus - 1 ∧ _)) by tauto.
    rewrite (decide_False (P := last + 1 = bg ∧ _)) by lia.
    destruct (decide (first = 0)) as [->|H0].
    + by rewrite !(decide_False (P := 0 ≠ 0 ∧ _)) by tauto.
    + rewrite (wrap_small (first - 1)) by lia.
      by destruct (decide (first ≠ 0 ∧ first - 1 ≠ bg)).
  - rewrite (wrap_small (last + 1)) by lia.
    destruct (decide (last ≠ modulus - 1 ∧ last + 1 ≠ bg)) as [|Ha]; [done|].
    assert (last + 1 = bg) as Hbg by (destruct (decide (last + 1 = bg)); tauto).
    destruct (decide (bg = modulus - 1)) as [Hbmax|Hbmax].
    + rewrite (decide_False (P := last ≠ modulus - 1 ∧ _)) by lia.
      rewrite (decide_False (P := last + 1 = bg ∧ _)) by tauto.
      destruct (decide (first = 0)) as [->|H0].
      * by rewrite !(decide_False (P := 0 ≠ 0 ∧ _)) by tauto.
      * rewrite (wrap_small (first - 1)) by lia.
        by destruct (decide (first ≠ 0 ∧ first - 1 ≠ bg)).
    + rewrite (wrap_small (last + 2)) by lia.
      rewrite (decide_True (P := last ≠ modulus - 1 ∧ _)) by lia.
      by rewrite (decide_True (P := last + 1 = bg ∧ _)) by lia.
Qed.
End Allocation.

Section AllocationTheorems.
Context {LT : NumericTraits}.
Implicit Types (s : State) (k : Z) (a : addr) (o : LabelObject).

(** X13: [PushLabelObject] never overwrites when it allocates.  On a label
    map whose keys are ascending labels, none of them the background value,
    [PushLabelObject] with a live object returns: it does not throw.
    Whenever its allocation gives a label, that label is a value of the
    label type, is not the background value and was no key; the object gets
    it and is stored under it, every other label gives the object it gave
    before, and the number of label objects grows by one. *)
Theorem PushLabelObject_fresh s a o :
  Container.sorted (container s) → Forall is_label (GetLabels s) →
  I1 s → heap s !! a = Some o →
  ∃ s', PushLabelObject (Some a) s = (Ret tt, s')
    ∧ ∀ l, pushed_label (background s) (container s) = Some l →
        s' = pushed_as l a o s
        ∧ (l ∉ GetLabels s) ∧ l ≠ background s ∧ is_label l
        ∧ heap s' !! a = Some (LabelObj.SetLabel l o)
        ∧ GetLabelObject l s' = (Ret a, s')
        ∧ (∀ k, k ≠ l →
                GetLabelObject k s' = (fst (GetLabelObject k s), s'))
        ∧ GetNumberOfLabelObjects s' = S (GetNumberOfLabelObjects s).
Proof.
  intros Hs Hl HI1 Ho.
  destruct (PushLabelObject_never_full s a o Hs Hl HI1 Ho) as [s' Hrun].
  exists s'. split; [done|]. intros l Hp.
  rewrite (PushLabelObject_pushed s a o l Hs Hl HI1 Ho Hp) in Hrun.
  injection Hrun as <-.
  destruct (pushed_label_fresh _ _ _ Hs Hl HI1 Hp) as [Hnin Hlab].
  pose proof (pushed_label_not_background _ _ _ Hp) as Hbg.
  split_and!; try done.
  - unfold pushed_as. fields. apply lookup_insert_eq.
  - rewrite GetLabelObject_eq. unfold pushed_as. fields.
    rewrite decide_False by done. by rewrite find_assign_eq.
  - intros k Hk. rewrite !GetLabelObject_eq. unfold pushed_as. fields. simpl.
    by rewrite find_assign_ne.
  - unfold GetNumberOfLabelObjects, pushed_as. simpl. fold (container s).
    rewrite length_assign by done. by rewrite decide_False.
Qed.

(** X14: the second and the third rule of the allocation.  On a label
    map as above, with the smallest key [first] and the largest key [last]:
    when [last + 1] is the background value and this is not the maximum of
    the label type, the object gets the label [last + 2]; when the labels
    behind [last] are used up, that is, [last] is the maximum, or
    [last + 1] is the background value and the maximum, and [first] is not
    zero and [first - 1] is not the background value, the object gets the
    label [first - 1].  In both cases the call returns and the object is
    stored under its new label. *)
Theorem PushLabelObject_rules_b_c s a o first last :
  Container.sorted (container s) → Forall is_label (GetLabels s) →
  I1 s → heap s !! a = Some o → is_label (background s) →
  first ∈ GetLabels s → last ∈ GetLabels s →
  (∀ k, k ∈ GetLabels s → first ≤ k ≤ last) →
  (last + 1 = background s → background s ≠ NumericTraits_max →
   PushLabelObject (Some a) s = (Ret tt, pushed_as (last + 2) a o s))
  ∧ (last = NumericTraits_max
     ∨ (last + 1 = background s ∧ background s = NumericTraits_max) →
     first ≠ 0 → first - 1 ≠ background s →
     PushLabelObject (Some a) s = (Ret tt, pushed_as (first - 1) a o s)).
Proof.
  intros Hs Hl HI1 Ho Hbg Hf Hla Hall.
  assert (is_label first ∧ is_label last) as [Hfl Hll].
  { rewrite Forall_forall in Hl. auto. }
  pose proof (pushed_label_rules (background s) (container s) first last
                Hs Hfl Hll Hbg Hf Hla Hall) as Hp.
  split.
  - intros H1 H2. apply PushLabelObject_pushed; try done.
    rewrite Hp. rewrite decide_False by lia. by rewrite decide_True.
  - intros H1 H2 H3. apply PushLabelObject_pushed; try done.
    destruct Hbg as [Hb0 Hb1].
    rewrite Hp. rewrite decide_False by lia.
    rewrite decide_False by lia. by rewrite decide_True.
Qed.

(** X15: the search of the allocation.  On a label map as above, when
    the first three rules give no label (the labels behind [last] are used
    up, and [first] is zero or [first - 1] is the background value) and [l]
    is the smallest value from [first] on that is neither a key nor the
    background value, and [l] is below [last], the object gets the label
    [l]: the call returns and the object is stored under [l]. *)
Theorem PushLabelObject_scan s a o first last l :
  Container.sorted (container s) → Forall is_label (GetLabels s) →
  I1 s → heap s !! a = Some o → is_label (background s) →
  first ∈ GetLabels s → last ∈ GetLabels s →
  (∀ k, k ∈ GetLabels s → first ≤ k ≤ last) →
  last = NumericTraits_max
  ∨ (last + 1 = background s ∧ background s = NumericTraits_max) →
  first = 0 ∨ first - 1 = background s →
  first ≤ l ≤ last → l ∉ GetLabels s → l ≠ background s →
  (∀ x, first ≤ x < l → x ∈ GetLabels s ∨ x = background s) →
  PushLabelObject (Some a) s = (Ret tt, pushed_as l a o s).
Proof.
  intros Hs Hl HI1 Ho Hbg Hf Hla Hall Hab Hc Hrange Hnin Hlbg Hbelow.
  assert (is_label first ∧ is_label last) as [Hfl Hll].
  { rewrite Forall_forall in Hl. auto. }
  apply PushLabelObject_pushed; try done.
  rewrite (pushed_label_rules (background s) (container s) first last)
    by done.
  rewrite !decide_False by (destruct Hbg; lia).
  destruct (sorted_head_last _ first last Hs Hf Hla Hall)
    as (a' & c' & Hcont & Hlast).
  assert (Container.keys (container s) ≠ []) as Hne by (by rewrite Hcont).
  assert (∀ k, head (Container.keys (container s)) = Some k → first ≤ k)
    as Hhd.
  { rewrite Hcont. by intros ? [= <-]. }
  pose proof (unused_label_first (background s) _ first first Hs Hl HI1 Hne
                (proj1 Hfl) Hhd) as Hfirst.
  destruct (unused_label _ _ _) as [l' [|]].
  - destruct Hfirst as (Hnin' & Hbg' & Hle' & Hbelow').
    f_equal. destruct (Z.lt_trichotomy l l') as [Hlt|[Heq|Hgt]]; [|done|].
    + destruct (Hbelow' l) as [?|?]; [lia|done..].
    + destruct (Hbelow l') as [?|?]; [lia|done..].
  - rewrite Hlast in Hfirst. destruct (Hfirst l) as [?|?]; [lia|done..].
Qed.

(** X16: a label map on which the allocation gives no label.  On a
    label map as above, when the first three rules give no label and every
    value from [first] to [last] is a key or the background value,
    [PushLabelObject] does not throw: it is [AddLabelObject], which stores
    the object under the label that the object has, whatever it is, in place
    of the object stored under that label before. *)
Theorem PushLabelObject_exhausted s a o first last :
  Container.sorted (container s) → Forall is_label (GetLabels s) →
  I1 s → heap s !! a = Some o → is_label (background s) →
  first ∈ GetLabels s → last ∈ GetLabels s →
  (∀ k, k ∈ GetLabels s → first ≤ k ≤ last) →
  last = NumericTraits_max
  ∨ (last + 1 = background s ∧ background s = NumericTraits_max) →
  first = 0 ∨ first - 1 = background s →
  (∀ x, first ≤ x ≤ last → x ∈ GetLabels s ∨ x = background s) →
  PushLabelObject (Some a) s = AddLabelObject (Some a) s
  ∧ PushLabelObject (Some a) s
    = (Ret tt,
       modified (with_container
                   (Container.assign (m_Label o) a (container s)) s)).
Proof.
  intros Hs Hl HI1 Ho Hbg Hf Hla Hall Hab Hc Hfull.
  assert (is_label first ∧ is_label last) as [Hfl Hll].
  { rewrite Forall_forall in Hl. auto. }
  assert (PushLabelObject (Some a) s = AddLabelObject (Some a) s) as Heq.
  { apply (PushLabelObject_stale s a o); try done.
    rewrite (pushed_label_rules (background s) (container s) first last)
      by done.
    rewrite !decide_False by (destruct Hbg; lia).
    destruct (sorted_head_last _ first last Hs Hf Hla Hall)
      as (a' & c' & Hcont & Hlast).
    assert (Container.keys (container s) ≠ []) as Hne by (by rewrite Hcont).
    assert (∀ k, head (Container.keys (container s)) = Some k → first ≤ k)
      as Hhd.
    { rewrite Hcont. by intros ? [= <-]. }
    pose proof (unused_label_first (background s) _ first first Hs Hl HI1
                  Hne (proj1 Hfl) Hhd) as Hfirst.
    pose proof (unused_label_last (background s) _ first first Hs Hl HI1
                  Hne (proj1 Hfl) Hhd) as Hlast'.
    destruct (unused_label _ _ _) as [l' [|]]; [|done].
    destruct Hfirst as (Hnin' & Hbg' & Hle' & _). rewrite Hlast in Hlast'.
    destruct (Hfull l') as [?|?]; [lia|done..]. }
  split; [done|]. rewrite Heq. by apply AddLabelObject_Some.
Qed.
End AllocationTheorems.

Ltac label_bounds := vm_compute; split; discriminate.
Ltac label_list := repeat (constructor; [label_bounds|]); constructor.

Lemma PushLabelObject_fresh_witness :
  let o1 := {| m_Label := 1; m_Region := {[ [0; 0] ]} |} in
  let o2 := {| m_Label := 0; m_Region := {[ [1; 0] ]} |} in
  let h : gmap addr LabelObject := {[ 1%positive := o1; 2%positive := o2 ]} in
  let s := snd (AddLabelObject (Some 1%positive) (LabelMap_ctor h)) in
  ∃ s', PushLabelObject (LT := UnsignedChar) (Some 2%positive) s = (Ret tt, s')
    ∧ GetLabelObject 2 s' = (Ret 2%positive, s')
    ∧ GetLabelObject 1 s' = (Ret 1%positive, s').
Proof.
  intros o1 o2 h s.
  assert (container s = [(1, 1%positive)]) as Hc by done.
  destruct (PushLabelObject_fresh (LT := UnsignedChar) s 2%positive o2)
    as (s' & Hrun & Hl).
  - unfold Container.sorted. rewrite Hc. repeat constructor.
  - label_list.
  - unfold I1. rewrite Hc. intros Hin%list_elem_of_singleton. discriminate.
  - done.
  - destruct (Hl 2 eq_refl) as (_ & _ & _ & _ & _ & H2 & Hk & _).
    exists s'. split_and!; [done|done|]. by rewrite Hk.
Defined.

Lemma PushLabelObject_rules_b_c_witness :
  let o1 := {| m_Label := 1; m_Region := {[ [0; 0] ]} |} in
  let o2 := {| m_Label := 0; m_Region := {[ [1; 0] ]} |} in
  let h : gmap addr LabelObject := {[ 1%positive := o1; 2%positive := o2 ]} in
  let s := {| heap := h;
              this := {| m_BackgroundValue := 2;
                         m_LabelObjectContainer := [(1, 1%positive)];
                         m_MTime := 0 |} |} in
  PushLabelObject (LT := UnsignedChar) (Some 2%positive) s
  = (Ret tt, pushed_as 3 2%positive o2 s).
Proof.
  intros o1 o2 h s.
  apply (PushLabelObject_rules_b_c (LT := UnsignedChar) s 2%positive o2 1 1).
  - repeat constructor.
  - label_list.
  - intros Hin%list_elem_of_singleton. discriminate.
  - done.
  - label_bounds.
  - left.
  - left.
  - intros k Hk%list_elem_of_singleton. simpl in Hk. subst k. lia.
  - done.
  - vm_compute. discriminate.
Defined.

Lemma PushLabelObject_scan_witness :
  let h : gmap addr LabelObject :=
    {[ 1%positive := {| m_Label := 1; m_Region := {[ [0; 0] ]} |};
       2%positive := {| m_Label := 3; m_Region := {[ [1; 0] ]} |};
       3%positive := {| m_Label := 255; m_Region := {[ [2; 0] ]} |};
       4%positive := {| m_Label := 0; m_Region := {[ [3; 0] ]} |} ]} in
  let s := {| heap := h;
              this := {| m_BackgroundValue := 0;
                         m_LabelObjectContainer :=
                           [(1, 1%positive); (3, 2%positive);
                            (255, 3%positive)];
                         m_MTime := 0 |} |} in
  PushLabelObject (LT := UnsignedChar) (Some 4%positive) s
  = (Ret tt,
     pushed_as 2 4%positive {| m_Label := 0; m_Region := {[ [3; 0] ]} |} s).
Proof.
  intros h s.
  assert (GetLabels s = [1; 3; 255]) as Hlabels by done.
  apply (PushLabelObject_scan (LT := UnsignedChar) s 4%positive _ 1 255 2);
    rewrite ?Hlabels.
  - repeat constructor.
  - label_list.
  - unfold I1. change (Container.keys (container s)) with [1; 3; 255].
    intros Hin. repeat (apply elem_of_cons in Hin as [[=]|Hin]).
    by apply elem_of_nil in Hin.
  - done.
  - label_bounds.
  - left.
  - right. right. left.
  - intros k Hk. repeat (apply elem_of_cons in Hk as [->|Hk]); try lia.
    by apply elem_of_nil in Hk.
  - by left.
  - by right.
  - lia.
  - intros Hin. repeat (apply elem_of_cons in Hin as [[=]|Hin]).
    by apply elem_of_nil in Hin.
  - done.
  - intros x Hx. left. assert (x = 1) as -> by lia. left.
Defined.

Lemma PushLabelObject_exhausted_witness :
  let o1 := {| m_Label := 255; m_Region := {[ [0; 0] ]} |} in
  let o2 := {| m_Label := 255; m_Region := {[ [1; 0] ]} |} in
  let h : gmap addr LabelObject := {[ 1%positive := o1; 2%positive := o2 ]} in
  let s := {| heap := h;
              this := {| m_BackgroundValue := 254;
                         m_LabelObjectContainer := [(255, 1%positive)];
                         m_MTime := 0 |} |} in
  PushLabelObject (LT := UnsignedChar) (Some 2%positive) s
  = AddLabelObject (Some 2%positive) s
  ∧ GetLabelObjects (snd (PushLabelObject (LT := UnsignedChar)
                            (Some 2%positive) s))
    = [2%positive].
Proof.
  intros o1 o2 h s.
  destruct (PushLabelObject_exhausted (LT := UnsignedChar) s 2%positive o2
              255 255) as [Heq Hrun].
  - repeat constructor.
  - label_list.
  - intros Hin%list_elem_of_singleton. discriminate.
  - done.
  - label_bounds.
  - left.
  - left.
  - intros k Hk%list_elem_of_singleton. simpl in Hk. subst k. lia.
  - by left.
  - by right.
  - intros x Hx. left. assert (x = 255) as -> by lia. left.
  - split; [done|]. exact (f_equal (λ r, GetLabelObjects r.2) Hrun).
Defined.
